(** * image-wrench: colour analysis and metadata comparators

    A shallow embedding of [src/color/processing.ts] and of the
    comparators of [src/color/sorting.ts], with the properties of the
    specification that concern them and further properties of the code.

    Conventions of the embedding.
    - A JavaScript [number] is a [num]: an exact rational, or one of [NaN],
      [+Infinity], [-Infinity].  Rounding error, overflow and the sign of
      zero are not represented.
    - Array lengths, loop indices and the integer parameters (cluster count,
      palette size, candidate factor) are [Z] or [nat].
    - [undefined] is [None].  An exception is [None] at the result of the
      function that throws.
    - [Math.random] is a sequence [nat -> num]; the state threaded through
      the code that calls it is the number of draws made so far.
    - [Math.pow] is a parameter of the functions that use it, and so are
      [getColorScore] and [getPerceptualColorDifference] in the comparators
      that call them. *)

From Stdlib Require Import ZArith QArith Qround Qabs String Ascii List Bool.
From Stdlib Require Import Lia Lqa Permutation Sorted.
Import ListNotations.

Set Implicit Arguments.

(* ===================================================================== *)
(** ** JavaScript numbers *)
(* ===================================================================== *)

Module JsNum.

Inductive num : Type :=
| Fin (q : Q)
| NaN
| PInf
| NInf.

Definition ofZ (z : Z) : num := Fin (inject_Z z).
Definition ofNat (n : nat) : num := ofZ (Z.of_nat n).

(** The sign of a number, [None] for [NaN]. *)
Definition sign (x : num) : option comparison :=
  match x with
  | Fin q => Some (q ?= 0)%Q
  | PInf => Some Gt
  | NInf => Some Lt
  | NaN => None
  end.

Definition signMul (a b : comparison) : comparison :=
  match a with
  | Eq => Eq
  | Gt => b
  | Lt => CompOpp b
  end.

(** The infinity of a given sign; the sign [Eq] stands for [0 * Infinity]. *)
Definition infOf (c : comparison) : num :=
  match c with
  | Gt => PInf
  | Lt => NInf
  | Eq => NaN
  end.

Definition neg (x : num) : num :=
  match x with
  | Fin q => Fin (- q)
  | NaN => NaN
  | PInf => NInf
  | NInf => PInf
  end.

Definition add (x y : num) : num :=
  match x, y with
  | NaN, _ | _, NaN => NaN
  | Fin a, Fin b => Fin (a + b)
  | PInf, NInf | NInf, PInf => NaN
  | PInf, _ | _, PInf => PInf
  | NInf, _ | _, NInf => NInf
  end.

Definition sub (x y : num) : num := add x (neg y).

Definition mul (x y : num) : num :=
  match x, y with
  | Fin a, Fin b => Fin (a * b)
  | _, _ =>
      match sign x, sign y with
      | Some a, Some b => infOf (signMul a b)
      | _, _ => NaN
      end
  end.

(** Division; a zero divisor is [+0]. *)
Definition div (x y : num) : num :=
  match x, y with
  | NaN, _ | _, NaN => NaN
  | Fin a, Fin b =>
      if Qeq_bool b 0 then infOf (a ?= 0)%Q else Fin (a / b)
  | Fin _, _ => Fin 0
  | _, Fin b =>
      match sign x with
      | Some a => infOf (signMul a (if Qeq_bool b 0 then Gt else (b ?= 0)%Q))
      | None => NaN
      end
  | _, _ => NaN
  end.

(** [x < y]; every comparison with [NaN] is false. *)
Definition lt (x y : num) : bool :=
  match x, y with
  | NaN, _ | _, NaN => false
  | Fin a, Fin b => match (a ?= b)%Q with Lt => true | _ => false end
  | NInf, NInf => false
  | NInf, _ => true
  | _, NInf => false
  | PInf, _ => false
  | _, PInf => true
  end.

(** [x === y] on numbers. *)
Definition eq (x y : num) : bool :=
  match x, y with
  | Fin a, Fin b => Qeq_bool a b
  | PInf, PInf | NInf, NInf => true
  | _, _ => false
  end.

Definition gt (x y : num) : bool := lt y x.
Definition le (x y : num) : bool := lt x y || eq x y.
Definition ge (x y : num) : bool := le y x.

Definition isNaN (x : num) : bool :=
  match x with NaN => true | _ => false end.

(** [Math.min(x, y)] and [Math.max(x, y)]. *)
Definition min (x y : num) : num :=
  if isNaN x || isNaN y then NaN else if lt y x then y else x.
Definition max (x y : num) : num :=
  if isNaN x || isNaN y then NaN else if lt x y then y else x.

(** [Math.min(...l)] and [Math.max(...l)]. *)
Definition minList (l : list num) : num := fold_left min l PInf.
Definition maxList (l : list num) : num := fold_left max l NInf.

Definition abs (x : num) : num :=
  match x with
  | Fin q => Fin (Qabs q)
  | NaN => NaN
  | _ => PInf
  end.

Definition floor (x : num) : num :=
  match x with
  | Fin q => ofZ (Qfloor q)
  | _ => x
  end.

Definition ceil (x : num) : num :=
  match x with
  | Fin q => ofZ (Qceiling q)
  | _ => x
  end.

(** [Math.round]: the nearest integer, halves towards [+Infinity]. *)
Definition round (x : num) : num :=
  match x with
  | Fin q => ofZ (Qfloor (q + (1 # 2)))
  | _ => x
  end.

(** Truthiness of a number: [0] and [NaN] are falsy. *)
Definition truthy (x : num) : bool :=
  match x with
  | Fin q => negb (Qeq_bool q 0)
  | NaN => false
  | _ => true
  end.

(** [x || y] on numbers. *)
Definition orElse (x y : num) : num := if truthy x then x else y.

(** The array index a number denotes: a non-negative integer. *)
Definition toIndex (x : num) : option nat :=
  match x with
  | Fin q =>
      if Qeq_bool q (inject_Z (Qfloor q)) && (0 <=? Qfloor q)%Z
      then Some (Z.to_nat (Qfloor q))
      else None
  | _ => None
  end.

Definition isFin (x : num) : Prop :=
  match x with Fin _ => True | _ => False end.

(** Equality of numbers up to the representation of the rational. *)
Definition equiv (x y : num) : Prop :=
  match x, y with
  | Fin a, Fin b => (a == b)%Q
  | NaN, NaN | PInf, PInf | NInf, NInf => True
  | _, _ => False
  end.

End JsNum.

Import JsNum.

Declare Scope num_scope.
Delimit Scope num_scope with num.
Bind Scope num_scope with num.
Infix "+" := add : num_scope.
Infix "-" := sub : num_scope.
Infix "*" := mul : num_scope.
Infix "/" := div : num_scope.
Infix "<?" := lt : num_scope.
Infix "<=?" := le : num_scope.
Infix ">?" := gt : num_scope.
Infix ">=?" := ge : num_scope.
Infix "=?" := eq : num_scope.
Infix "==" := equiv (at level 70, no associativity) : num_scope.

Arguments add : simpl never.
Arguments sub : simpl never.
Arguments mul : simpl never.
Arguments div : simpl never.
Arguments lt : simpl never.
Arguments gt : simpl never.
Arguments le : simpl never.
Arguments ge : simpl never.
Arguments eq : simpl never.
Arguments min : simpl never.
Arguments max : simpl never.
Arguments minList : simpl never.
Arguments maxList : simpl never.
Arguments round : simpl never.
Arguments floor : simpl never.
Arguments abs : simpl never.
Arguments toIndex : simpl never.
Arguments ofZ : simpl never.

(* ===================================================================== *)
(** ** Arrays and strings of the JavaScript library *)
(* ===================================================================== *)

Module JsLib.

Section Arrays.
Variable A : Type.

  (** Insertion of [x] in front of a sorted suffix: [x] stays before every
      element it does not have to follow, which keeps the sort stable. *)
Fixpoint sortInsert (cmp : A -> A -> num) (x : A) (l : list A) : list A :=
    match l with
    | [] => [x]
    | y :: ys =>
        if (cmp x y >? ofZ 0)%num then y :: sortInsert cmp x ys
        else x :: y :: ys
    end.

  (** [Array.prototype.sort(cmp)]: a stable sort; [cmp a b > 0] puts [b]
      first.  For a comparator that is not a consistent ordering the
      language leaves the order open, and this is one admissible result. *)
Definition sort (cmp : A -> A -> num) (l : list A) : list A :=
    fold_right (sortInsert cmp) [] l.

  (** [arr.slice(from)] and [arr.slice(0, to)] for indices in [nat]. *)
Definition sliceFrom (from : nat) (l : list A) : list A := skipn from l.
Definition sliceTo (to : nat) (l : list A) : list A := firstn to l.

  (** [arr.splice(i, 1, x, y)], the array after the call. *)
Definition splice1 (i : nat) (x y : A) (l : list A) : list A :=
    firstn i l ++ x :: y :: skipn (S i) l.

  (** [arr.splice(i, 1)], the array after the call. *)
Definition removeAt (i : nat) (l : list A) : list A :=
    firstn i l ++ skipn (S i) l.

  (** [arr[i]] for a numeric index. *)
Definition at_ (l : list A) (i : Z) : option A :=
    if (i <? 0)%Z then None else nth_error l (Z.to_nat i).
End Arrays.

(** [s.split(sep)] for a one-character separator. *)
Fixpoint split (sep : ascii) (s : string) : list string :=
  match s with
  | EmptyString => [EmptyString]
  | String c s' =>
      if Ascii.eqb c sep then EmptyString :: split sep s'
      else match split sep s' with
           | [] => [String c EmptyString]
           | p :: ps => String c p :: ps
           end
  end.

Definition digitOf (c : ascii) : option Z :=
  let n := Z.of_nat (nat_of_ascii c) in
  if ((48 <=? n) && (n <=? 57))%Z then Some (n - 48)%Z else None.

Definition digitChar (d : Z) : ascii := ascii_of_nat (Z.to_nat (48 + d)).

(** White space skipped by [parseInt], within ASCII. *)
Definition isWhiteSpace (c : ascii) : bool :=
  let n := nat_of_ascii c in
  ((9 <=? n) && (n <=? 13) || (n =? 32))%nat.

Fixpoint trimStart (s : string) : string :=
  match s with
  | String c s' => if isWhiteSpace c then trimStart s' else s
  | EmptyString => s
  end.

(** The value of the longest prefix of decimal digits, after [acc]. *)
Fixpoint parseDigits (s : string) (acc : Z) : Z :=
  match s with
  | String c s' =>
      match digitOf c with
      | Some d => parseDigits s' (10 * acc + d)
      | None => acc
      end
  | EmptyString => acc
  end.

Definition startsWithDigit (s : string) : bool :=
  match s with
  | String c _ => match digitOf c with Some _ => true | None => false end
  | EmptyString => false
  end.

(** [parseInt(s, 10)]; [None] is [NaN]. *)
Definition parseInt (s : string) : option Z :=
  let s1 := trimStart s in
  let '(sgn, s2) :=
    match s1 with
    | String "-"%char t => ((-1)%Z, t)
    | String "+"%char t => (1%Z, t)
    | _ => (1%Z, s1)
    end in
  if startsWithDigit s2 then Some (sgn * parseDigits s2 0)%Z else None.

Fixpoint digitsOf (fuel : nat) (n : Z) (acc : string) : string :=
  match fuel with
  | O => acc
  | S f =>
      let acc' := String (digitChar (n mod 10)) acc in
      if (n <? 10)%Z then acc' else digitsOf f (n / 10) acc'
  end.

(** [String(n)] for an integer [n] (below the 21 digits at which
    JavaScript changes to the exponent form). *)
Definition intToString (n : Z) : string :=
  let m := Z.abs n in
  let ds := digitsOf (S (Z.to_nat (Z.log2 m))) m EmptyString in
  if (n <? 0)%Z then String "-"%char ds else ds.

(** A value in a template literal: an element read from a typed array is
    an integer or [undefined]. *)
Definition showElem (v : option Z) : string :=
  match v with
  | Some n => intToString n
  | None => "undefined"%string
  end.

End JsLib.

Import JsLib.


(* ===================================================================== *)
(** ** [src/color/processing.ts] *)
(* ===================================================================== *)

Module Processing.

Local Open Scope num_scope.

(** *** Types ([~/types/color]) *)

(** [Color], which is also the shape of the [Centroid] of the clustering. *)
Record Color : Type := mkColor { r : num; g : num; b : num }.

Definition Centroid : Type := Color.

(** A colour with integer channels. *)
Definition rgb (x y z : Z) : Color := mkColor (ofZ x) (ofZ y) (ofZ z).

(** [DataPoint]: a colour and its weight.  A data point is passed where a
    [Centroid] is expected, which the coercion renders. *)
Record DataPoint : Type := mkPoint { point :> Color; count : num }.

Record HistogramBin : Type := mkBin { bin_count : Z; bin_value : Z }.

Record Histogram : Type := mkHistogram {
  hist_r : list HistogramBin;
  hist_g : list HistogramBin;
  hist_b : list HistogramBin;
  totalPixels : num
}.

Record Brightness : Type := mkBrightness {
  averageBrightness : num;
  brightnessRange_min : num;
  brightnessRange_max : num
}.

(** [VisualMetadata] as [analyzeImageColors] builds it: every field is
    present.  An element of [distinctPaletteColors] is [None] where the code
    stores [undefined] (see [extractDistinctColorPalette]). *)
Record VisualMetadata : Type := mkVisualMetadata {
  averageColor : Color;
  dominantColors : list Color;
  representativePaletteColors : list Color;
  distinctPaletteColors : list (option Color);
  histogram : Histogram;
  brightness : Brightness;
  colorVariance : Color
}.

(** The canvas: its dimensions and what [getContext('2d')] gives, [None] for
    no context and otherwise the [data] of [getImageData(0, 0, width,
    height)], a [Uint8ClampedArray]. *)
Record Canvas : Type := mkCanvas {
  width : Z;
  height : Z;
  context2d : option (list Z)
}.

(** A [Map<string, number>]: its entries in insertion order. *)
Definition ColorCounts : Type := list (string * num).

Fixpoint mapGet (m : ColorCounts) (key : string) : option num :=
  match m with
  | [] => None
  | (k, v) :: m' => if String.eqb k key then Some v else mapGet m' key
  end.

(** [m.set(key, v)]: an existing key keeps its place, a new one goes last. *)
Fixpoint mapSet (m : ColorCounts) (key : string) (v : num) : ColorCounts :=
  match m with
  | [] => [(key, v)]
  | (k, w) :: m' =>
      if String.eqb k key then (k, v) :: m' else (k, w) :: mapSet m' key v
  end.

(** [m.get(key) || 0] *)
Definition countOf (m : ColorCounts) (key : string) : num :=
  match mapGet m key with
  | Some v => orElse v (ofZ 0)
  | None => ofZ 0
  end.

(** The indices [0, 4, 8, ...] below [len] of a loop over pixels. *)
Definition pixelIndices (len : nat) : list nat :=
  map (fun j => (4 * j)%nat) (seq 0 ((len + 3) / 4)).

(** The array after an update in place of the element of index [i]; an
    index outside the array is of no element. *)
Definition updateAt (A : Type) (f : A -> A) (i : Z) (l : list A) : list A :=
  if (i <? 0)%Z then l
  else
    (fix go (n : nat) (l : list A) : list A :=
       match l, n with
       | [], _ => []
       | x :: xs, O => f x :: xs
       | x :: xs, S n' => x :: go n' xs
       end) (Z.to_nat i) l.

(** *** Histogram *)

Definition HISTOGRAM_BINS : Z := 32.
Definition CANDIDATE_SIZE_FACTOR : Z := 12.

Definition createBins : list HistogramBin :=
  map (fun i => mkBin 0 ((Z.of_nat i * 256) / HISTOGRAM_BINS))
      (seq 0 (Z.to_nat HISTOGRAM_BINS)).

Definition initializeHistogram : Histogram :=
  mkHistogram createBins createBins createBins (ofZ 0).

Definition getBinIndex (value : Z) : Z := ((value * HISTOGRAM_BINS) / 256)%Z.

Definition incr (bin : HistogramBin) : HistogramBin :=
  mkBin (bin_count bin + 1) (bin_value bin).

(** The three bins are incremented together, or none is (with a warning). *)
Definition updateHistogram (h : Histogram) (r g b : Z) : Histogram :=
  match at_ (hist_r h) (getBinIndex r),
        at_ (hist_g h) (getBinIndex g),
        at_ (hist_b h) (getBinIndex b) with
  | Some _, Some _, Some _ =>
      mkHistogram (updateAt incr (getBinIndex r) (hist_r h))
                  (updateAt incr (getBinIndex g) (hist_g h))
                  (updateAt incr (getBinIndex b) (hist_b h))
                  (totalPixels h)
  | _, _, _ => h
  end.

(** *** Brightness *)

Section Brightness.
Variable Math_pow : num -> num -> num.

Definition linearize (s : num) : num :=
    if s <=? Fin 0.03928 then s / Fin 12.92
    else Math_pow ((s + Fin 0.055) / Fin 1.055) (Fin 2.4).

Definition calculatePixelBrightness (r g b : num) : num :=
    let sR := r / ofZ 255 in
    let sG := g / ofZ 255 in
    let sB := b / ofZ 255 in
    let rL := linearize sR in
    let gL := linearize sG in
    let bL := linearize sB in
    Fin 0.2126 * rL + Fin 0.7152 * gL + Fin 0.0722 * bL.
End Brightness.

(** *** Weighted k-means *)

Definition euclideanDistanceSquared (c1 c2 : Centroid) : num :=
  let dr := r c1 - r c2 in
  let dg := g c1 - g c2 in
  let db := b c1 - b c2 in
  dr * dr + dg * dg + db * db.

(** **** The random source *)

(** A computation that draws from [Math.random] and may throw: from the
    number of draws made so far to the result and the new number of draws,
    or [None] for a [TypeError]. *)
Definition M (A : Type) : Type := nat -> option (A * nat).

Definition ret (A : Type) (a : A) : M A := fun n => Some (a, n).

Definition bind (A B : Type) (m : M A) (f : A -> M B) : M B :=
  fun n => match m n with
           | Some (a, n') => f a n'
           | None => None
           end.

Definition throw (A : Type) : M A := fun _ => None.

Notation "x <- m ;; k" := (bind m (fun x => k))
  (at level 61, m at next level, right associativity).

Section KMeans.
Variable random : nat -> num.

Definition Math_random : M num := fun n => Some (random n, S n).

(** The scan [rand -= w_i; if (rand <= 0) { selected = data[i]; break }]. *)
Fixpoint pickWeighted (weights : list num) (data : list DataPoint)
    (rand : num) : option DataPoint :=
  match weights, data with
  | w :: ws, d :: ds =>
      let rand' := rand - w in
      if rand' <=? ofZ 0 then Some d else pickWeighted ws ds rand'
  | _, _ => None
  end.

(** [selected || data[data.length - 1]], then the dereference [selected!.r]. *)
Definition pickOrLast (weights : list num) (data : list DataPoint)
    (rand : num) : M Centroid :=
  match pickWeighted weights data rand with
  | Some d => ret (point d)
  | None =>
      match last (map Some data) None with
      | Some d => ret (point d)
      | None => throw _
      end
  end.

Definition sumNum (l : list num) : num := fold_left add l (ofZ 0).

(** The loop [while (centroids.length < k)] of the seeding; each pass
    pushes one centroid, so [fuel] passes are enough when [fuel >= k]. *)
Fixpoint seedLoop (fuel : nat) (data : list DataPoint) (k : Z)
    (centroids : list Centroid) : M (list Centroid) :=
  match fuel with
  | O => ret centroids
  | S fuel' =>
      if (Z.of_nat (length centroids) <? k)%Z then
        let distances :=
          map (fun d : DataPoint =>
                 minList (map (fun c => euclideanDistanceSquared d c) centroids)
                 * count d) data in
        let sumDistances := sumNum distances in
        u <- Math_random ;;
        c <- pickOrLast distances data (u * sumDistances) ;;
        seedLoop fuel' data k (centroids ++ [c])
      else ret centroids
  end.

Definition initializeCentroidsKMeansPP (data : list DataPoint) (k : Z)
    : M (list Centroid) :=
  let totalWeight := sumNum (map count data) in
  u <- Math_random ;;
  c <- pickOrLast (map count data) data (u * totalWeight) ;;
  seedLoop (Z.to_nat k) data k [c].

Record Sums : Type := mkSums { sumR : num; sumG : num; sumB : num; weight : num }.

Definition zeroSums : Sums := mkSums (ofZ 0) (ofZ 0) (ofZ 0) (ofZ 0).

(** The inner loop of the assignment: the first index of least distance. *)
Fixpoint nearest (d : DataPoint) (centroids : list Centroid) (i : nat)
    (bestIndex : nat) (bestDistance : num) : nat :=
  match centroids with
  | [] => bestIndex
  | c :: cs =>
      let d2 := euclideanDistanceSquared d c in
      if d2 <? bestDistance then nearest d cs (S i) i d2
      else nearest d cs (S i) bestIndex bestDistance
  end.

Definition accumulate (d : DataPoint) (s : Sums) : Sums :=
  mkSums (sumR s + r d * count d) (sumG s + g d * count d)
         (sumB s + b d * count d) (weight s + count d).

(** The assignment pass; [sums[bestIndex]!] throws when there is no
    centroid at all. *)
Fixpoint assign (data : list DataPoint) (centroids : list Centroid)
    (sums : list Sums) : M (list Sums) :=
  match data with
  | [] => ret sums
  | d :: ds =>
      let bestIndex := nearest d centroids 0 0 PInf in
      match nth_error sums bestIndex with
      | Some _ =>
          assign ds centroids (updateAt (accumulate d) (Z.of_nat bestIndex) sums)
      | None => throw _
      end
  end.

(** The update pass over [i < k], on [centroids[i]] and [sums[i]]: the new
    centroids, the cluster weights and [converged].  A cluster without
    points takes [data[Math.floor(Math.random() * data.length)]]; an index
    outside the data stores [undefined], which the next access to the
    centroid dereferences, so the model throws at once. *)
Fixpoint update (data : list DataPoint) (centroids : list Centroid)
    (sums : list Sums) : M (list Centroid * list num * bool) :=
  match centroids, sums with
  | c :: cs, s :: ss =>
      if weight s >? ofZ 0 then
        let newCentroid :=
          mkColor (sumR s / weight s) (sumG s / weight s) (sumB s / weight s) in
        let moved := euclideanDistanceSquared c newCentroid >? Fin 1.0 in
        rest <- update data cs ss ;;
        let '(cs', ws', conv) := rest in
        ret (newCentroid :: cs', weight s :: ws', negb moved && conv)
      else
        u <- Math_random ;;
        match toIndex (floor (u * ofNat (length data))) with
        | Some j =>
            match nth_error data j with
            | Some d =>
                rest <- update data cs ss ;;
                let '(cs', ws', conv) := rest in
                ret (point d :: cs', ofZ 0 :: ws', false)
            | None => throw _
            end
        | None => throw _
        end
  | _, _ => ret ([], [], true)
  end.

(** The iterations; [maxIterations] is the number of passes left. *)
Fixpoint iterate (maxIterations : nat) (data : list DataPoint)
    (centroids : list Centroid) (clusterWeights : list num)
    : M (list Centroid * list num) :=
  match maxIterations with
  | O => ret (centroids, clusterWeights)
  | S n =>
      let k := length centroids in
      sums <- assign data centroids (repeat zeroSums k) ;;
      res <- update data centroids sums ;;
      let '(centroids', clusterWeights', converged) := res in
      if converged : bool then ret (centroids', clusterWeights')
      else iterate n data centroids' clusterWeights'
  end.

Definition kMeansClustering (data : list DataPoint) (centroids : list Centroid)
    (maxIterations : nat) : M (list Centroid * list num) :=
  iterate maxIterations data centroids (repeat (ofZ 0) (length centroids)).

(** *** Dominant colours *)

(** One entry of the colour map as a data point, [None] for a key that is
    not three integers (with a warning). *)
Definition parseEntry (entry : string * num) : option DataPoint :=
  let '(key, count) := entry in
  match map parseInt (split ","%char key) with
  | [Some r; Some g; Some b] => Some (mkPoint (rgb r g b) count)
  | _ => None
  end.

Fixpoint filterSome (A : Type) (l : list (option A)) : list A :=
  match l with
  | [] => []
  | Some a :: l' => a :: filterSome l'
  | None :: l' => filterSome l'
  end.

(** [finalCentroids.map((centroid, i) => ({ centroid, weight: clusterWeights[i] }))] *)
Fixpoint clustersOf (centroids : list Centroid) (clusterWeights : list num)
    : list (Centroid * option num) :=
  match centroids with
  | [] => []
  | c :: cs =>
      match clusterWeights with
      | w :: ws => (c, Some w) :: clustersOf cs ws
      | [] => (c, None) :: clustersOf cs []
      end
  end.

(** [weight ?? 0] *)
Definition weightOr0 (cl : Centroid * option num) : num :=
  match snd cl with Some w => w | None => ofZ 0 end.

Definition byWeightDesc (a b : Centroid * option num) : num :=
  weightOr0 b - weightOr0 a.

(** [Math.min(255, Math.max(0, Math.round(x)))] *)
Definition clampChannel (x : num) : num :=
  min (ofZ 255) (max (ofZ 0) (round x)).

Definition toColor (c : Centroid) : Color :=
  mkColor (clampChannel (r c)) (clampChannel (g c)) (clampChannel (b c)).

Definition extractDominantColors (colorCounts : ColorCounts) (k : Z)
    : M (list Color) :=
  let data := filterSome (map parseEntry colorCounts) in
  if (length data =? 0)%nat then ret []
  else if (Z.of_nat (length data) <=? k)%Z then
    ret (map (fun d : DataPoint => mkColor (r d) (g d) (b d)) data)
  else
    centroids <- initializeCentroidsKMeansPP data k ;;
    res <- kMeansClustering data centroids 10 ;;
    let '(finalCentroids, clusterWeights) := res in
    let clusters := clustersOf finalCentroids clusterWeights in
    let sorted := sort byWeightDesc clusters in
    ret (map (fun c => toColor (fst c)) sorted).

End KMeans.

(** *** Median cut *)

Record ColorBox : Type := mkBox {
  data : list DataPoint;
  rMin : num; rMax : num;
  gMin : num; gMax : num;
  bMin : num; bMax : num
}.

Definition createColorBox (data : list DataPoint) : ColorBox :=
  fold_left
    (fun box (p : DataPoint) =>
       mkBox data
         (if r p <? rMin box then r p else rMin box)
         (if r p >? rMax box then r p else rMax box)
         (if g p <? gMin box then g p else gMin box)
         (if g p >? gMax box then g p else gMax box)
         (if b p <? bMin box then b p else bMin box)
         (if b p >? bMax box then b p else bMax box))
    data (mkBox data PInf NInf PInf NInf PInf NInf).

Inductive Channel : Type := chR | chG | chB.

Definition channel (ch : Channel) (p : DataPoint) : num :=
  match ch with
  | chR => r p
  | chG => g p
  | chB => b p
  end.

Definition longestChannel (box : ColorBox) : Channel :=
  let rRange := rMax box - rMin box in
  let gRange := gMax box - gMin box in
  let bRange := bMax box - bMin box in
  if (gRange >=? rRange) && (gRange >=? bRange) then chG
  else if (bRange >=? rRange) && (bRange >=? gRange) then chB
  else chR.

(** The scan for the weighted median: the first index at which the
    cumulative count reaches half of the total, [0] when none does. *)
Fixpoint medianScan (sortedData : list DataPoint) (i : nat)
    (cumulative half : num) : nat :=
  match sortedData with
  | [] => O
  | p :: ps =>
      let cumulative' := cumulative + count p in
      if cumulative' >=? half then i
      else medianScan ps (S i) cumulative' half
  end.

Definition splitBox (box : ColorBox) : ColorBox * ColorBox :=
  let ch := longestChannel box in
  let sortedData := sort (fun a b => channel ch a - channel ch b) (data box) in
  let totalCount := sumNum (map count sortedData) in
  let medianIndex := medianScan sortedData 0 (ofZ 0) (totalCount / ofZ 2) in
  let medianIndex := if (medianIndex =? 0)%nat then 1%nat else medianIndex in
  let leftData := sliceTo medianIndex sortedData in
  let rightData := sliceFrom medianIndex sortedData in
  (createColorBox leftData, createColorBox rightData).

Definition computeAverageColor (data : list DataPoint) : Color :=
  let '(sumR, sumG, sumB, total) :=
    fold_left
      (fun '(sumR, sumG, sumB, total) (p : DataPoint) =>
         (sumR + r p * count p, sumG + g p * count p,
          sumB + b p * count p, total + count p))
      data (ofZ 0, ofZ 0, ofZ 0, ofZ 0) in
  mkColor (round (sumR / total)) (round (sumG / total)) (round (sumB / total)).

Definition boxRange (box : ColorBox) : num :=
  maxList [rMax box - rMin box; gMax box - gMin box; bMax box - bMin box].

(** The scan for the box to split: the first box of largest range;
    [None] is the index [-1]. *)
Fixpoint selectBox (boxes : list ColorBox) (i : nat)
    (boxToSplitIndex : option nat) (maxRange : num) : option nat :=
  match boxes with
  | [] => boxToSplitIndex
  | box :: rest =>
      let range := boxRange box in
      if range >? maxRange then selectBox rest (S i) (Some i) range
      else selectBox rest (S i) boxToSplitIndex maxRange
  end.

(** One pass of the loop of [medianCutQuantize]: the boxes after the
    split, or [None] when the pass leaves the loop by [break]. *)
Definition cutStep (boxes : list ColorBox) : option (list ColorBox) :=
  match selectBox boxes 0 None NInf with
  | None => None
  | Some boxToSplitIndex =>
      match nth_error boxes boxToSplitIndex with
      | None => None
      | Some boxToSplit =>
          if (length (data boxToSplit) <=? 1)%nat then None
          else
            let '(box1, box2) := splitBox boxToSplit in
            Some (splice1 boxToSplitIndex box1 box2 boxes)
      end
  end.

(** The loop [while (boxes.length < paletteSize)]; each pass adds one box,
    so [fuel] passes are enough when [fuel >= paletteSize]. *)
Fixpoint cutLoop (fuel : nat) (boxes : list ColorBox) (paletteSize : Z)
    : list ColorBox :=
  match fuel with
  | O => boxes
  | S fuel' =>
      if (Z.of_nat (length boxes) <? paletteSize)%Z then
        match cutStep boxes with
        | Some boxes' => cutLoop fuel' boxes' paletteSize
        | None => boxes
        end
      else boxes
  end.

Definition medianCutQuantize (data : list DataPoint) (paletteSize : Z)
    : list Color :=
  if (length data =? 0)%nat then []
  else
    let boxes := cutLoop (Z.to_nat paletteSize) [createColorBox data] paletteSize in
    map (fun box => computeAverageColor (Processing.data box)) boxes.

Definition getSaturation (color : Color) : num :=
  let max := maxList [r color; g color; b color] in
  let min := minList [r color; g color; b color] in
  if max =? ofZ 0 then ofZ 0 else (max - min) / max.

(** *** Palette *)

(** The pass over the pixels that counts the colours, keyed by
    ["r,g,b"]; the channels are not checked for [undefined] here. *)
Definition countColors (pixels : list Z) : ColorCounts :=
  fold_left
    (fun colorCounts i =>
       let r := nth_error pixels i in
       let g := nth_error pixels (i + 1) in
       let b := nth_error pixels (i + 2) in
       let key := (showElem r ++ "," ++ showElem g ++ "," ++ showElem b)%string in
       mapSet colorCounts key (countOf colorCounts key + ofZ 1))
    (pixelIndices (length pixels)) [].

Definition saturationFactor : num := ofZ 1.

(** One entry as a data point of boosted weight; only the first three
    parts of the key are looked at. *)
Definition parseBoosted (entry : string * num) : option DataPoint :=
  let '(key, count) := entry in
  match map parseInt (split ","%char key) with
  | Some r :: Some g :: Some b :: _ =>
      let saturation := getSaturation (rgb r g b) in
      let effectiveCount := count * (ofZ 1 + saturationFactor * saturation) in
      Some (mkPoint (rgb r g b) effectiveCount)
  | _ => None
  end.

(** [None]: 'Failed to get canvas context' is thrown. *)
Definition extractColorPalette (canvas : Canvas) (paletteSize : Z)
    : option (list Color) :=
  match context2d canvas with
  | None => None
  | Some pixels =>
      let colorCounts := countColors pixels in
      let data := filterSome (map parseBoosted colorCounts) in
      if (length data =? 0)%nat then Some []
      else Some (medianCutQuantize data paletteSize)
  end.

(** *** Distinct palette *)

(** [Math.sqrt] is used for distances that are only compared with each
    other and with [Infinity] and [-Infinity].  A number [x] of this kind is
    kept as [sign(x) * x^2], on which [<] and [>] are those of [x]. *)
Record Dist : Type := mkDist { signedSquare : num }.

Definition Math_sqrt (x : num) : Dist :=
  mkDist (if x <? ofZ 0 then NaN else x).

Definition distLt (x y : Dist) : bool := signedSquare x <? signedSquare y.
Definition distGt (x y : Dist) : bool := distLt y x.

Definition colorDistance (c1 c2 : Color) : Dist :=
  let dr := r c1 - r c2 in
  let dg := g c1 - g c2 in
  let db := b c1 - b c2 in
  Math_sqrt (dr * dr + dg * dg + db * db).

(** The least distance from [candidate] to a selected colour. *)
Definition minDistanceTo (candidate : Color) (selected : list Color) : Dist :=
  fold_left
    (fun minDistance sel =>
       let distance := colorDistance candidate sel in
       if distLt distance minDistance then distance else minDistance)
    selected (mkDist PInf).

(** The scan for the candidate farthest from the selection: the first
    index of largest least distance; [None] is the index [-1]. *)
Fixpoint farthest (candidates selected : list Color) (i : nat)
    (candidateIndex : option nat) (maxMinDistance : Dist) : option nat :=
  match candidates with
  | [] => candidateIndex
  | candidate :: rest =>
      let minDistance := minDistanceTo candidate selected in
      if distGt minDistance maxMinDistance
      then farthest rest selected (S i) (Some i) minDistance
      else farthest rest selected (S i) candidateIndex maxMinDistance
  end.

(** The greedy loop; each pass removes one candidate, so [fuel] passes are
    enough when [fuel] is the number of candidates. *)
Fixpoint selectLoop (fuel : nat) (selected sortedCandidates : list Color)
    (distinctCount : Z) : list Color :=
  match fuel with
  | O => selected
  | S fuel' =>
      if (Z.of_nat (length selected) <? distinctCount)%Z
         && (0 <? length sortedCandidates)%nat then
        match farthest sortedCandidates selected 0 None (mkDist NInf) with
        | Some candidateIndex =>
            match nth_error sortedCandidates candidateIndex with
            | Some c =>
                selectLoop fuel' (selected ++ [c])
                  (removeAt candidateIndex sortedCandidates) distinctCount
            | None => selected
            end
        | None => selected
        end
      else selected
  end.

Definition bySaturationDesc (a b : Color) : num :=
  getSaturation b - getSaturation a.

(** The selection among the candidates.  [sortedCandidates.shift()] of an
    empty array is [undefined], which is stored as it is. *)
Definition selectDistinct (candidatePalette : list Color) (distinctCount : Z)
    : list (option Color) :=
  if (Z.of_nat (length candidatePalette) <=? distinctCount)%Z
  then map Some candidatePalette
  else
    match sort bySaturationDesc candidatePalette with
    | [] => [None]
    | first :: sortedCandidates =>
        map Some (selectLoop (length sortedCandidates) [first]
                    sortedCandidates distinctCount)
    end.

(** [candidateSizeFactor] is [None] when the argument is left out. *)
Definition extractDistinctColorPalette (canvas : Canvas) (distinctCount : Z)
    (candidateSizeFactor : option Z) : option (list (option Color)) :=
  let candidateSizeFactor :=
    match candidateSizeFactor with Some f => f | None => 2%Z end in
  let candidateCount := (distinctCount * candidateSizeFactor)%Z in
  match extractColorPalette canvas candidateCount with
  | None => None
  | Some candidatePalette => Some (selectDistinct candidatePalette distinctCount)
  end.

(** *** Block variance *)

Definition BLOCK_SIZE : Z := 16.

(** [Math.ceil(a / b)] for integers [a] and [b > 0]. *)
Definition ceilDiv (a b : Z) : Z := (- ((- a) / b))%Z.

(** The values [lo, lo + 1, ...] below [hi] of a counting loop. *)
Definition range (lo hi : Z) : list Z :=
  map (fun i => (lo + Z.of_nat i)%Z) (seq 0 (Z.to_nat (hi - lo))).

(** The channels of the pixel at [(x, y)], or [None] when the loop body
    skips it: [if (!r || !g || !b) continue], which [undefined] and [0]
    both trigger. *)
Definition countedPixel (pixels : list Z) (width x y : Z) : option (Z * Z * Z) :=
  let i := ((y * width + x) * 4)%Z in
  match at_ pixels i, at_ pixels (i + 1), at_ pixels (i + 2) with
  | Some r, Some g, Some b =>
      if ((r =? 0) || (g =? 0) || (b =? 0))%Z then None else Some (r, g, b)
  | _, _, _ => None
  end.

(** The nested loops [for y ... for x ...] over one block. *)
Definition overBlock (S : Type) (startX endX startY endY : Z)
    (body : Z -> Z -> S -> S) (s : S) : S :=
  fold_left
    (fun s y => fold_left (fun s x => body x y s) (range startX endX) s)
    (range startY endY) s.

(** The variance of one block, [None] when no pixel of it is counted. *)
Definition blockVariance (pixels : list Z) (width height blockX blockY : Z)
    : option Color :=
  let startX := (blockX * BLOCK_SIZE)%Z in
  let startY := (blockY * BLOCK_SIZE)%Z in
  let endX := Z.min (startX + BLOCK_SIZE) width in
  let endY := Z.min (startY + BLOCK_SIZE) height in
  let '(totalR, totalG, totalB, pixelCount) :=
    overBlock startX endX startY endY
      (fun x y '(totalR, totalG, totalB, pixelCount) =>
         match countedPixel pixels width x y with
         | None => (totalR, totalG, totalB, pixelCount)
         | Some (r, g, b) =>
             (totalR + r, totalG + g, totalB + b, pixelCount + 1)%Z
         end)
      (0, 0, 0, 0)%Z in
  if (pixelCount =? 0)%Z then None
  else
    let meanR := ofZ totalR / ofZ pixelCount in
    let meanG := ofZ totalG / ofZ pixelCount in
    let meanB := ofZ totalB / ofZ pixelCount in
    let '(varR, varG, varB) :=
      overBlock startX endX startY endY
        (fun x y '(varR, varG, varB) =>
           match countedPixel pixels width x y with
           | None => (varR, varG, varB)
           | Some (r, g, b) =>
               let diffR := ofZ r - meanR in
               let diffG := ofZ g - meanG in
               let diffB := ofZ b - meanB in
               (varR + diffR * diffR, varG + diffG * diffG, varB + diffB * diffB)
           end)
        (ofZ 0, ofZ 0, ofZ 0) in
    Some (mkColor (varR / ofZ pixelCount) (varG / ofZ pixelCount)
                  (varB / ofZ pixelCount)).

(** The variances of the blocks that have one, rows of blocks first. *)
Definition blockVariances (pixels : list Z) (width height : Z) : list Color :=
  let blocksX := ceilDiv width BLOCK_SIZE in
  let blocksY := ceilDiv height BLOCK_SIZE in
  fold_left
    (fun acc blockY =>
       fold_left
         (fun acc blockX =>
            match blockVariance pixels width height blockX blockY with
            | Some v => acc ++ [v]
            | None => acc
            end)
         (range 0 blocksX) acc)
    (range 0 blocksY) [].

Definition ascending (a b : num) : num := a - b.

(** [sorted[percentileIndex] || 0] *)
Definition valueAt (sorted : list num) (percentileIndex : num) : num :=
  match toIndex percentileIndex with
  | Some i =>
      match nth_error sorted i with
      | Some v => orElse v (ofZ 0)
      | None => ofZ 0
      end
  | None => ofZ 0
  end.

Definition calculateColorVariance (canvas : Canvas) : option Color :=
  match context2d canvas with
  | None => None
  | Some pixels =>
      let variances := blockVariances pixels (width canvas) (height canvas) in
      let sortedR := sort ascending (map r variances) in
      let sortedG := sort ascending (map g variances) in
      let sortedB := sort ascending (map b variances) in
      let percentileIndex := floor (ofNat (length variances) * Fin 0.75) in
      Some (mkColor (valueAt sortedR percentileIndex)
                    (valueAt sortedG percentileIndex)
                    (valueAt sortedB percentileIndex))
  end.

(** *** The analysis *)

Section Analysis.
Variable Math_pow : num -> num -> num.
Variable random : nat -> num.
(** The two constants of [~/constants/color]. *)
Variable DOMINANT_COLORS_COUNT : Z.
Variable PALETTE_COLORS_COUNT : Z.

Record Totals : Type := mkTotals {
  t_histogram : Histogram;
  t_colorCounts : ColorCounts;
  totalR : num; totalG : num; totalB : num;
  minBrightness : num; maxBrightness : num; totalBrightness : num
}.

Definition initialTotals : Totals :=
  mkTotals initializeHistogram [] (ofZ 0) (ofZ 0) (ofZ 0)
           (ofZ 1) (ofZ 0) (ofZ 0).

(** The body of the loop over the pixels, at index [i]. *)
Definition processPixel (pixels : list Z) (t : Totals) (i : nat) : Totals :=
  match nth_error pixels i, nth_error pixels (i + 1), nth_error pixels (i + 2) with
  | Some r, Some g, Some b =>
      let histogram := updateHistogram (t_histogram t) r g b in
      let colorKey :=
        (intToString r ++ "," ++ intToString g ++ "," ++ intToString b)%string in
      let colorCounts :=
        mapSet (t_colorCounts t) colorKey
               (countOf (t_colorCounts t) colorKey + ofZ 1) in
      let brightness := calculatePixelBrightness Math_pow (ofZ r) (ofZ g) (ofZ b) in
      mkTotals histogram colorCounts
               (totalR t + ofZ r) (totalG t + ofZ g) (totalB t + ofZ b)
               (min (minBrightness t) brightness)
               (max (maxBrightness t) brightness)
               (totalBrightness t + brightness)
  | _, _, _ => t
  end.

Definition liftOption (A : Type) (o : option A) : M A :=
  match o with
  | Some a => ret a
  | None => throw _
  end.

Definition analyzeImageColors (canvas : Canvas) : M VisualMetadata :=
  pixels <- liftOption (context2d canvas) ;;
  let t := fold_left (processPixel pixels) (pixelIndices (length pixels))
                     initialTotals in
  let totalPixels := ofNat (length pixels) / ofZ 4 in
  let histogram :=
    mkHistogram (hist_r (t_histogram t)) (hist_g (t_histogram t))
                (hist_b (t_histogram t)) totalPixels in
  let averageColor :=
    mkColor (round (totalR t / totalPixels)) (round (totalG t / totalPixels))
            (round (totalB t / totalPixels)) in
  dominantColors <-
    extractDominantColors random (t_colorCounts t) DOMINANT_COLORS_COUNT ;;
  representativePaletteColors <-
    liftOption (extractColorPalette canvas PALETTE_COLORS_COUNT) ;;
  distinctPaletteColors <-
    liftOption (extractDistinctColorPalette canvas PALETTE_COLORS_COUNT
                  (Some CANDIDATE_SIZE_FACTOR)) ;;
  let brightness :=
    mkBrightness (totalBrightness t / totalPixels)
                 (minBrightness t) (maxBrightness t) in
  colorVariance <- liftOption (calculateColorVariance canvas) ;;
  ret (mkVisualMetadata averageColor dominantColors representativePaletteColors
         distinctPaletteColors histogram brightness colorVariance).

End Analysis.

(** *** Helpers of the comparators *)

(** The elements of an array with their indices. *)
Definition indexed (A : Type) (l : list A) : list (nat * A) :=
  combine (seq 0 (length l)) l.

Record Hsl : Type := mkHsl { h : num; s : num; l : num }.

Definition rgbToHsl (color : Color) : Hsl :=
  let r := r color / ofZ 255 in
  let g := g color / ofZ 255 in
  let b := b color / ofZ 255 in
  let max := maxList [r; g; b] in
  let min := minList [r; g; b] in
  let l := (max + min) / ofZ 2 in
  if negb (max =? min) then
    let d := max - min in
    let s := if l >? Fin 0.5 then d / (ofZ 2 - max - min) else d / (max + min) in
    let h :=
      if max =? r then (g - b) / d + (if g <? b then ofZ 6 else ofZ 0)
      else if max =? g then (b - r) / d + ofZ 2
      else if max =? b then (r - g) / d + ofZ 4
      else ofZ 0 in
    mkHsl (h / ofZ 6) s l
  else mkHsl (ofZ 0) (ofZ 0) l.

(** [threshold] is [None] when the argument is left out. *)
Definition isGrayscale (color : Color) (threshold : option num) : bool :=
  let threshold := match threshold with Some t => t | None => Fin 0.05 end in
  (abs (r color - g color) <? threshold * ofZ 255)
  && (abs (g color - b color) <? threshold * ofZ 255)
  && (abs (r color - b color) <? threshold * ofZ 255).

Definition getWeightedHue (colors : list Color) : num :=
  if (length colors =? 0)%nat then ofZ (-1)
  else
    let '(totalWeight, weightedHue, hasColorfulPixels) :=
      fold_left
        (fun '(totalWeight, weightedHue, hasColorfulPixels) '(i, color) =>
           if negb (isGrayscale color None) then
             let weight := ofZ 1 / (ofNat i + ofZ 1) in
             let hsl := rgbToHsl color in
             let effectiveWeight := weight * s hsl in
             (totalWeight + effectiveWeight,
              weightedHue + h hsl * effectiveWeight, true)
           else (totalWeight, weightedHue, hasColorfulPixels))
        (indexed colors) (ofZ 0, ofZ 0, false) in
    if negb hasColorfulPixels || (totalWeight =? ofZ 0) then ofZ (-1)
    else weightedHue / totalWeight.

Section WeightedBrightness.
Variable Math_pow : num -> num -> num.

Definition getWeightedBrightness (colors : option (list Color)) : num :=
  match colors with
  | None => ofZ 0
  | Some colors =>
      if (length colors =? 0)%nat then ofZ 0
      else
        fold_left
          (fun sum '(index, color) =>
             let weight := ofZ 1 / (ofNat index + ofZ 1) in
             sum + calculatePixelBrightness Math_pow (r color) (g color) (b color)
                   * weight)
          (indexed colors) (ofZ 0)
        / fold_left (fun sum '(index, _) => sum + ofZ 1 / (ofNat index + ofZ 1))
                    (indexed colors) (ofZ 0)
  end.

End WeightedBrightness.

(** *** Sorting colours and channel statistics *)





End Processing.

(* ===================================================================== *)
(** ** [src/color/sorting.ts] *)
(* ===================================================================== *)

Module Sorting.

Import Processing.
Local Open Scope num_scope.

(** [VisualMetadata] as the comparators read it: a field may be absent. *)
Record VisualMetadata : Type := mkVisualMetadata {
  averageColor : option Color;
  dominantColors : option (list Color);
  representativePaletteColors : option (list Color);
  distinctPaletteColors : option (list Color);
  histogram : option Histogram;
  brightness : option Brightness;
  colorVariance : option Color
}.

Definition getAverageColor (imageMetadata : VisualMetadata) : Color :=
  match averageColor imageMetadata with
  | Some c => c
  | None => rgb 0 0 0
  end.

Section Comparators.
Variable Math_pow : num -> num -> num.

(** [getWeightedBrightness(m.dominantColors)] when the colours are there,
    and [fallback m] for the other arm of the conditional. *)
Definition brightnessOr (fallback : VisualMetadata -> num)
    (m : VisualMetadata) : num :=
  match dominantColors m with
  | Some colors => getWeightedBrightness Math_pow (Some colors)
  | None => fallback m
  end.

(** The arm of [compareByLuminance] on the average colour. *)
Definition averageColorBrightness (m : VisualMetadata) : num :=
  calculatePixelBrightness Math_pow (r (getAverageColor m))
    (g (getAverageColor m)) (b (getAverageColor m)).

(** [compareByLuminance] with the arm of the conditional that is taken
    without dominant colours as a parameter. *)
Definition compareByLuminanceWith (fallback : VisualMetadata -> num)
    (a b : VisualMetadata) : num :=
  match dominantColors a, dominantColors b with
  | Some _, Some _ =>
      let aBrightness := brightnessOr fallback a in
      let bBrightness := brightnessOr fallback b in
      bBrightness - aBrightness
  | _, _ => ofZ 0
  end.

Definition compareByLuminance (a b : VisualMetadata) : num :=
  compareByLuminanceWith averageColorBrightness a b.

(** [m.dominantColors || [getAverageColor(m)]] *)
Definition colorsOrAverage (m : VisualMetadata) : list Color :=
  match dominantColors m with
  | Some colors => colors
  | None => [getAverageColor m]
  end.

Definition compareByHue (a b : VisualMetadata) : num :=
  match dominantColors a, dominantColors b with
  | Some _, Some _ =>
      let aHue := getWeightedHue (colorsOrAverage a) in
      let bHue := getWeightedHue (colorsOrAverage b) in
      if (aHue =? ofZ (-1)) && (bHue =? ofZ (-1)) then compareByLuminance a b
      else if aHue =? ofZ (-1) then ofZ 1
      else if bHue =? ofZ (-1) then ofZ (-1)
      else aHue - bHue
  | _, _ => ofZ 0
  end.

(** The weighted saturation of the colours and whether the image counts
    as grayscale. *)
Definition getWeightedSaturation (colors : list Color) : num * bool :=
  let '(totalWeight, weightedSum, isImageGrayscale) :=
    fold_left
      (fun '(totalWeight, weightedSum, isImageGrayscale) '(i, color) =>
         let weight := ofZ 1 / (ofNat i + ofZ 1) in
         let hsl := rgbToHsl color in
         let maxDiff :=
           maxList [abs (r color - g color); abs (g color - b color);
                    abs (r color - b color)] in
         let isColorGrayscale := maxDiff <? ofZ 8 in
         let isImageGrayscale :=
           if negb isColorGrayscale && (weight >? Fin 0.2) then false
           else isImageGrayscale in
         let effectiveSaturation := if isColorGrayscale then ofZ 0 else s hsl in
         (totalWeight + weight, weightedSum + effectiveSaturation * weight,
          isImageGrayscale))
      (indexed colors) (ofZ 0, ofZ 0, true) in
  (weightedSum / totalWeight, isImageGrayscale).

Definition compareBySaturation (a b : VisualMetadata) : num :=
  match dominantColors a, dominantColors b with
  | Some _, Some _ =>
      let aResult := getWeightedSaturation (colorsOrAverage a) in
      let bResult := getWeightedSaturation (colorsOrAverage b) in
      if snd aResult && negb (snd bResult) then ofZ 1
      else if negb (snd aResult) && snd bResult then ofZ (-1)
      else if snd aResult && snd bResult then compareByLuminance a b
      else fst bResult - fst aResult
  | _, _ => ofZ 0
  end.

Definition getColorTemperature (colors : list Color) : num :=
  fold_left
    (fun sum '(i, color) =>
       let weight := ofZ 1 / (ofNat i + ofZ 1) in
       let warmth := (r color - b color) / ofZ 255 in
       sum + warmth * weight)
    (indexed colors) (ofZ 0)
  / fold_left (fun sum '(i, _) => sum + ofZ 1 / (ofNat i + ofZ 1))
              (indexed colors) (ofZ 0).

Definition compareByColorTemperature (a b : VisualMetadata) : num :=
  match dominantColors a, dominantColors b with
  | Some _, Some _ =>
      getColorTemperature (colorsOrAverage b)
      - getColorTemperature (colorsOrAverage a)
  | _, _ => ofZ 0
  end.

(** [m.dominantColors?.[0] || getAverageColor(m)] and the like: an
    object is truthy, so the fallback is taken only without a first
    element. *)
Definition getDominantColor (imageMetadata : VisualMetadata) : Color :=
  match dominantColors imageMetadata with
  | Some (c :: _) => c
  | _ => getAverageColor imageMetadata
  end.

Definition getRepresentativeColor (imageMetadata : VisualMetadata) : Color :=
  match representativePaletteColors imageMetadata with
  | Some (c :: _) => c
  | _ => getAverageColor imageMetadata
  end.

Definition getHistogram (imageMetadata : VisualMetadata) : option Histogram :=
  histogram imageMetadata.

(** **** [compareByColorRange] *)

(** The extent between the darkest and the brightest significant bin. *)
Definition getChannelRange (significantThreshold : num)
    (bins : list HistogramBin) : num :=
  let '(darkest, brightest) :=
    fold_left
      (fun '(darkest, brightest) bin =>
         if ofZ (bin_count bin) >=? significantThreshold
         then (min darkest (ofZ (bin_value bin)),
               max brightest (ofZ (bin_value bin)))
         else (darkest, brightest))
      bins (ofZ 255, ofZ 0) in
  brightest - darkest.

Definition getColorRangeScore (hist : Histogram) : num :=
  let significantThreshold := totalPixels hist * Fin 0.005 in
  let rRange := getChannelRange significantThreshold (hist_r hist) in
  let gRange := getChannelRange significantThreshold (hist_g hist) in
  let bRange := getChannelRange significantThreshold (hist_b hist) in
  rRange * Fin 0.299 + gRange * Fin 0.587 + bRange * Fin 0.114.

(** [a || b || [c]] on arrays that may be absent. *)
Definition firstPresent (a b : option (list Color)) (c : Color) : list Color :=
  match a, b with
  | Some colors, _ => colors
  | None, Some colors => colors
  | None, None => [c]
  end.

Definition getPaletteRange (colors : list Color) : num :=
  if (length colors <=? 1)%nat then ofZ 0
  else
    let brightnesses :=
      map (fun color => calculatePixelBrightness Math_pow (r color) (g color)
                          (b color)) colors in
    let minBrightness := minList brightnesses in
    let maxBrightness := maxList brightnesses in
    maxBrightness - minBrightness.

Definition compareByColorRange (a b : VisualMetadata) : num :=
  match getHistogram a, getHistogram b with
  | Some aHist, Some bHist => getColorRangeScore bHist - getColorRangeScore aHist
  | _, _ =>
      let aColors :=
        firstPresent (distinctPaletteColors a) (dominantColors a)
          (getAverageColor a) in
      let bColors :=
        firstPresent (distinctPaletteColors b) (dominantColors b)
          (getAverageColor b) in
      getPaletteRange bColors - getPaletteRange aColors
  end.

(** **** [compareByDarkColors] and [compareByBrightColors] *)

(** [getColorScore] of [processing.ts] goes through [Math.cos],
    [Math.sin], [Math.atan2] and [Math.exp]; it is a parameter here, applied
    to the colours and to the weights of saturation, lightness and hue. *)
Variable getColorScore : list Color -> num -> num -> num -> num.

(** [bins.reduce((sum, bin, i) => sum + bin.count * weight(i), 0)] *)
Definition weightedCount (weight : nat -> num) (bins : list HistogramBin) : num :=
  fold_left (fun sum '(i, bin) => sum + ofZ (bin_count bin) * weight i)
            (indexed bins) (ofZ 0).

Definition getDarknessScore (hist : Histogram) : num :=
  let darkBinCount := (length (hist_r hist) / 4)%nat in
  let weight := fun i => ofZ 1 - ofNat i / ofNat darkBinCount in
  let rDark := weightedCount weight (sliceTo darkBinCount (hist_r hist)) in
  let gDark := weightedCount weight (sliceTo darkBinCount (hist_g hist)) in
  let bDark := weightedCount weight (sliceTo darkBinCount (hist_b hist)) in
  (rDark * Fin 0.299 + gDark * Fin 0.587 + bDark * Fin 0.114)
  / totalPixels hist.

Definition compareByDarkColors (a b : VisualMetadata) : num :=
  match getHistogram a, getHistogram b with
  | Some aHist, Some bHist => getDarknessScore bHist - getDarknessScore aHist
  | _, _ =>
      let aColors := colorsOrAverage a in
      let bColors := colorsOrAverage b in
      let getDarknessFromColors := fun colors =>
        getColorScore colors (Fin 0.5) (ofZ 2) (Fin 0.5) in
      ofZ 1 - getDarknessFromColors bColors
      - (ofZ 1 - getDarknessFromColors aColors)
  end.

Definition getBrightnessScore (hist : Histogram) : num :=
  let brightBinStart := (3 * length (hist_r hist) / 4)%nat in
  let weight := fun (bins : list HistogramBin) i =>
    (ofNat i + ofZ 1) / (ofNat (length bins) - ofNat brightBinStart) in
  let rBright :=
    weightedCount (weight (hist_r hist)) (sliceFrom brightBinStart (hist_r hist)) in
  let gBright :=
    weightedCount (weight (hist_g hist)) (sliceFrom brightBinStart (hist_g hist)) in
  let bBright :=
    weightedCount (weight (hist_b hist)) (sliceFrom brightBinStart (hist_b hist)) in
  (rBright * Fin 0.299 + gBright * Fin 0.587 + bBright * Fin 0.114)
  / totalPixels hist.

Definition compareByBrightColors (a b : VisualMetadata) : num :=
  match getHistogram a, getHistogram b with
  | Some aHist, Some bHist => getBrightnessScore bHist - getBrightnessScore aHist
  | _, _ =>
      let aColors := colorsOrAverage a in
      let bColors := colorsOrAverage b in
      let getBrightnessFromColors := fun colors =>
        getColorScore colors (Fin 0.5) (ofZ 2) (Fin 0.5) in
      getBrightnessFromColors bColors - getBrightnessFromColors aColors
  end.

(** **** [compareByColorDiversity] *)

(** [getPerceptualColorDifference] of [processing.ts] goes through
    [Math.sqrt] and cube roots; it is a parameter here. *)
Variable getPerceptualColorDifference : Color -> Color -> num.

(** The pairs [(colors[i], colors[j])] with [i < j], in the order of the
    two loops. *)
Fixpoint pairsOf (colors : list Color) : list (Color * Color) :=
  match colors with
  | [] => []
  | c :: rest => map (fun d => (c, d)) rest ++ pairsOf rest
  end.

Definition getDiversityScore (colors : list Color) : num :=
  if (length colors <=? 1)%nat then ofZ 0
  else
    let '(totalDiff, count) :=
      fold_left
        (fun '(totalDiff, count) '(ci, cj) =>
           (totalDiff + getPerceptualColorDifference ci cj, count + ofZ 1))
        (pairsOf colors) (ofZ 0, ofZ 0) in
    if count >? ofZ 0 then totalDiff / count else ofZ 0.

Definition compareByColorDiversity (a b : VisualMetadata) : num :=
  let aColors :=
    firstPresent (distinctPaletteColors a) (representativePaletteColors a)
      (getAverageColor a) in
  let bColors :=
    firstPresent (distinctPaletteColors b) (representativePaletteColors b)
      (getAverageColor b) in
  getDiversityScore bColors - getDiversityScore aColors.

End Comparators.

End Sorting.

(* ===================================================================== *)
(** ** Notions of the specification *)
(* ===================================================================== *)

Module Spec.

Import Processing.

(** [Math.random] returns a number in [[0, 1)]. *)
Definition validRandom (random : nat -> num) : Prop :=
  forall i : nat, exists q : Q, random i = Fin q /\ (0 <= q < 1)%Q.

(** The sum of the bin counts of one channel of a histogram. *)
Definition sumCounts (bins : list HistogramBin) : Z :=
  fold_right (fun bin acc => (bin_count bin + acc)%Z) 0%Z bins.

(** The three channels of a histogram have 32 bins each, whose counts sum
    to [m]. *)
Definition histogramOf (m : Z) (h : Histogram) : Prop :=
  length (hist_r h) = 32%nat /\ length (hist_g h) = 32%nat
  /\ length (hist_b h) = 32%nat
  /\ sumCounts (hist_r h) = m /\ sumCounts (hist_g h) = m
  /\ sumCounts (hist_b h) = m.

(** The values of a [Uint8ClampedArray]. *)
Definition isByte (v : Z) : Prop := (0 <= v <= 255)%Z.

(** Colours, data points and sums without [NaN] or an infinity. *)
Definition finColor (c : Color) : Prop := isFin (r c) /\ isFin (g c) /\ isFin (b c).
Definition finPoint (d : DataPoint) : Prop := finColor d /\ isFin (count d).
Definition finSums (s : Sums) : Prop :=
  isFin (sumR s) /\ isFin (sumG s) /\ isFin (sumB s) /\ isFin (weight s).

(** A centroid taken from the data. *)
Definition fromData (points : list DataPoint) (c : Centroid) : Prop :=
  exists d, In d points /\ c = point d.

(** A string of decimal digits only. *)
Fixpoint allDigits (s : string) : bool :=
  match s with
  | EmptyString => true
  | String c s' => match digitOf c with Some _ => allDigits s' | None => false end
  end.

(** A string without a comma. *)
Fixpoint noComma (s : string) : bool :=
  match s with
  | EmptyString => true
  | String c s' => negb (Ascii.eqb c ","%char) && noComma s'
  end.

(** A value read from the pixels: a byte or [undefined]. *)
Definition byteOrUndefined (v : option Z) : Prop :=
  match v with
  | Some x => (0 <= x <= 255)%Z
  | None => True
  end.

(** An entry of the map that counts the colours of a buffer of bytes: a
    count of one or more, under the key of three values read from it. *)
Definition countedEntry (e : string * num) : Prop :=
  (exists q : Q, snd e = Fin q /\ (1 <= q)%Q)
  /\ exists x y z : option Z,
       byteOrUndefined x /\ byteOrUndefined y /\ byteOrUndefined z
       /\ fst e = (showElem x ++ "," ++ showElem y ++ "," ++ showElem z)%string.



(** The key of a colour in the colour map: ["r,g,b"]. *)
Definition colorKey (x y z : Z) : string :=
  (intToString x ++ "," ++ intToString y ++ "," ++ intToString z)%string.

(** An entry of the colour map for the colour [(x, y, z)] seen [c] times,
    the colour it stands for, and the condition that it is a colour of a
    pixel. *)
Definition entryOf (e : Z * Z * Z * num) : string * num :=
  let '(x, y, z, c) := e in (colorKey x y z, c).


Definition byteEntry (e : Z * Z * Z * num) : Prop :=
  let '(x, y, z, _) := e in
  (0 <= x <= 255)%Z /\ (0 <= y <= 255)%Z /\ (0 <= z <= 255)%Z.

(** [heavier v w]: the finite weight [v] is at least the finite weight [w]. *)
Definition heavier (v w : num) : Prop :=
  exists p q : Q, v = Fin p /\ w = Fin q /\ (q <= p)%Q.

(** A channel rounded to the nearest integer and clamped to [[0, 255]]. *)
Definition clampRound (q : Q) : Z :=
  Z.min 255 (Z.max 0 (Qfloor (q + (1 # 2)))).


(** **** The selection of distinct colours, in the words of the
    specification *)


(** [m] is the least of the Euclidean distances from [c] to the colours
    already selected. *)
Definition isMinDistance (c : Color) (selected : list Color) (m : Dist) : Prop :=
  (exists s, In s selected /\ m = colorDistance c s)
  /\ forall s, In s selected -> distLt (colorDistance c s) m = false.

(** The candidate [c], at index [i] of the remaining ones, is the one to
    add: no candidate has a larger least distance to the selection, and
    those before it have a smaller one. *)
Definition isFarthestFirst (selected remaining : list Color) (i : nat)
    (c : Color) : Prop :=
  nth_error remaining i = Some c
  /\ exists m, isMinDistance c selected m
       /\ forall j c' m',
            nth_error remaining j = Some c' -> isMinDistance c' selected m' ->
            distLt m m' = false /\ ((j < i)%nat -> distLt m' m = true).

(** [Greedy distinctCount selected remaining result]: adding the farthest
    candidate again and again, until [distinctCount] colours are selected
    or no candidate remains, leads from [selected] to [result]. *)
Inductive Greedy (distinctCount : Z)
  : list Color -> list Color -> list Color -> Prop :=
| Greedy_stop (selected remaining : list Color) :
    (distinctCount <= Z.of_nat (length selected))%Z \/ remaining = [] ->
    Greedy distinctCount selected remaining selected
| Greedy_step (selected remaining : list Color) (i : nat) (c : Color)
              (result : list Color) :
    (Z.of_nat (length selected) < distinctCount)%Z ->
    isFarthestFirst selected remaining i c ->
    Greedy distinctCount (selected ++ [c]) (removeAt i remaining) result ->
    Greedy distinctCount selected remaining result.

(** A distance that is a finite number. *)
Definition finDist (d : Dist) : Prop := isFin (signedSquare d).

(** What the scan for the farthest candidate holds after the candidates
    [seen]: the index of the first of them with the largest least distance,
    and that distance. *)
Definition bestSoFar (selected seen : list Color) (acc : option nat)
    (M : Dist) : Prop :=
  match acc with
  | None => seen = [] /\ M = mkDist NInf
  | Some j =>
      exists c, nth_error seen j = Some c /\ M = minDistanceTo c selected
        /\ forall j' c', nth_error seen j' = Some c' ->
             distLt M (minDistanceTo c' selected) = false
             /\ ((j' < j)%nat -> distLt (minDistanceTo c' selected) M = true)
  end.

(** **** The block variance, in the words of the specification *)

(** The channels of the pixel at [(x, y)] of a row-major RGBA buffer. *)
Definition pixelAt (pixels : list Z) (width x y : Z) : option (Z * Z * Z) :=
  let i := ((y * width + x) * 4)%Z in
  match at_ pixels i, at_ pixels (i + 1), at_ pixels (i + 2) with
  | Some r, Some g, Some b => Some (r, g, b)
  | _, _, _ => None
  end.

(** A pixel is counted when none of its channels is zero. *)
Definition isCounted (p : Z * Z * Z) : bool :=
  let '(r, g, b) := p in
  negb (r =? 0)%Z && negb (g =? 0)%Z && negb (b =? 0)%Z.

(** The tiles of 16 by 16 pixels that cover the image, rows of tiles
    first, and the coordinates of a tile, cut at the bounds of the image. *)
Definition tiles (width height : Z) : list (Z * Z) :=
  flat_map (fun ty => map (fun tx => (tx, ty)) (range 0 ((width + 15) / 16)))
           (range 0 ((height + 15) / 16)).

Definition tileCoords (width height tx ty : Z) : list (Z * Z) :=
  flat_map
    (fun y => map (fun x => (x, y)) (range (16 * tx) (Z.min (16 * tx + 16) width)))
    (range (16 * ty) (Z.min (16 * ty + 16) height)).

(** The counted pixels of a tile. *)
Definition countedPixels (pixels : list Z) (width height tx ty : Z)
    : list (Z * Z * Z) :=
  filterSome
    (map (fun xy => match pixelAt pixels width (fst xy) (snd xy) with
                    | Some p => if isCounted p then Some p else None
                    | None => None
                    end)
         (tileCoords width height tx ty)).

Definition sumZ (vs : list Z) : Z := fold_left Z.add vs 0%Z.

Definition mean (vs : list Z) : num :=
  (ofZ (sumZ vs) / ofZ (Z.of_nat (length vs)))%num.

(** The population variance: the mean of the squared differences to the
    mean. *)
Definition populationVariance (vs : list Z) : num :=
  (sumNum (map (fun v => (ofZ v - mean vs) * (ofZ v - mean vs)) vs)
   / ofZ (Z.of_nat (length vs)))%num.

Definition red (p : Z * Z * Z) : Z := fst (fst p).
Definition green (p : Z * Z * Z) : Z := snd (fst p).
Definition blue (p : Z * Z * Z) : Z := snd p.

(** The variance of a tile in each channel, for a tile with a counted
    pixel. *)
Definition tileVariance (pixels : list Z) (width height : Z) (t : Z * Z)
    : option Color :=
  match countedPixels pixels width height (fst t) (snd t) with
  | [] => None
  | ps => Some (mkColor (populationVariance (map red ps))
                        (populationVariance (map green ps))
                        (populationVariance (map blue ps)))
  end.

Definition tileVariances (pixels : list Z) (width height : Z) : list Color :=
  filterSome (map (tileVariance pixels width height) (tiles width height)).

(** [atMost v w]: the finite number [v] is at most the finite number [w]. *)
Definition atMost (v w : num) : Prop := heavier w v.


End Spec.

Import Spec.

(* ===================================================================== *)
(** ** Measures of a pixel buffer *)
(* ===================================================================== *)

Module Measures.

Import Processing.

(** The colour of the pixel that starts at index [i] of the buffer. *)
Definition colorAt (pixels : list Z) (i : nat) : Z * Z * Z :=
  (nth i pixels 0%Z, nth (i + 1) pixels 0%Z, nth (i + 2) pixels 0%Z).

(** The colours of the pixels of a buffer, in order. *)
Definition pixelColors (pixels : list Z) : list (Z * Z * Z) :=
  map (colorAt pixels) (pixelIndices (length pixels)).

Definition sameColor (c d : Z * Z * Z) : bool :=
  ((fst (fst c) =? fst (fst d)) && (snd (fst c) =? snd (fst d))
   && (snd c =? snd d))%Z.

(** The number of pixels of the colour [c]. *)
Definition timesSeen (c : Z * Z * Z) (pixels : list Z) : nat :=
  length (filter (sameColor c) (pixelColors pixels)).

(** The colours of a list, each once, in the order in which they first
    appear. *)
Definition firstSeen (colors : list (Z * Z * Z)) : list (Z * Z * Z) :=
  fold_left
    (fun seen c => if existsb (sameColor c) seen then seen else seen ++ [c])
    colors [].

(** The distinct colours of the pixels, in the order of first appearance,
    and the same with the number of pixels of each. *)
Definition distinctColors (pixels : list Z) : list (Z * Z * Z) :=
  firstSeen (pixelColors pixels).

Definition colorTally (pixels : list Z) : list (Z * Z * Z * num) :=
  map (fun c => (c, ofNat (timesSeen c pixels))) (distinctColors pixels).

(** The bin of index [i] holds the values from [8 * i] to [8 * i + 7]. *)
Definition inBin (i : nat) (v : Z) : bool :=
  ((8 * Z.of_nat i <=? v) && (v <? 8 * Z.of_nat i + 8))%Z.

(** The number of colours whose channel [ch] falls in the bin of index [i]. *)
Definition colorsInBin (ch : Z * Z * Z -> Z) (i : nat)
    (colors : list (Z * Z * Z)) : Z :=
  Z.of_nat (length (filter (fun c => inBin i (ch c)) colors)).

(** The number of pixels whose channel [ch] falls in the bin of index [i]. *)
Definition pixelsInBin (ch : Z * Z * Z -> Z) (i : nat) (pixels : list Z) : Z :=
  colorsInBin ch i (pixelColors pixels).

(** The 32 bins of the channel [ch] of the colours [colors]: the bin of
    index [i] has the value [8 * i] and counts the colours that fall in it. *)
Definition binsOf (ch : Z * Z * Z -> Z) (colors : list (Z * Z * Z))
    (bins : list HistogramBin) : Prop :=
  length bins = 32%nat
  /\ forall i : nat, (i < 32)%nat ->
       nth_error bins i = Some (mkBin (colorsInBin ch i colors) (8 * Z.of_nat i)).

(** The sum of a channel over the pixels. *)
Definition channelSum (ch : Z * Z * Z -> Z) (pixels : list Z) : Z :=
  sumZ (map ch (pixelColors pixels)).

(** [Math.round(s / n)] for integers [s] and [n > 0]. *)
Definition roundDiv (s n : Z) : Z := ((2 * s + n) / (2 * n))%Z.

(** The map after counting a list of keys one by one. *)
Definition countKeys (keys : list string) (m : ColorCounts) : ColorCounts :=
  fold_left (fun m k => mapSet m k (countOf m k + ofZ 1)%num) keys m.

(** The map [m] counts the keys [seen]: no key twice, and under each key
    the number of times it was seen. *)
Definition countsOf (seen : list string) (m : ColorCounts) : Prop :=
  NoDup (map fst m)
  /\ forall k : string,
       match mapGet m k with
       | Some v =>
           (v == ofNat (count_occ string_dec seen k))%num
           /\ (0 < count_occ string_dec seen k)%nat
       | None => count_occ string_dec seen k = 0%nat
       end.

(** [v] is the least, or the greatest, value of [f] over the points: the
    value of a point, and a finite bound of all of them. *)
Definition isLeast (A : Type) (f : A -> num) (points : list A) (v : num)
    : Prop :=
  (exists p, In p points /\ f p = v) /\ Forall (fun p => atMost v (f p)) points.

Definition isGreatest (A : Type) (f : A -> num) (points : list A) (v : num)
    : Prop :=
  (exists p, In p points /\ f p = v) /\ Forall (fun p => atMost (f p) v) points.

(** A box whose bounds are the least and the greatest channels of its
    points. *)
Definition tightBox (box : ColorBox) : Prop :=
  isLeast (channel chR) (data box) (rMin box)
  /\ isGreatest (channel chR) (data box) (rMax box)
  /\ isLeast (channel chG) (data box) (gMin box)
  /\ isGreatest (channel chG) (data box) (gMax box)
  /\ isLeast (channel chB) (data box) (bMin box)
  /\ isGreatest (channel chB) (data box) (bMax box).

(** The extent of a box along a channel. *)
Definition extent (ch : Channel) (box : ColorBox) : num :=
  match ch with
  | chR => rMax box - rMin box
  | chG => gMax box - gMin box
  | chB => bMax box - bMin box
  end.

(** A colour whose channels are integers in [[0, 255]]. *)
Definition byteColor (c : Color) : Prop :=
  exists x y z : Z, isByte x /\ isByte y /\ isByte z /\ c = rgb x y z.

(** A data point of such a colour, of positive finite weight. *)
Definition bytePoint (d : DataPoint) : Prop :=
  byteColor d /\ exists q : Q, count d = Fin q /\ (0 < q)%Q.

(** A box as the median cut builds it from points of pairwise distinct
    colours: it holds a point at least, its bounds are those of
    [createColorBox], and no two of its points have the same colour. *)
Definition distinctBox (box : ColorBox) : Prop :=
  data box <> []
  /\ box = createColorBox (data box)
  /\ Forall (fun p : DataPoint => byteColor p) (data box)
  /\ NoDup (map point (data box)).

(** A finite number that is not negative, and one that is zero. *)
Definition nonNegative (v : num) : Prop := exists q : Q, v = Fin q /\ (0 <= q)%Q.

Definition isZero (v : num) : Prop := exists q : Q, v = Fin q /\ (q == 0)%Q.

(** A colour whose channels are finite numbers in [[0, 255]]. *)
Definition inGamut (c : Color) : Prop :=
  exists p q t : Q,
    c = mkColor (Fin p) (Fin q) (Fin t)
    /\ (0 <= p <= 255)%Q /\ (0 <= q <= 255)%Q /\ (0 <= t <= 255)%Q.


(** A finite number in [[0, 1]]. *)
Definition inUnit (v : num) : Prop := exists q : Q, v = Fin q /\ (0 <= q <= 1)%Q.

(** What the brightness needs of [Math.pow]: with the exponent [2.4] it
    maps [[0, 1]] into [[0, 1]]. *)
Definition unitPow (Math_pow : num -> num -> num) : Prop :=
  forall x : Q, (0 <= x <= 1)%Q -> inUnit (Math_pow (Fin x) (Fin 2.4)).






End Measures.

Import Measures.

(* ===================================================================== *)
(** ** Properties *)
(* ===================================================================== *)

Import Processing.

(** *** Comparisons of finite numbers *)

Lemma lt_Fin (a b : Q) : lt (Fin a) (Fin b) = true <-> (a < b)%Q.
Proof.
  unfold lt. rewrite Qlt_alt. destruct (a ?= b)%Q; split; congruence.
Qed.

Lemma lt_Fin_false (a b : Q) : lt (Fin a) (Fin b) = false <-> (b <= a)%Q.
Proof.
  rewrite <- not_true_iff_false, lt_Fin. split.
  - apply Qnot_lt_le.
  - apply Qle_not_lt.
Qed.

Lemma eq_Fin (a b : Q) : eq (Fin a) (Fin b) = true <-> (a == b)%Q.
Proof. apply Qeq_bool_iff. Qed.

Lemma le_Fin (a b : Q) : le (Fin a) (Fin b) = true <-> (a <= b)%Q.
Proof.
  unfold le. rewrite orb_true_iff, lt_Fin, eq_Fin. split.
  - intros [H | H]; [apply Qlt_le_weak; exact H | rewrite H; apply Qle_refl].
  - intros H. destruct (Qlt_le_dec a b) as [L | G]; [left; exact L | right].
    apply Qle_antisym; assumption.
Qed.

Lemma Qeq_bool_false (a b : Q) : Qeq_bool a b = false <-> ~ (a == b)%Q.
Proof.
  rewrite <- not_true_iff_false, Qeq_bool_iff. tauto.
Qed.

Lemma isFin_inv (x : num) : isFin x -> exists q, x = Fin q.
Proof. destruct x; simpl; try tauto. intros _. eexists; reflexivity. Qed.

(** *** C10: the comparators without dominant colours *)

Module ComparatorFacts.
Import Sorting.

Section Guard.
Variable Math_pow : num -> num -> num.

Lemma guard_cases (A : Type) (a b : VisualMetadata) (x y : A) :
  dominantColors a = None \/ dominantColors b = None ->
  match dominantColors a, dominantColors b with
  | Some _, Some _ => x
  | _, _ => y
  end = y.
Proof.
  intros [H | H]; rewrite H; [reflexivity|].
  destruct (dominantColors a); reflexivity.
Qed.

Lemma luminance_fallback_unused (fallback : VisualMetadata -> num)
    (a b : VisualMetadata) :
  compareByLuminanceWith Math_pow fallback a b = compareByLuminance Math_pow a b.
Proof.
  unfold compareByLuminance, compareByLuminanceWith, brightnessOr.
  destruct (dominantColors a), (dominantColors b); reflexivity.
Qed.

End Guard.
End ComparatorFacts.

(** C10.  When the dominant colours of one of the two images are absent,
    [compareByLuminance], [compareByHue], [compareBySaturation] and
    [compareByColorTemperature] return exactly [0]; and the arm of
    [compareByLuminance] that falls back on the average colour is never
    taken: whatever stands in its place, the comparator returns the same
    number on every pair of images. *)
Theorem C10_guarded_comparators_return_zero :
  forall (Math_pow : num -> num -> num) (a b : Sorting.VisualMetadata),
    (Sorting.dominantColors a = None \/ Sorting.dominantColors b = None ->
       Sorting.compareByLuminance Math_pow a b = ofZ 0
       /\ Sorting.compareByHue Math_pow a b = ofZ 0
       /\ Sorting.compareBySaturation Math_pow a b = ofZ 0
       /\ Sorting.compareByColorTemperature a b = ofZ 0)
    /\ (forall fallback : Sorting.VisualMetadata -> num,
          Sorting.compareByLuminanceWith Math_pow fallback a b
          = Sorting.compareByLuminance Math_pow a b).
Proof.
  intros Math_pow a b. split.
  - intros H. repeat split.
    + unfold Sorting.compareByLuminance, Sorting.compareByLuminanceWith.
      apply ComparatorFacts.guard_cases; exact H.
    + unfold Sorting.compareByHue. apply ComparatorFacts.guard_cases; exact H.
    + unfold Sorting.compareBySaturation.
      apply ComparatorFacts.guard_cases; exact H.
    + unfold Sorting.compareByColorTemperature.
      apply ComparatorFacts.guard_cases; exact H.
  - intros fallback. apply ComparatorFacts.luminance_fallback_unused.
Qed.

Lemma C10_witness :
  let a := Sorting.mkVisualMetadata (Some (rgb 10 20 30)) None None None None None None in
  let b := Sorting.mkVisualMetadata None (Some [rgb 255 255 255]) None None None None None in
  Sorting.compareByLuminance (fun x _ => x) a b = ofZ 0
  /\ Sorting.compareByHue (fun x _ => x) a b = ofZ 0
  /\ Sorting.compareBySaturation (fun x _ => x) a b = ofZ 0
  /\ Sorting.compareByColorTemperature a b = ofZ 0.
Proof.
  intros a b.
  apply (proj1 (C10_guarded_comparators_return_zero (fun x _ => x) a b)).
  left. reflexivity.
Defined.

(** *** Empty input *)

Lemma at_nil (A : Type) (i : Z) : at_ (@nil A) i = None.
Proof.
  unfold at_. destruct (i <? 0)%Z; [reflexivity|].
  destruct (Z.to_nat i); reflexivity.
Qed.

Lemma fold_left_unchanged (A B : Type) (f : A -> B -> A) (l : list B) (a : A) :
  (forall x, f a x = a) -> fold_left f l a = a.
Proof.
  intros H. induction l as [|x l IH]; simpl; [reflexivity|].
  rewrite H. exact IH.
Qed.

Lemma overBlock_unchanged (S : Type) (x0 x1 y0 y1 : Z)
    (body : Z -> Z -> S -> S) (s : S) :
  (forall x y, body x y s = s) -> overBlock x0 x1 y0 y1 body s = s.
Proof.
  intros H. unfold overBlock.
  apply fold_left_unchanged. intros y.
  apply fold_left_unchanged. intros x. apply H.
Qed.

Lemma countedPixel_nil (width x y : Z) : countedPixel [] width x y = None.
Proof. unfold countedPixel. rewrite at_nil. reflexivity. Qed.

Lemma blockVariance_nil (width height blockX blockY : Z) :
  blockVariance [] width height blockX blockY = None.
Proof.
  unfold blockVariance.
  rewrite overBlock_unchanged.
  - reflexivity.
  - intros x y. rewrite countedPixel_nil. reflexivity.
Qed.

Lemma blockVariances_nil (width height : Z) : blockVariances [] width height = [].
Proof.
  unfold blockVariances.
  apply fold_left_unchanged. intros blockY.
  apply fold_left_unchanged. intros blockX.
  rewrite blockVariance_nil. reflexivity.
Qed.

Lemma calculateColorVariance_empty (w h : Z) :
  calculateColorVariance (mkCanvas w h (Some [])) = Some (rgb 0 0 0).
Proof.
  unfold calculateColorVariance. cbn [context2d width height].
  rewrite blockVariances_nil. reflexivity.
Qed.

Lemma selectDistinct_nil (distinctCount : Z) :
  (0 <= distinctCount)%Z -> selectDistinct [] distinctCount = [].
Proof.
  intros H. unfold selectDistinct. simpl.
  destruct (Z.leb_spec 0 distinctCount); [reflexivity | lia].
Qed.

(** C8, as amended.  On empty input [extractDominantColors] and
    [medianCutQuantize] return the empty list, [calculateColorVariance]
    returns zero in each channel, and [analyzeImageColors] returns without
    throwing a [VisualMetadata] whose three palettes are empty, whose
    histogram has only zero counts and zero [totalPixels], and whose colour
    variance is zero.  ([PALETTE_COLORS_COUNT] is not negative.) *)
Theorem C8_empty_input :
  forall (Math_pow : num -> num -> num) (random : nat -> num)
         (DOMINANT_COLORS_COUNT PALETTE_COLORS_COUNT w h k paletteSize : Z)
         (n : nat),
    (0 <= PALETTE_COLORS_COUNT)%Z ->
    extractDominantColors random [] k n = Some ([], n)
    /\ medianCutQuantize [] paletteSize = []
    /\ calculateColorVariance (mkCanvas w h (Some [])) = Some (rgb 0 0 0)
    /\ exists md,
         analyzeImageColors Math_pow random DOMINANT_COLORS_COUNT
           PALETTE_COLORS_COUNT (mkCanvas w h (Some [])) n = Some (md, n)
         /\ dominantColors md = []
         /\ representativePaletteColors md = []
         /\ distinctPaletteColors md = []
         /\ colorVariance md = rgb 0 0 0
         /\ (totalPixels (histogram md) == ofZ 0)%num
         /\ Forall (fun bin => bin_count bin = 0%Z)
              (hist_r (histogram md) ++ hist_g (histogram md) ++ hist_b (histogram md)).
Proof.
  intros Math_pow random D P w h k paletteSize n HP.
  split; [reflexivity|]. split; [reflexivity|].
  split; [apply calculateColorVariance_empty|].
  unfold analyzeImageColors, extractDistinctColorPalette, bind.
  cbn -[calculateColorVariance selectDistinct].
  rewrite calculateColorVariance_empty, selectDistinct_nil by exact HP.
  cbn [liftOption ret].
  eexists. split; [reflexivity|].
  cbn [dominantColors representativePaletteColors distinctPaletteColors
       colorVariance histogram totalPixels hist_r hist_g hist_b].
  repeat split.
  vm_compute. repeat constructor.
Qed.

Lemma C8_witness :
  extractDominantColors (fun _ => Fin 0) [] 3 0%nat = Some ([], 0%nat)
  /\ medianCutQuantize [] 3 = []
  /\ calculateColorVariance (mkCanvas 0 0 (Some [])) = Some (rgb 0 0 0)
  /\ exists md,
       analyzeImageColors (fun x _ => x) (fun _ => Fin 0) 5 5
         (mkCanvas 0 0 (Some [])) 0%nat = Some (md, 0%nat)
       /\ dominantColors md = []
       /\ representativePaletteColors md = []
       /\ distinctPaletteColors md = []
       /\ colorVariance md = rgb 0 0 0
       /\ (totalPixels (histogram md) == ofZ 0)%num
       /\ Forall (fun bin => bin_count bin = 0%Z)
            (hist_r (histogram md) ++ hist_g (histogram md) ++ hist_b (histogram md)).
Proof.
  apply (@C8_empty_input (fun x _ => x) (fun _ => Fin 0) 5 5 0 0 3 3 0%nat).
  lia.
Defined.

(** C8 as it is stated fails for [analyzeImageColors]: on a canvas without
    pixels the average colour and the average brightness are [0 / 0], and
    the least brightness stays at its initial value [1]. *)
Lemma C8_counterexample :
  exists md,
    analyzeImageColors (fun x _ => x) (fun _ => Fin 0) 5 5
      (mkCanvas 0 0 (Some [])) 0%nat = Some (md, 0%nat)
    /\ averageColor md = mkColor NaN NaN NaN
    /\ averageBrightness (brightness md) = NaN
    /\ brightnessRange_min (brightness md) = ofZ 1.
Proof.
  eexists. split; [vm_compute; reflexivity|].
  repeat split.
Qed.

(** *** The sort *)

Section SortFacts.
Variable A : Type.
Variable cmp : A -> A -> num.

Lemma sortInsert_perm (x : A) (l : list A) :
  Permutation (sortInsert cmp x l) (x :: l).
Proof.
  induction l as [|y ys IH]; simpl; [apply Permutation_refl|].
  destruct (cmp x y >? ofZ 0)%num.
  - apply perm_trans with (y :: x :: ys).
    + apply perm_skip. exact IH.
    + apply perm_swap.
  - apply Permutation_refl.
Qed.

Lemma sort_perm (l : list A) : Permutation (sort cmp l) l.
Proof.
  induction l as [|x xs IH]; simpl; [apply perm_nil|].
  apply perm_trans with (x :: sort cmp xs).
  - apply sortInsert_perm.
  - apply perm_skip. exact IH.
Qed.

Lemma sort_length (l : list A) : length (sort cmp l) = length l.
Proof. apply Permutation_length, sort_perm. Qed.

(** The sort orders a list by any transitive relation [before] that the
    comparator decides on the elements of the list. *)
Variable before : A -> A -> Prop.
Variable ok : A -> Prop.
Hypothesis before_trans :
  forall x y z, before x y -> before y z -> before x z.
Hypothesis cmp_gt : forall x y, ok x -> ok y ->
  (cmp x y >? ofZ 0)%num = true -> before y x.
Hypothesis cmp_le : forall x y, ok x -> ok y ->
  (cmp x y >? ofZ 0)%num = false -> before x y.

Lemma sortInsert_sorted (x : A) (l : list A) :
  ok x -> Forall ok l -> StronglySorted before l ->
  StronglySorted before (sortInsert cmp x l).
Proof.
  intros Hx Hl Hs. induction l as [|y ys IH]; simpl.
  - constructor; constructor.
  - inversion Hl as [|? ? Hy Hys]; subst.
    inversion Hs as [|? ? Hs' Hfa]; subst.
    destruct (cmp x y >? ofZ 0)%num eqn:E.
    + constructor; [apply IH; assumption|].
      apply Permutation_Forall with (x :: ys).
      * apply Permutation_sym, sortInsert_perm.
      * constructor; [apply cmp_gt; assumption | exact Hfa].
    + constructor; [exact Hs|].
      assert (Hxy : before x y) by (apply cmp_le; assumption).
      constructor; [exact Hxy|].
      eapply Forall_impl; [|exact Hfa].
      intros z Hz. eapply before_trans; eassumption.
Qed.

Lemma sort_sorted (l : list A) :
  Forall ok l -> StronglySorted before (sort cmp l).
Proof.
  induction l as [|x xs IH]; intros Hl; simpl; [constructor|].
  inversion Hl as [|? ? Hx Hxs]; subst.
  apply sortInsert_sorted; [exact Hx | | apply IH; exact Hxs].
  apply Permutation_Forall with xs; [apply Permutation_sym, sort_perm | exact Hxs].
Qed.

End SortFacts.

(** *** Median cut *)

Lemma createColorBox_data (l : list DataPoint) : data (createColorBox l) = l.
Proof.
  unfold createColorBox.
  assert (H : forall (pts : list DataPoint) (f : ColorBox -> DataPoint -> ColorBox)
                     (box0 : ColorBox),
             (forall box p, data (f box p) = l) -> data box0 = l ->
             data (fold_left f pts box0) = l).
  { induction pts as [|p ps IH]; intros f box0 Hf H0; simpl; [exact H0|].
    apply IH; [exact Hf | apply Hf]. }
  apply H; reflexivity.
Qed.

Lemma Qfloor_half (x : Z) : Qfloor (inject_Z x + (1 # 2)) = x.
Proof.
  apply Z.le_antisymm.
  - apply Z.lt_succ_r. rewrite Zlt_Qlt.
    eapply Qle_lt_trans; [apply Qfloor_le|].
    unfold Z.succ. rewrite inject_Z_plus.
    apply Qplus_lt_r. reflexivity.
  - rewrite <- (Qfloor_Z x) at 1. apply Qfloor_resp_le.
    rewrite <- (Qplus_0_r (inject_Z x)) at 1.
    apply Qplus_le_r. discriminate.
Qed.







Lemma selectBox_bound (boxes : list ColorBox) :
  forall (i : nat) (acc : option nat) (m : num) (j : nat),
    selectBox boxes i acc m = Some j ->
    acc = Some j \/ (i <= j < i + length boxes)%nat.
Proof.
  induction boxes as [|box rest IH]; intros i acc m j H; cbn [selectBox] in H.
  - left. exact H.
  - cbn [length].
    destruct (boxRange box >? m)%num; apply IH in H; destruct H as [H | H].
    + right. inversion H. lia.
    + right. lia.
    + left. exact H.
    + right. lia.
Qed.

Lemma splice1_length (A : Type) (i : nat) (x y : A) (l : list A) :
  (i < length l)%nat -> length (splice1 i x y l) = S (length l).
Proof.
  intros H. unfold splice1.
  rewrite length_app. cbn [length]. rewrite length_firstn, length_skipn. lia.
Qed.

(** A pass of the median-cut loop that does not leave the loop splits a
    box of the list that holds two points or more. *)
Lemma cutStep_splits (boxes boxes' : list ColorBox) :
  cutStep boxes = Some boxes' ->
  exists (i : nat) (box : ColorBox),
    nth_error boxes i = Some box
    /\ (2 <= length (data box))%nat
    /\ boxes' = splice1 i (fst (splitBox box)) (snd (splitBox box)) boxes.
Proof.
  unfold cutStep. intros H.
  destruct (selectBox boxes 0 None NInf) as [i|]; [|discriminate].
  destruct (nth_error boxes i) as [box|] eqn:E; [|discriminate].
  destruct (Nat.leb_spec (length (data box)) 1); [discriminate|].
  rewrite (surjective_pairing (splitBox box)) in H. inversion H; subst.
  exists i, box. split; [exact E|]. split; [lia | reflexivity].
Qed.

Lemma cutStep_length (boxes boxes' : list ColorBox) :
  cutStep boxes = Some boxes' -> length boxes' = S (length boxes).
Proof.
  intros H. apply cutStep_splits in H.
  destruct H as (i & box & Hi & _ & ->).
  apply splice1_length. apply nth_error_Some. congruence.
Qed.

Lemma cutLoop_length (fuel : nat) :
  forall (boxes : list ColorBox) (paletteSize : Z),
    (Z.of_nat (length (cutLoop fuel boxes paletteSize))
     <= Z.max (Z.of_nat (length boxes)) paletteSize)%Z.
Proof.
  induction fuel as [|fuel IH]; intros boxes paletteSize; cbn [cutLoop]; [lia|].
  destruct (Z.ltb_spec (Z.of_nat (length boxes)) paletteSize) as [L | G]; [|lia].
  destruct (cutStep boxes) as [boxes'|] eqn:E; [|lia].
  specialize (IH boxes' paletteSize).
  apply cutStep_length in E. lia.
Qed.

(** The fuel given to the loop does not cut it short: it ends because the
    palette is full or because a pass leaves it. *)
Lemma cutLoop_complete (fuel : nat) :
  forall (boxes : list ColorBox) (paletteSize : Z),
    (paletteSize - Z.of_nat (length boxes) <= Z.of_nat fuel)%Z ->
    (paletteSize <= Z.of_nat (length (cutLoop fuel boxes paletteSize)))%Z
    \/ cutStep (cutLoop fuel boxes paletteSize) = None.
Proof.
  induction fuel as [|fuel IH]; intros boxes paletteSize H; cbn [cutLoop].
  - left. lia.
  - destruct (Z.ltb_spec (Z.of_nat (length boxes)) paletteSize) as [L | G];
      [|left; lia].
    destruct (cutStep boxes) as [boxes'|] eqn:E; [|right; exact E].
    apply IH. apply cutStep_length in E. lia.
Qed.

Lemma medianCutQuantize_length (points : list DataPoint) (paletteSize : Z) :
  (Z.of_nat (length (medianCutQuantize points paletteSize)) <= Z.max 1 paletteSize)%Z.
Proof.
  unfold medianCutQuantize.
  destruct (length points =? 0)%nat; [simpl; lia|].
  rewrite length_map.
  pose proof (cutLoop_length (Z.to_nat paletteSize) [createColorBox points] paletteSize) as H.
  simpl length in H. exact H.
Qed.

Lemma medianScan_bound (sortedData : list DataPoint) :
  forall (i : nat) (cumulative half : num),
    (medianScan sortedData i cumulative half < Nat.max 1 (i + length sortedData))%nat.
Proof.
  induction sortedData as [|p ps IH]; intros i cumulative half;
    cbn [medianScan length]; [lia|].
  destruct ((cumulative + count p)%num >=? half)%num; [lia|].
  specialize (IH (S i) (cumulative + count p)%num half). lia.
Qed.

(** The two halves of a split of two points or more are not empty. *)
Lemma splitBox_halves (box : ColorBox) :
  (2 <= length (data box))%nat ->
  (1 <= length (data (fst (splitBox box))))%nat
  /\ (1 <= length (data (snd (splitBox box))))%nat
  /\ (length (data (fst (splitBox box))) + length (data (snd (splitBox box)))
      = length (data box))%nat.
Proof.
  intros H. unfold splitBox. cbn [fst snd].
  rewrite !createColorBox_data.
  set (sortedData := sort _ (data box)).
  assert (Hlen : length sortedData = length (data box)) by apply sort_length.
  set (m := medianScan sortedData 0 _ _).
  assert (Hm : (m < Nat.max 1 (0 + length sortedData))%nat)
    by apply medianScan_bound.
  unfold sliceTo, sliceFrom. rewrite length_firstn, length_skipn.
  destruct (Nat.eqb_spec m 0); lia.
Qed.

(** C4, as amended.  [medianCutQuantize] returns [paletteSize] colours at
    most when [paletteSize] is one or more, and one colour at most
    otherwise; and every split that its loop makes is of a box of two points
    or more, into two halves that are not empty. *)
Theorem C4_median_cut_size_and_splits :
  forall (points : list DataPoint) (paletteSize : Z),
    (Z.of_nat (length (medianCutQuantize points paletteSize)) <= Z.max 1 paletteSize)%Z
    /\ (forall boxes boxes' : list ColorBox,
          cutStep boxes = Some boxes' ->
          exists (i : nat) (box : ColorBox),
            nth_error boxes i = Some box
            /\ (2 <= length (data box))%nat
            /\ (1 <= length (data (fst (splitBox box))))%nat
            /\ (1 <= length (data (snd (splitBox box))))%nat
            /\ boxes' = splice1 i (fst (splitBox box)) (snd (splitBox box)) boxes).
Proof.
  intros points paletteSize. split.
  - apply medianCutQuantize_length.
  - intros boxes boxes' H.
    destruct (cutStep_splits _ H) as (i & box & Hi & Hlen & Hb).
    exists i, box.
    destruct (splitBox_halves box Hlen) as (H1 & H2 & _).
    repeat split; assumption.
Qed.

Lemma C4_witness :
  exists (boxes' : list ColorBox) (i : nat) (box : ColorBox),
    cutStep [createColorBox [mkPoint (rgb 10 0 0) (ofZ 1); mkPoint (rgb 90 0 0) (ofZ 3)]]
    = Some boxes'
    /\ nth_error
         [createColorBox [mkPoint (rgb 10 0 0) (ofZ 1); mkPoint (rgb 90 0 0) (ofZ 3)]] i
       = Some box
    /\ (2 <= length (data box))%nat
    /\ (1 <= length (data (fst (splitBox box))))%nat
    /\ (1 <= length (data (snd (splitBox box))))%nat.
Proof.
  destruct (cutStep [createColorBox [mkPoint (rgb 10 0 0) (ofZ 1);
                                     mkPoint (rgb 90 0 0) (ofZ 3)]])
    as [boxes'|] eqn:E; [|vm_compute in E; discriminate E].
  destruct (proj2 (@C4_median_cut_size_and_splits [] 0) _ _ E)
    as (i & box & Hi & H2 & Hl & Hr & _).
  exists boxes', i, box. repeat split; assumption.
Defined.

(** C4 as it is stated fails for a palette size below one: the single
    initial box is returned as one colour. *)
Lemma C4_counterexample :
  ~ (forall (points : list DataPoint) (paletteSize : Z),
       (Z.of_nat (length (medianCutQuantize points paletteSize)) <= paletteSize)%Z).
Proof.
  intros H.
  specialize (H [mkPoint (rgb 1 2 3) (ofZ 1)] 0%Z).
  vm_compute in H. apply H. reflexivity.
Qed.

(** *** The clustering returns *)

Lemma pickWeighted_In (weights : list num) :
  forall (points : list DataPoint) (rand : num) (d : DataPoint),
    pickWeighted weights points rand = Some d -> In d points.
Proof.
  induction weights as [|w ws IH]; intros points rand d H;
    destruct points as [|p ps]; cbn [pickWeighted] in H; try discriminate.
  destruct ((rand - w)%num <=? ofZ 0)%num.
  - inversion H. left. reflexivity.
  - right. eapply IH. exact H.
Qed.

Lemma last_Some_In (A : Type) (l : list A) :
  l <> [] -> exists a, In a l /\ last (map Some l) None = Some a.
Proof.
  induction l as [|x xs IH]; intros H; [congruence|].
  destruct xs as [|y ys].
  - exists x. split; [left; reflexivity | reflexivity].
  - destruct IH as (a & Ha & Hl); [discriminate|].
    exists a. split; [right; exact Ha | exact Hl].
Qed.

Lemma pickOrLast_total (weights : list num) (points : list DataPoint)
    (rand : num) (n : nat) :
  points <> [] ->
  exists d, In d points /\ pickOrLast weights points rand n = Some (point d, n).
Proof.
  intros H. unfold pickOrLast.
  destruct (pickWeighted weights points rand) as [d|] eqn:E.
  - exists d. split; [eapply pickWeighted_In; exact E | reflexivity].
  - destruct (last_Some_In H) as (d & Hd & Hl). rewrite Hl.
    exists d. split; [exact Hd | reflexivity].
Qed.

Section ClusteringReturns.
Variable random : nat -> num.
Variable points : list DataPoint.
Hypothesis points_not_empty : points <> [].

Lemma seedLoop_total (k : Z) (fuel : nat) :
  forall (centroids : list Centroid) (n : nat),
    Forall (fromData points) centroids ->
    (Z.to_nat k <= length centroids + fuel)%nat ->
    exists centroids' n',
      seedLoop random fuel points k centroids n = Some (centroids', n')
      /\ length centroids' = Nat.max (length centroids) (Z.to_nat k)
      /\ Forall (fromData points) centroids'.
Proof.
  induction fuel as [|fuel IH]; intros centroids n Hc Hf; cbn [seedLoop].
  - exists centroids, n. repeat split; [lia | exact Hc].
  - destruct (Z.ltb_spec (Z.of_nat (length centroids)) k) as [L | G].
    + unfold bind at 1. unfold Math_random.
      unfold bind at 1.
      match goal with
      | |- context [pickOrLast ?w points ?x (S n)] =>
          destruct (pickOrLast_total w x (S n) points_not_empty) as (d & Hd & ->)
      end.
      destruct (IH (centroids ++ [point d]) (S n)) as (cs & n' & E & Hl & Hfd).
      * apply Forall_app. split; [exact Hc|].
        constructor; [exists d; split; [exact Hd | reflexivity] | constructor].
      * rewrite length_app. simpl. lia.
      * exists cs, n'. rewrite length_app in Hl. simpl in Hl.
        repeat split; [exact E | lia | exact Hfd].
    + exists centroids, n. repeat split; [lia | exact Hc].
Qed.

Lemma initializeCentroidsKMeansPP_total (k : Z) (n : nat) :
  exists centroids n',
    initializeCentroidsKMeansPP random points k n = Some (centroids, n')
    /\ length centroids = Nat.max 1 (Z.to_nat k)
    /\ Forall (fromData points) centroids.
Proof.
  unfold initializeCentroidsKMeansPP.
  unfold bind at 1. unfold Math_random. unfold bind at 1.
  match goal with
  | |- context [pickOrLast ?w points ?x (S n)] =>
      destruct (pickOrLast_total w x (S n) points_not_empty) as (d & Hd & ->)
  end.
  destruct (@seedLoop_total k (Z.to_nat k) [point d] (S n)) as (cs & n' & E & Hl & Hfd).
  - constructor; [exists d; split; [exact Hd | reflexivity] | constructor].
  - simpl. lia.
  - exists cs, n'. repeat split; assumption.
Qed.

Lemma nearest_bound (d : DataPoint) (centroids : list Centroid) :
  forall (i bestIndex : nat) (bestDistance : num),
    nearest d centroids i bestIndex bestDistance = bestIndex
    \/ (i <= nearest d centroids i bestIndex bestDistance < i + length centroids)%nat.
Proof.
  induction centroids as [|c cs IH]; intros i bestIndex bestDistance;
    cbn [nearest length]; [left; reflexivity|].
  destruct (euclideanDistanceSquared d c <? bestDistance)%num.
  - right. destruct (IH (S i) i (euclideanDistanceSquared d c)) as [E | E];
      [rewrite E|]; lia.
  - destruct (IH (S i) bestIndex bestDistance) as [E | E];
      [left; exact E | right; lia].
Qed.

Lemma updateAt_length (A : Type) (f : A -> A) (i : Z) (l : list A) :
  length (updateAt f i l) = length l.
Proof.
  unfold updateAt. destruct (i <? 0)%Z; [reflexivity|].
  generalize (Z.to_nat i) as n. induction l as [|x xs IH]; intros n.
  - destruct n; reflexivity.
  - destruct n; cbn [length]; [reflexivity|]. rewrite IH. reflexivity.
Qed.

Lemma assign_total (data : list DataPoint) :
  forall (centroids : list Centroid) (sums : list Sums) (n : nat),
    centroids <> [] -> length sums = length centroids ->
    exists sums',
      assign data centroids sums n = Some (sums', n)
      /\ length sums' = length centroids.
Proof.
  induction data as [|d ds IH]; intros centroids sums n Hc Hl; cbn [assign].
  - exists sums. split; [reflexivity | exact Hl].
  - assert (Hb : (nearest d centroids 0 0 PInf < length sums)%nat).
    { destruct centroids as [|c cs]; [congruence|].
      destruct (nearest_bound d (c :: cs) 0 0 PInf) as [E | E];
        [rewrite E|]; rewrite Hl; simpl in *; lia. }
    destruct (nth_error sums (nearest d centroids 0 0 PInf)) eqn:E.
    + apply IH; [exact Hc | rewrite updateAt_length; exact Hl].
    + apply nth_error_None in E. lia.
Qed.

Lemma toIndex_ofZ (z : Z) : (0 <= z)%Z -> toIndex (ofZ z) = Some (Z.to_nat z).
Proof.
  intros H. unfold toIndex, ofZ. rewrite Qfloor_Z.
  rewrite Qeq_bool_refl.
  destruct (Z.leb_spec 0 z); [reflexivity | lia].
Qed.

(** The index of a reseeded centroid falls in the data. *)
Lemma reseed_index (u : Q) (len : nat) :
  (0 <= u < 1)%Q -> (0 < len)%nat ->
  exists j, toIndex (floor (Fin u * ofNat len)) = Some j /\ (j < len)%nat.
Proof.
  intros [Hu0 Hu1] Hlen.
  unfold ofNat, ofZ, mul, floor.
  set (z := Qfloor (u * inject_Z (Z.of_nat len))).
  assert (H0 : (0 <= z)%Z).
  { unfold z. rewrite <- (Qfloor_Z 0). apply Qfloor_resp_le.
    apply Qmult_le_0_compat; [exact Hu0|].
    change 0%Q with (inject_Z 0). rewrite <- Zle_Qle. lia. }
  assert (H1 : (z < Z.of_nat len)%Z).
  { rewrite Zlt_Qlt. eapply Qle_lt_trans; [apply Qfloor_le|].
    rewrite <- (Qmult_1_l (inject_Z (Z.of_nat len))) at 2.
    apply Qmult_lt_compat_r; [|exact Hu1].
    change 0%Q with (inject_Z 0). rewrite <- Zlt_Qlt. lia. }
  exists (Z.to_nat z). split; [apply toIndex_ofZ; exact H0 | lia].
Qed.

Hypothesis random_valid : validRandom random.

Lemma update_total (centroids : list Centroid) :
  forall (sums : list Sums) (n : nat),
    length sums = length centroids ->
    exists centroids' clusterWeights' converged n',
      update random points centroids sums n
      = Some ((centroids', clusterWeights', converged), n')
      /\ length centroids' = length centroids
      /\ length clusterWeights' = length centroids.
Proof.
  induction centroids as [|c cs IH]; intros sums n Hl.
  - destruct sums; [|discriminate].
    exists [], [], true, n. repeat split.
  - destruct sums as [|s ss]; [discriminate|].
    cbn [update]. injection Hl as Hl.
    destruct (weight s >? ofZ 0)%num.
    + unfold bind at 1.
      destruct (IH ss n Hl) as (cs' & ws' & conv & n' & E & H1 & H2).
      rewrite E. eexists _, _, _, _. split; [reflexivity|].
      cbn [length]. split; congruence.
    + unfold bind at 1. unfold Math_random.
      destruct (random_valid n) as (u & -> & Hu).
      destruct (@reseed_index u (length points) Hu) as (j & -> & Hj).
      { destruct points; [congruence | simpl; lia]. }
      destruct (nth_error points j) as [d|] eqn:Ed;
        [|apply nth_error_None in Ed; lia].
      unfold bind at 1.
      destruct (IH ss (S n) Hl) as (cs' & ws' & conv & n' & E & H1 & H2).
      rewrite E. eexists _, _, _, _. split; [reflexivity|].
      cbn [length]. split; congruence.
Qed.

Lemma iterate_total (maxIterations : nat) :
  forall (centroids : list Centroid) (clusterWeights : list num) (n : nat),
    centroids <> [] -> length clusterWeights = length centroids ->
    exists centroids' clusterWeights' n',
      iterate random maxIterations points centroids clusterWeights n
      = Some ((centroids', clusterWeights'), n')
      /\ length centroids' = length centroids
      /\ length clusterWeights' = length centroids.
Proof.
  induction maxIterations as [|m IH]; intros centroids clusterWeights n Hc Hl;
    cbn [iterate].
  - exists centroids, clusterWeights, n. repeat split. exact Hl.
  - unfold bind at 1.
    destruct (@assign_total points centroids (repeat zeroSums (length centroids)) n Hc)
      as (sums & -> & Hs); [apply repeat_length|].
    unfold bind at 1.
    destruct (@update_total centroids sums n Hs)
      as (cs' & ws' & conv & n' & -> & H1 & H2).
    destruct conv.
    + exists cs', ws', n'. repeat split; assumption.
    + destruct (IH cs' ws' n') as (cs2 & ws2 & n2 & E & H3 & H4).
      * destruct cs'; [destruct centroids; [congruence | discriminate] | discriminate].
      * congruence.
      * exists cs2, ws2, n2. repeat split; congruence.
Qed.

Lemma kMeansClustering_total (centroids : list Centroid) (maxIterations n : nat) :
  centroids <> [] ->
  exists centroids' clusterWeights' n',
    kMeansClustering random points centroids maxIterations n
    = Some ((centroids', clusterWeights'), n')
    /\ length centroids' = length centroids
    /\ length clusterWeights' = length centroids.
Proof.
  intros Hc. unfold kMeansClustering.
  apply iterate_total; [exact Hc | apply repeat_length].
Qed.

End ClusteringReturns.

(** *** Colour keys *)

Example parseInt_prefix : parseInt " 12px" = Some 12%Z.
Proof. reflexivity. Qed.

Example parseInt_undefined : parseInt "undefined" = None.
Proof. reflexivity. Qed.

Example intToString_examples :
  intToString 255 = "255"%string /\ intToString 0 = "0"%string
  /\ intToString (-40) = "-40"%string /\ intToString 1000 = "1000"%string.
Proof. repeat split; reflexivity. Qed.

Example split_example : split ","%char "1,22,,3" = ["1"; "22"; ""; "3"]%string.
Proof. reflexivity. Qed.

Lemma digitOf_digitChar (d : Z) :
  (0 <= d < 10)%Z -> digitOf (digitChar d) = Some d.
Proof.
  intros H.
  assert (E : (d = 0 \/ d = 1 \/ d = 2 \/ d = 3 \/ d = 4 \/ d = 5 \/ d = 6
              \/ d = 7 \/ d = 8 \/ d = 9)%Z) by lia.
  repeat (destruct E as [E | E]; [subst; reflexivity|]).
  subst; reflexivity.
Qed.

Lemma digit_not_special (c : ascii) (d : Z) :
  digitOf c = Some d ->
  isWhiteSpace c = false /\ c <> "-"%char /\ c <> "+"%char
  /\ Ascii.eqb c ","%char = false.
Proof.
  destruct c as [[] [] [] [] [] [] [] []]; intros H; try discriminate H;
    repeat split; try reflexivity; discriminate.
Qed.

Lemma parseDigits_digitsOf (fuel : nat) :
  forall (n : Z) (acc : string),
    (0 <= n < 10 ^ Z.of_nat fuel)%Z ->
    parseDigits (digitsOf fuel n acc) 0 = parseDigits acc n.
Proof.
  induction fuel as [|fuel IH]; intros n acc H.
  - cbn [digitsOf]. replace n with 0%Z; [reflexivity|].
    change (10 ^ Z.of_nat 0)%Z with 1%Z in H. lia.
  - cbn [digitsOf].
    assert (Hd : (0 <= n mod 10 < 10)%Z) by (apply Z.mod_pos_bound; lia).
    destruct (Z.ltb_spec n 10) as [L | G].
    + cbn [parseDigits]. rewrite digitOf_digitChar by exact Hd.
      f_equal. rewrite Z.mod_small by lia. lia.
    + rewrite IH.
      * cbn [parseDigits]. rewrite digitOf_digitChar by exact Hd.
        f_equal. pose proof (Z.div_mod n 10). lia.
      * rewrite Nat2Z.inj_succ, Z.pow_succ_r in H by lia.
        split; [apply Z.div_pos; lia|].
        apply Z.div_lt_upper_bound; lia.
Qed.

Lemma digitsOf_allDigits (fuel : nat) :
  forall (n : Z) (acc : string),
    allDigits acc = true -> allDigits (digitsOf fuel n acc) = true.
Proof.
  induction fuel as [|fuel IH]; intros n acc H; cbn [digitsOf]; [exact H|].
  assert (Hd : (0 <= n mod 10 < 10)%Z) by (apply Z.mod_pos_bound; lia).
  assert (H' : allDigits (String (digitChar (n mod 10)) acc) = true).
  { cbn [allDigits]. rewrite digitOf_digitChar by exact Hd. exact H. }
  destruct (n <? 10)%Z; [exact H' | apply IH; exact H'].
Qed.

Lemma digitsOf_starts (fuel : nat) :
  forall (n : Z) (acc : string),
    startsWithDigit acc = true -> startsWithDigit (digitsOf fuel n acc) = true.
Proof.
  induction fuel as [|fuel IH]; intros n acc H; cbn [digitsOf]; [exact H|].
  assert (Hd : (0 <= n mod 10 < 10)%Z) by (apply Z.mod_pos_bound; lia).
  assert (H' : startsWithDigit (String (digitChar (n mod 10)) acc) = true).
  { cbn [startsWithDigit]. rewrite digitOf_digitChar by exact Hd. reflexivity. }
  destruct (n <? 10)%Z; [exact H' | apply IH; exact H'].
Qed.

Lemma intToString_nonneg (n : Z) :
  (0 <= n)%Z ->
  allDigits (intToString n) = true
  /\ startsWithDigit (intToString n) = true
  /\ parseDigits (intToString n) 0 = n.
Proof.
  intros H. unfold intToString.
  destruct (Z.ltb_spec n 0) as [L | _]; [lia|].
  rewrite Z.abs_eq by exact H.
  split; [apply digitsOf_allDigits; reflexivity|].
  split.
  - cbn [digitsOf].
    assert (Hd : (0 <= n mod 10 < 10)%Z) by (apply Z.mod_pos_bound; lia).
    assert (H' : startsWithDigit (String (digitChar (n mod 10)) EmptyString) = true).
    { cbn [startsWithDigit]. rewrite digitOf_digitChar by exact Hd. reflexivity. }
    destruct (n <? 10)%Z; [exact H' | apply digitsOf_starts; exact H'].
  - rewrite parseDigits_digitsOf; [reflexivity|].
    split; [exact H|].
    rewrite Nat2Z.inj_succ, Z2Nat.id by apply Z.log2_nonneg.
    destruct (Z.eq_dec n 0) as [-> | Hn]; [reflexivity|].
    apply Z.lt_le_trans with (2 ^ Z.succ (Z.log2 n))%Z.
    + apply Z.log2_spec. lia.
    + apply Z.pow_le_mono_l. pose proof (Z.log2_nonneg n). lia.
Qed.

Lemma parseInt_digits (s : string) :
  startsWithDigit s = true -> parseInt s = Some (parseDigits s 0).
Proof.
  destruct s as [|c s]; [discriminate|].
  cbn [startsWithDigit]. destruct (digitOf c) as [d|] eqn:E; [|discriminate].
  intros _. destruct (digit_not_special c E) as (Hw & Hm & Hp & _).
  unfold parseInt. cbn [trimStart]. rewrite Hw.
  assert (Hs : startsWithDigit (String c s) = true)
    by (cbn [startsWithDigit]; rewrite E; reflexivity).
  destruct c as [[] [] [] [] [] [] [] []]; try congruence;
    rewrite Hs; f_equal; apply Z.mul_1_l.
Qed.

Lemma split_no_comma (s : string) :
  allDigits s = true -> split ","%char s = [s].
Proof.
  induction s as [|c s IH]; intros H; cbn [split]; [reflexivity|].
  cbn [allDigits] in H. destruct (digitOf c) as [d|] eqn:E; [|discriminate].
  destruct (digit_not_special c E) as (_ & _ & _ & Hc). rewrite Hc.
  rewrite IH by exact H. reflexivity.
Qed.

Lemma split_comma (s rest : string) :
  allDigits s = true ->
  split ","%char (s ++ String ","%char rest) = s :: split ","%char rest.
Proof.
  induction s as [|c s IH]; intros H; cbn [split String.append].
  - reflexivity.
  - cbn [allDigits] in H. destruct (digitOf c) as [d|] eqn:E; [|discriminate].
    destruct (digit_not_special c E) as (_ & _ & _ & Hc). rewrite Hc.
    rewrite IH by exact H. reflexivity.
Qed.

Lemma parts_of_colorKey (x y z : Z) :
  (0 <= x)%Z -> (0 <= y)%Z -> (0 <= z)%Z ->
  map parseInt (split ","%char (colorKey x y z)) = [Some x; Some y; Some z].
Proof.
  intros Hx Hy Hz. unfold colorKey.
  destruct (intToString_nonneg Hx) as (Ax & Sx & Px).
  destruct (intToString_nonneg Hy) as (Ay & Sy & Py).
  destruct (intToString_nonneg Hz) as (Az & Sz & Pz).
  change (intToString x ++ "," ++ intToString y ++ "," ++ intToString z)%string
    with (intToString x ++ String ","%char
            (intToString y ++ String ","%char (intToString z)))%string.
  rewrite !split_comma, split_no_comma by assumption.
  cbn [map]. rewrite !parseInt_digits by assumption.
  rewrite Px, Py, Pz. reflexivity.
Qed.

Lemma parseEntry_colorKey (x y z : Z) (c : num) :
  (0 <= x)%Z -> (0 <= y)%Z -> (0 <= z)%Z ->
  parseEntry (colorKey x y z, c) = Some (mkPoint (rgb x y z) c).
Proof.
  intros Hx Hy Hz. unfold parseEntry.
  rewrite parts_of_colorKey by assumption. reflexivity.
Qed.

(** *** Dominant colours *)

Lemma clustersOf_length (centroids : list Centroid) :
  forall clusterWeights : list num,
    length (clustersOf centroids clusterWeights) = length centroids.
Proof.
  induction centroids as [|c cs IH]; intros ws; [reflexivity|].
  destruct ws; cbn [clustersOf length]; rewrite IH; reflexivity.
Qed.


(** The three ways out of [extractDominantColors]. *)
Lemma extractDominantColors_cases (random : nat -> num)
    (colorCounts : ColorCounts) (k : Z) (n : nat) :
  validRandom random ->
  let points := filterSome (map parseEntry colorCounts) in
  (points = [] /\ extractDominantColors random colorCounts k n = Some ([], n))
  \/ (points <> [] /\ (Z.of_nat (length points) <= k)%Z
      /\ extractDominantColors random colorCounts k n
         = Some (map (fun d : DataPoint => mkColor (r d) (g d) (b d)) points, n))
  \/ (points <> [] /\ (k < Z.of_nat (length points))%Z
      /\ exists centroids n0 finalCentroids clusterWeights n1,
           initializeCentroidsKMeansPP random points k n = Some (centroids, n0)
           /\ Forall (fromData points) centroids
           /\ kMeansClustering random points centroids 10 n0
              = Some ((finalCentroids, clusterWeights), n1)
           /\ length finalCentroids = Nat.max 1 (Z.to_nat k)
           /\ length clusterWeights = length finalCentroids
           /\ extractDominantColors random colorCounts k n
              = Some (map (fun c => toColor (fst c))
                        (sort byWeightDesc (clustersOf finalCentroids clusterWeights)),
                      n1)).
Proof.
  intros Hr points. unfold extractDominantColors. fold points.
  destruct points as [|p ps] eqn:Ep.
  - left. split; reflexivity.
  - right. rewrite <- Ep.
    assert (Hne : points <> []) by (rewrite Ep; discriminate).
    replace (length points =? 0)%nat with false
      by (rewrite Ep; reflexivity).
    destruct (Z.leb_spec (Z.of_nat (length points)) k) as [L | G].
    + left. repeat split; assumption.
    + right. split; [exact Hne|]. split; [exact G|].
      destruct (initializeCentroidsKMeansPP_total random Hne k n)
        as (cs & n0 & E0 & Hl0 & Hfd).
      assert (Hcs : cs <> []) by (intros ->; cbn [length] in Hl0; lia).
      destruct (kMeansClustering_total Hne Hr 10 n0 Hcs)
        as (fc & ws & n1 & E1 & Hl1 & Hl2).
      exists cs, n0, fc, ws, n1.
      unfold bind. rewrite E0, E1.
      repeat split; try assumption; congruence.
Qed.

Lemma filterSome_entries (entries : list (Z * Z * Z * num)) :
  Forall byteEntry entries ->
  filterSome (map parseEntry (map entryOf entries))
  = map (fun e => let '(x, y, z, c) := e in mkPoint (rgb x y z) c) entries.
Proof.
  induction 1 as [|[[[x y] z] c] es H Hes IH]; [reflexivity|].
  cbn [map entryOf]. destruct H as (Hx & Hy & Hz).
  rewrite parseEntry_colorKey by lia.
  cbn [filterSome]. rewrite IH. reflexivity.
Qed.




(** *** Finite numbers in the clustering *)

Lemma isFin_add (x y : num) : isFin x -> isFin y -> isFin (x + y)%num.
Proof. destruct x, y; simpl; tauto. Qed.

Lemma isFin_mul (x y : num) : isFin x -> isFin y -> isFin (x * y)%num.
Proof. destruct x, y; simpl; tauto. Qed.


Lemma isFin_div_pos (x y : num) :
  isFin x -> isFin y -> (y >? ofZ 0)%num = true -> isFin (x / y)%num.
Proof.
  destruct x as [a| | |], y as [c| | |]; simpl; try tauto.
  intros _ _ H. unfold gt, ofZ in H. apply lt_Fin in H.
  unfold div. destruct (Qeq_bool c 0) eqn:E; [|exact I].
  apply Qeq_bool_iff in E. rewrite E in H. destruct (Qlt_irrefl _ H).
Qed.

Lemma updateAt_Forall (A : Type) (P : A -> Prop) (f : A -> A) (i : Z) (l : list A) :
  (forall x, P x -> P (f x)) -> Forall P l -> Forall P (updateAt f i l).
Proof.
  intros Hf. unfold updateAt. destruct (i <? 0)%Z; [tauto|].
  generalize (Z.to_nat i) as n. induction l as [|x xs IH]; intros n H.
  - destruct n; exact H.
  - inversion H; subst. destruct n; constructor; auto.
Qed.

Lemma accumulate_fin (d : DataPoint) (s : Sums) :
  finPoint d -> finSums s -> finSums (accumulate d s).
Proof.
  intros ((Hr & Hg & Hb) & Hc) (H1 & H2 & H3 & H4).
  unfold accumulate, finSums; cbn [sumR sumG sumB weight].
  repeat split; apply isFin_add; try assumption; apply isFin_mul; assumption.
Qed.

Lemma assign_fin (points : list DataPoint) :
  forall (centroids : list Centroid) (sums sums' : list Sums) (n n' : nat),
    Forall finPoint points -> Forall finSums sums ->
    assign points centroids sums n = Some (sums', n') ->
    Forall finSums sums'.
Proof.
  induction points as [|d ds IH]; intros centroids sums sums' n n' Hp Hs E;
    cbn [assign] in E.
  - inversion E; subst. exact Hs.
  - inversion Hp; subst.
    destruct (nth_error sums (nearest d centroids 0 0 PInf)); [|discriminate].
    eapply IH; [eassumption | | exact E].
    apply updateAt_Forall; [|exact Hs].
    intros s. apply accumulate_fin. assumption.
Qed.

Lemma update_fin (points : list DataPoint) (random : nat -> num)
    (centroids : list Centroid) :
  forall (sums : list Sums) (n n' : nat) (centroids' : list Centroid)
         (clusterWeights' : list num) (converged : bool),
    Forall finPoint points -> Forall finSums sums ->
    update random points centroids sums n
    = Some ((centroids', clusterWeights', converged), n') ->
    Forall finColor centroids' /\ Forall isFin clusterWeights'.
Proof.
  induction centroids as [|c cs IH];
    intros sums n n' centroids' ws' conv Hp Hs E.
  - cbn [update] in E. inversion E; subst. split; constructor.
  - destruct sums as [|s ss]; cbn [update] in E.
    + inversion E; subst. split; constructor.
    + inversion Hs as [|? ? (H1 & H2 & H3 & H4) Hss]; subst.
      destruct (weight s >? ofZ 0)%num eqn:W.
      * unfold bind at 1 in E.
        destruct (update random points cs ss n) as [[[[cs' w'] cv] m]|] eqn:U;
          [|discriminate].
        inversion E; subst.
        destruct (IH _ _ _ _ _ _ Hp Hss U) as [Hc Hw].
        split; constructor; try assumption.
        repeat split; cbn [r g b]; apply isFin_div_pos; assumption.
      * unfold bind at 1 in E. unfold Math_random in E.
        destruct (toIndex (floor (random n * ofNat (length points)))) as [j|];
          [|discriminate].
        destruct (nth_error points j) as [d|] eqn:Ed; [|discriminate].
        unfold bind at 1 in E.
        destruct (update random points cs ss (S n)) as [[[[cs' w'] cv] m]|] eqn:U;
          [|discriminate].
        inversion E; subst.
        destruct (IH _ _ _ _ _ _ Hp Hss U) as [Hc Hw].
        split; constructor; try assumption; [|exact I].
        apply nth_error_In in Ed.
        rewrite Forall_forall in Hp. apply Hp in Ed. apply Ed.
Qed.

Lemma repeat_Forall (A : Type) (P : A -> Prop) (x : A) (n : nat) :
  P x -> Forall P (repeat x n).
Proof. intros H. induction n; simpl; constructor; assumption. Qed.

Lemma iterate_fin (points : list DataPoint) (random : nat -> num)
    (maxIterations : nat) :
  forall (centroids : list Centroid) (clusterWeights : list num) (n n' : nat)
         (centroids' : list Centroid) (clusterWeights' : list num),
    Forall finPoint points ->
    Forall finColor centroids -> Forall isFin clusterWeights ->
    iterate random maxIterations points centroids clusterWeights n
    = Some ((centroids', clusterWeights'), n') ->
    Forall finColor centroids' /\ Forall isFin clusterWeights'.
Proof.
  induction maxIterations as [|m IH];
    intros centroids ws n n' centroids' ws' Hp Hc Hw E; cbn [iterate] in E.
  - inversion E; subst. split; assumption.
  - unfold bind at 1 in E.
    destruct (assign points centroids (repeat zeroSums (length centroids)) n)
      as [[sums n0]|] eqn:A; [|discriminate].
    unfold bind at 1 in E.
    destruct (update random points centroids sums n0)
      as [[[[cs1 ws1] cv] n1]|] eqn:U; [|discriminate].
    assert (Hs : Forall finSums sums).
    { eapply assign_fin; [exact Hp | | exact A].
      apply repeat_Forall. repeat split. }
    destruct (@update_fin points random centroids sums n0 n1 cs1 ws1 cv Hp Hs U)
      as [Hc1 Hw1].
    destruct cv.
    + inversion E; subst. split; assumption.
    + eapply IH; eassumption.
Qed.

Lemma parseEntry_fin (entry : string * num) (d : DataPoint) :
  isFin (snd entry) -> parseEntry entry = Some d -> finPoint d.
Proof.
  destruct entry as [key c]. cbn [snd]. intros Hc E. unfold parseEntry in E.
  destruct (map parseInt (split ","%char key)) as [|[x|] [|[y|] [|[z|] [|? ?]]]];
    try discriminate.
  inversion E; subst. repeat split. exact Hc.
Qed.

Lemma points_fin (colorCounts : ColorCounts) :
  Forall (fun entry => isFin (snd entry)) colorCounts ->
  Forall finPoint (filterSome (map parseEntry colorCounts)).
Proof.
  induction 1 as [|e es He Hes IH]; cbn [map filterSome]; [constructor|].
  destruct (parseEntry e) as [d|] eqn:E; [|exact IH].
  constructor; [eapply parseEntry_fin; eassumption | exact IH].
Qed.

Lemma lt_ofZ (a b : Z) : lt (ofZ a) (ofZ b) = (a <? b)%Z.
Proof.
  unfold ofZ. destruct (Z.ltb_spec a b) as [L | G].
  - apply lt_Fin. rewrite <- Zlt_Qlt. exact L.
  - apply lt_Fin_false. rewrite <- Zle_Qle. exact G.
Qed.

Lemma max_ofZ (a b : Z) : max (ofZ a) (ofZ b) = ofZ (Z.max a b).
Proof.
  unfold max. cbn [isNaN ofZ orb]. unfold ofZ at 1 2. cbn [isNaN orb].
  fold (ofZ a). fold (ofZ b). rewrite lt_ofZ.
  destruct (Z.ltb_spec a b); f_equal; lia.
Qed.

Lemma min_ofZ (a b : Z) : min (ofZ a) (ofZ b) = ofZ (Z.min a b).
Proof.
  unfold min. unfold ofZ at 1 2. cbn [isNaN orb].
  fold (ofZ a). fold (ofZ b). rewrite lt_ofZ.
  destruct (Z.ltb_spec b a); f_equal; lia.
Qed.

Lemma clampChannel_Fin (q : Q) : clampChannel (Fin q) = ofZ (clampRound q).
Proof.
  unfold clampChannel, clampRound, round.
  rewrite max_ofZ, min_ofZ. reflexivity.
Qed.

Lemma toColor_fin (c : Centroid) :
  finColor c -> exists qr qg qb : Q,
    c = mkColor (Fin qr) (Fin qg) (Fin qb)
    /\ toColor c = rgb (clampRound qr) (clampRound qg) (clampRound qb).
Proof.
  destruct c as [x y z]. intros (Hx & Hy & Hz). cbn [r g b] in *.
  apply isFin_inv in Hx, Hy, Hz.
  destruct Hx as [qr ->], Hy as [qg ->], Hz as [qb ->].
  exists qr, qg, qb. split; [reflexivity|].
  unfold toColor, rgb. cbn [r g b]. rewrite !clampChannel_Fin. reflexivity.
Qed.

Lemma heavier_trans (u v w : num) : heavier u v -> heavier v w -> heavier u w.
Proof.
  intros (p & q & -> & -> & H1) (p' & q' & E & -> & H2).
  inversion E; subst. exists p, q'. repeat split.
  eapply Qle_trans; eassumption.
Qed.






(** *** The histogram *)

Lemma at_Some (A : Type) (l : list A) (i : Z) :
  (0 <= i < Z.of_nat (length l))%Z -> exists x, at_ l i = Some x.
Proof.
  intros H. unfold at_. destruct (Z.ltb_spec i 0); [lia|].
  destruct (nth_error l (Z.to_nat i)) eqn:E; [eexists; reflexivity|].
  apply nth_error_None in E. lia.
Qed.

Lemma updateAt_incr_sum (i : Z) (bins : list HistogramBin) :
  (0 <= i < Z.of_nat (length bins))%Z ->
  sumCounts (updateAt incr i bins) = (sumCounts bins + 1)%Z.
Proof.
  intros H. unfold updateAt. destruct (Z.ltb_spec i 0); [lia|].
  assert (Hn : (Z.to_nat i < length bins)%nat) by lia.
  revert Hn. generalize (Z.to_nat i) as n. clear.
  induction bins as [|x xs IH]; intros n Hn; [simpl in Hn; lia|].
  destruct n; cbn [sumCounts fold_right incr bin_count].
  - fold (sumCounts xs). lia.
  - fold (sumCounts xs). fold sumCounts.
    cbn [length] in Hn. specialize (IH n ltac:(lia)).
    unfold sumCounts in IH at 1. rewrite IH. lia.
Qed.

Lemma getBinIndex_range (v : Z) : isByte v -> (0 <= getBinIndex v < 32)%Z.
Proof.
  unfold isByte, getBinIndex, HISTOGRAM_BINS. intros H. split.
  - apply Z.div_pos; lia.
  - apply Z.div_lt_upper_bound; lia.
Qed.

Lemma updateHistogram_counts (h : Histogram) (m x y z : Z) :
  isByte x -> isByte y -> isByte z ->
  histogramOf m h -> histogramOf (m + 1) (updateHistogram h x y z).
Proof.
  intros Hx Hy Hz (Lr & Lg & Lb & Sr & Sg & Sb).
  apply getBinIndex_range in Hx, Hy, Hz.
  unfold updateHistogram.
  destruct (@at_Some _ (hist_r h) (getBinIndex x)) as [? ->]; [lia|].
  destruct (@at_Some _ (hist_g h) (getBinIndex y)) as [? ->]; [lia|].
  destruct (@at_Some _ (hist_b h) (getBinIndex z)) as [? ->]; [lia|].
  unfold histogramOf. cbn [hist_r hist_g hist_b].
  rewrite !updateAt_length, !updateAt_incr_sum by lia.
  repeat split; congruence.
Qed.

Lemma initializeHistogram_counts : histogramOf 0 initializeHistogram.
Proof. repeat split. Qed.

Section PixelLoop.
Variable Math_pow : num -> num -> num.
Variable pixels : list Z.
Hypothesis pixels_bytes : Forall isByte pixels.

Lemma processPixel_counts (t : Totals) (i : nat) (m : Z) :
  (i + 2 < length pixels)%nat ->
  histogramOf m (t_histogram t) ->
  histogramOf (m + 1) (t_histogram (processPixel Math_pow pixels t i)).
Proof.
  intros Hi Hm. unfold processPixel.
  destruct (nth_error pixels i) as [x|] eqn:Ex;
    [|apply nth_error_None in Ex; lia].
  destruct (nth_error pixels (i + 1)) as [y|] eqn:Ey;
    [|apply nth_error_None in Ey; lia].
  destruct (nth_error pixels (i + 2)) as [z|] eqn:Ez;
    [|apply nth_error_None in Ez; lia].
  cbn [t_histogram].
  rewrite Forall_forall in pixels_bytes.
  apply updateHistogram_counts;
    [apply pixels_bytes; eapply nth_error_In; eassumption .. | exact Hm].
Qed.

Lemma pixelLoop_counts (indices : list nat) :
  forall (t : Totals) (m : Z),
    Forall (fun i => (i + 2 < length pixels)%nat) indices ->
    histogramOf m (t_histogram t) ->
    histogramOf (m + Z.of_nat (length indices))
      (t_histogram (fold_left (processPixel Math_pow pixels) indices t)).
Proof.
  induction indices as [|i rest IH]; intros t m Hi Hm; cbn [fold_left length].
  - replace (m + Z.of_nat 0)%Z with m by lia. exact Hm.
  - inversion Hi; subst.
    replace (m + Z.of_nat (S (length rest)))%Z
      with ((m + 1) + Z.of_nat (length rest))%Z by lia.
    apply IH; [assumption|]. apply processPixel_counts; assumption.
Qed.

End PixelLoop.

Lemma pixelIndices_whole (len : nat) :
  (len mod 4 = 0)%nat ->
  length (pixelIndices len) = (len / 4)%nat
  /\ Forall (fun i => (i + 2 < len)%nat) (pixelIndices len).
Proof.
  intros H. unfold pixelIndices.
  pose proof (Nat.div_mod_eq len 4) as Hd.
  assert (E : ((len + 3) / 4 = len / 4)%nat).
  { symmetry. apply Nat.div_unique with 3%nat; lia. }
  rewrite E, length_map, length_seq. split; [reflexivity|].
  rewrite Forall_map, Forall_forall. intros j Hj.
  apply in_seq in Hj. lia.
Qed.

(** *** The analysis returns *)

Lemma extractColorPalette_returns (canvas : Canvas) (pixels : list Z)
    (paletteSize : Z) :
  context2d canvas = Some pixels ->
  exists colors, extractColorPalette canvas paletteSize = Some colors.
Proof.
  intros H. unfold extractColorPalette. rewrite H.
  destruct (length _ =? 0)%nat; eexists; reflexivity.
Qed.

Lemma extractDominantColors_returns (random : nat -> num)
    (colorCounts : ColorCounts) (k : Z) (n : nat) :
  validRandom random ->
  exists colors n', extractDominantColors random colorCounts k n = Some (colors, n').
Proof.
  intros Hr.
  destruct (extractDominantColors_cases colorCounts k n Hr)
    as [(_ & E) | [(_ & _ & E) | (_ & _ & H)]].
  - eexists _, _. exact E.
  - eexists _, _. exact E.
  - destruct H as (? & ? & ? & ? & ? & _ & _ & _ & _ & _ & E).
    eexists _, _. exact E.
Qed.

(** With a context and a valid random source the analysis returns, and
    its result is made of the results of its parts. *)
Lemma analyzeImageColors_returns (Math_pow : num -> num -> num)
    (random : nat -> num) (DOMINANT_COLORS_COUNT PALETTE_COLORS_COUNT : Z)
    (canvas : Canvas) (pixels : list Z) (n : nat) :
  validRandom random ->
  context2d canvas = Some pixels ->
  let t := fold_left (processPixel Math_pow pixels)
             (pixelIndices (length pixels)) initialTotals in
  let totalPixels := (ofNat (length pixels) / ofZ 4)%num in
  exists dominant n' representative candidates variance,
    extractDominantColors random (t_colorCounts t) DOMINANT_COLORS_COUNT n
    = Some (dominant, n')
    /\ extractColorPalette canvas PALETTE_COLORS_COUNT = Some representative
    /\ extractColorPalette canvas (PALETTE_COLORS_COUNT * CANDIDATE_SIZE_FACTOR)
       = Some candidates
    /\ calculateColorVariance canvas = Some variance
    /\ analyzeImageColors Math_pow random DOMINANT_COLORS_COUNT
         PALETTE_COLORS_COUNT canvas n
       = Some (mkVisualMetadata
                 (mkColor (round (totalR t / totalPixels))
                          (round (totalG t / totalPixels))
                          (round (totalB t / totalPixels)))
                 dominant representative
                 (selectDistinct candidates PALETTE_COLORS_COUNT)
                 (mkHistogram (hist_r (t_histogram t)) (hist_g (t_histogram t))
                              (hist_b (t_histogram t)) totalPixels)
                 (mkBrightness (totalBrightness t / totalPixels)
                               (minBrightness t) (maxBrightness t))
                 variance,
               n').
Proof.
  intros Hr Hc t totalPixels.
  destruct (@extractDominantColors_returns random (t_colorCounts t)
              DOMINANT_COLORS_COUNT n Hr) as (dom & n' & Ed).
  destruct (@extractColorPalette_returns canvas pixels PALETTE_COLORS_COUNT Hc)
    as (rep & Er).
  destruct (@extractColorPalette_returns canvas pixels
              (PALETTE_COLORS_COUNT * CANDIDATE_SIZE_FACTOR) Hc) as (cands & Ec).
  assert (Ev : exists v, calculateColorVariance canvas = Some v).
  { unfold calculateColorVariance. rewrite Hc. eexists; reflexivity. }
  destruct Ev as (var & Ev).
  exists dom, n', rep, cands, var.
  repeat (split; [assumption|]).
  unfold analyzeImageColors, extractDistinctColorPalette.
  rewrite Hc, Er, Ec, Ev. unfold bind, liftOption, ret.
  fold t. rewrite Ed. reflexivity.
Qed.

Lemma totalPixels_whole (len : nat) :
  (len mod 4 = 0)%nat -> (ofNat len / ofZ 4 == ofNat (len / 4))%num.
Proof.
  intros H. unfold ofNat, ofZ, div.
  change (Qeq_bool (inject_Z 4) 0) with false. cbn [equiv].
  pose proof (Nat.div_mod_eq len 4) as Hd.
  replace (Z.of_nat len) with (Z.of_nat (len / 4) * 4)%Z by lia.
  rewrite inject_Z_mult. field.
Qed.

(** C1.  For an RGBA pixel buffer (four values for each pixel, each an
    integer in [[0, 255]]), [analyzeImageColors] produces a histogram with
    32 bins for each channel; the bin counts of each of [r], [g] and [b]
    sum to [totalPixels], which is the number of pixels, the length of the
    buffer divided by four. *)
Theorem C1_histogram_counts_sum_to_totalPixels :
  forall (Math_pow : num -> num -> num) (random : nat -> num)
         (DOMINANT_COLORS_COUNT PALETTE_COLORS_COUNT w h : Z)
         (pixels : list Z) (n : nat),
    validRandom random ->
    (length pixels mod 4 = 0)%nat ->
    Forall isByte pixels ->
    exists md n',
      analyzeImageColors Math_pow random DOMINANT_COLORS_COUNT
        PALETTE_COLORS_COUNT (mkCanvas w h (Some pixels)) n = Some (md, n')
      /\ length (hist_r (histogram md)) = 32%nat
      /\ length (hist_g (histogram md)) = 32%nat
      /\ length (hist_b (histogram md)) = 32%nat
      /\ (ofZ (sumCounts (hist_r (histogram md))) == totalPixels (histogram md))%num
      /\ (ofZ (sumCounts (hist_g (histogram md))) == totalPixels (histogram md))%num
      /\ (ofZ (sumCounts (hist_b (histogram md))) == totalPixels (histogram md))%num
      /\ (totalPixels (histogram md) == ofNat (length pixels / 4))%num.
Proof.
  intros Math_pow random D P w h pixels n Hr Hlen Hb.
  destruct (@analyzeImageColors_returns Math_pow random D P
              (mkCanvas w h (Some pixels)) pixels n Hr eq_refl)
    as (dom & n' & rep & cands & var & _ & _ & _ & _ & E).
  eexists _, n'. split; [exact E|].
  cbn [histogram hist_r hist_g hist_b totalPixels].
  destruct (pixelIndices_whole (length pixels) Hlen) as [Hl Hi].
  pose proof (@pixelLoop_counts Math_pow pixels Hb (pixelIndices (length pixels))
                initialTotals 0 Hi initializeHistogram_counts)
    as (Lr & Lg & Lb & Sr & Sg & Sb).
  rewrite Hl in Sr, Sg, Sb.
  pose proof (totalPixels_whole (length pixels) Hlen) as Ht.
  assert (Hs : (ofZ (0 + Z.of_nat (length pixels / 4))
                == ofNat (length pixels) / ofZ 4)%num).
  { unfold ofNat, ofZ, div in *.
    change (Qeq_bool (inject_Z 4) 0) with false in *.
    cbn [equiv] in *. rewrite Ht. reflexivity. }
  rewrite Sr, Sg, Sb.
  repeat split; assumption.
Qed.

Lemma C1_witness :
  exists md n',
    analyzeImageColors (fun x _ => x) (fun _ => Fin (1 # 2)) 2 2
      (mkCanvas 2 1 (Some [255; 0; 0; 255; 0; 64; 255; 255]%Z)) 0%nat
    = Some (md, n')
    /\ (ofZ (sumCounts (hist_r (histogram md))) == totalPixels (histogram md))%num
    /\ (totalPixels (histogram md) == ofNat 2)%num.
Proof.
  destruct (@C1_histogram_counts_sum_to_totalPixels
              (fun x _ => x) (fun _ => Fin (1 # 2)) 2 2 2 1
              [255; 0; 0; 255; 0; 64; 255; 255]%Z 0%nat)
    as (md & n' & E & _ & _ & _ & Hr & _ & _ & Ht).
  - intros i. exists (1 # 2). split; [reflexivity|].
    split; [discriminate | reflexivity].
  - reflexivity.
  - repeat (constructor; [unfold isByte; lia|]). constructor.
  - exists md, n'. repeat split; assumption.
Defined.

(** *** The candidates of the distinct palette *)

Lemma extractColorPalette_length (canvas : Canvas) (paletteSize : Z)
    (colors : list Color) :
  extractColorPalette canvas paletteSize = Some colors ->
  (Z.of_nat (length colors) <= Z.max 1 paletteSize)%Z.
Proof.
  unfold extractColorPalette.
  destruct (context2d canvas) as [pixels|]; [|discriminate].
  destruct (length _ =? 0)%nat; intros E; inversion E; subst.
  - simpl. lia.
  - apply medianCutQuantize_length.
Qed.

(** C7, as amended.  When [analyzeImageColors] computes the distinct
    palette, the candidates given to the selection are the median-cut
    palette asked for at the size [PALETTE_COLORS_COUNT *
    CANDIDATE_SIZE_FACTOR], where [CANDIDATE_SIZE_FACTOR] is 12; the
    candidates are at most that many (and at most one for a size below
    one).  The factor 2 is what [extractDistinctColorPalette] takes when its
    caller leaves the argument out, which [analyzeImageColors] does not. *)
Theorem C7_candidate_palette_size :
  forall (Math_pow : num -> num -> num) (random : nat -> num)
         (DOMINANT_COLORS_COUNT PALETTE_COLORS_COUNT : Z)
         (canvas : Canvas) (pixels : list Z) (n : nat),
    validRandom random ->
    context2d canvas = Some pixels ->
    CANDIDATE_SIZE_FACTOR = 12%Z
    /\ (exists md n' candidates,
          analyzeImageColors Math_pow random DOMINANT_COLORS_COUNT
            PALETTE_COLORS_COUNT canvas n = Some (md, n')
          /\ extractColorPalette canvas (PALETTE_COLORS_COUNT * 12) = Some candidates
          /\ distinctPaletteColors md = selectDistinct candidates PALETTE_COLORS_COUNT
          /\ (Z.of_nat (length candidates) <= Z.max 1 (PALETTE_COLORS_COUNT * 12))%Z)
    /\ (forall distinctCount : Z,
          extractDistinctColorPalette canvas distinctCount None
          = option_map (fun candidates => selectDistinct candidates distinctCount)
              (extractColorPalette canvas (distinctCount * 2))).
Proof.
  intros Math_pow random D P canvas pixels n Hr Hc.
  split; [reflexivity|]. split.
  - destruct (@analyzeImageColors_returns Math_pow random D P canvas pixels n Hr Hc)
      as (dom & n' & rep & cands & var & _ & _ & Ec & _ & E).
    eexists _, n', cands. split; [exact E|].
    change CANDIDATE_SIZE_FACTOR with 12%Z in Ec.
    split; [exact Ec|]. split; [reflexivity|].
    eapply extractColorPalette_length. exact Ec.
  - intros distinctCount. unfold extractDistinctColorPalette.
    destruct (extractColorPalette canvas (distinctCount * 2)); reflexivity.
Qed.

Lemma C7_witness :
  exists md n' candidates,
    analyzeImageColors (fun x _ => x) (fun _ => Fin (1 # 2)) 2 2
      (mkCanvas 2 1 (Some [255; 0; 0; 255; 0; 64; 255; 255]%Z)) 0%nat
    = Some (md, n')
    /\ extractColorPalette
         (mkCanvas 2 1 (Some [255; 0; 0; 255; 0; 64; 255; 255]%Z)) (2 * 12)
       = Some candidates
    /\ distinctPaletteColors md = selectDistinct candidates 2.
Proof.
  destruct (@C7_candidate_palette_size
              (fun x _ => x) (fun _ => Fin (1 # 2)) 2 2
              (mkCanvas 2 1 (Some [255; 0; 0; 255; 0; 64; 255; 255]%Z))
              [255; 0; 0; 255; 0; 64; 255; 255]%Z 0%nat)
    as (_ & (md & n' & cands & E & Ec & Ed & _) & _).
  - intros i. exists (1 # 2). split; [reflexivity|].
    split; [discriminate | reflexivity].
  - reflexivity.
  - exists md, n', cands. repeat split; assumption.
Defined.

(** C7 as it is stated fails.  For a row of twelve pixels of twelve
    colours and a palette size of one, the candidates given to the selection
    are twelve, not [1 * 2]: the factor in use is 12.  And the size asked
    for is a bound only: for a row of three pixels of three colours the
    candidates are three, neither [1 * 2] nor [1 * 12]. *)
Lemma C7_counterexample :
  let twelve :=
    mkCanvas 12 1
      (Some [10; 10; 10; 255;   30; 10; 10; 255;   50; 10; 10; 255;
             70; 10; 10; 255;   90; 10; 10; 255;  110; 10; 10; 255;
             130; 10; 10; 255; 150; 10; 10; 255;  170; 10; 10; 255;
             190; 10; 10; 255; 210; 10; 10; 255;  230; 10; 10; 255]%Z) in
  let three :=
    mkCanvas 3 1 (Some [255; 0; 0; 255;  0; 255; 0; 255;  0; 0; 255; 255]%Z) in
  (exists md n' candidates,
     analyzeImageColors (fun x _ => x) (fun _ => Fin (1 # 2)) 1 1 twelve 0%nat
     = Some (md, n')
     /\ extractColorPalette twelve (1 * CANDIDATE_SIZE_FACTOR) = Some candidates
     /\ distinctPaletteColors md = selectDistinct candidates 1
     /\ length candidates = 12%nat
     /\ Z.of_nat (length candidates) <> (1 * 2)%Z)
  /\ (exists md n' candidates,
        analyzeImageColors (fun x _ => x) (fun _ => Fin (1 # 2)) 1 1 three 0%nat
        = Some (md, n')
        /\ extractColorPalette three (1 * CANDIDATE_SIZE_FACTOR) = Some candidates
        /\ distinctPaletteColors md = selectDistinct candidates 1
        /\ length candidates = 3%nat
        /\ Z.of_nat (length candidates) <> (1 * 2)%Z
        /\ Z.of_nat (length candidates) <> (1 * CANDIDATE_SIZE_FACTOR)%Z).
Proof.
  intros twelve three.
  assert (Hr : validRandom (fun _ => Fin (1 # 2))).
  { intros i. exists (1 # 2). split; [reflexivity|].
    split; [discriminate | reflexivity]. }
  split.
  - destruct (@analyzeImageColors_returns (fun x _ => x) (fun _ => Fin (1 # 2))
                1 1 twelve _ 0%nat Hr eq_refl)
      as (dom & n' & rep & cands & var & _ & _ & Ec & _ & E).
    eexists _, n', cands. split; [exact E|]. split; [exact Ec|].
    split; [reflexivity|].
    assert (Hl : length cands = 12%nat).
    { vm_compute in Ec. inversion Ec. reflexivity. }
    rewrite Hl. split; [reflexivity | discriminate].
  - destruct (@analyzeImageColors_returns (fun x _ => x) (fun _ => Fin (1 # 2))
                1 1 three _ 0%nat Hr eq_refl)
      as (dom & n' & rep & cands & var & _ & _ & Ec & _ & E).
    eexists _, n', cands. split; [exact E|]. split; [exact Ec|].
    split; [reflexivity|].
    assert (Hl : length cands = 3%nat).
    { vm_compute in Ec. inversion Ec. reflexivity. }
    rewrite Hl. split; [reflexivity|]. split; discriminate.
Qed.

(** *** The selection of distinct colours *)

Lemma finDist_inv (d : Dist) : finDist d -> exists q, d = mkDist (Fin q).
Proof.
  destruct d as [x]. unfold finDist. cbn [signedSquare]. intros H.
  apply isFin_inv in H. destruct H as [q ->]. exists q. reflexivity.
Qed.

Lemma distLt_Fin (p q : Q) :
  distLt (mkDist (Fin p)) (mkDist (Fin q)) = true <-> (p < q)%Q.
Proof. unfold distLt. cbn [signedSquare]. apply lt_Fin. Qed.

Lemma distLt_Fin_false (p q : Q) :
  distLt (mkDist (Fin p)) (mkDist (Fin q)) = false <-> (q <= p)%Q.
Proof. unfold distLt. cbn [signedSquare]. apply lt_Fin_false. Qed.

(** Goals on the order of finite distances, by the order of [Q]. *)
Ltac dist_order :=
  repeat match goal with
         | H : finDist ?d |- _ =>
             let q := fresh "q" in
             apply finDist_inv in H; destruct H as [q ->]
         end;
  repeat match goal with
         | H : distLt _ _ = true |- _ => apply distLt_Fin in H
         | H : distLt _ _ = false |- _ => apply distLt_Fin_false in H
         end;
  try (apply distLt_Fin); try (apply distLt_Fin_false);
  lra.

Lemma distLt_le_lt (a c d : Dist) :
  finDist a -> finDist c -> finDist d ->
  distLt c a = false -> distLt c d = true -> distLt a d = true.
Proof. intros Ha Hc Hd H1 H2. dist_order. Qed.

Lemma distLt_lt_le (a c d : Dist) :
  finDist a -> finDist c -> finDist d ->
  distLt a c = true -> distLt d c = false -> distLt a d = true.
Proof. intros Ha Hc Hd H1 H2. dist_order. Qed.

Lemma distLt_le_le (a c d : Dist) :
  finDist a -> finDist c -> finDist d ->
  distLt c a = false -> distLt d c = false -> distLt d a = false.
Proof. intros Ha Hc Hd H1 H2. dist_order. Qed.

Lemma distLt_lt_not (a c : Dist) :
  finDist a -> finDist c -> distLt a c = true -> distLt c a = false.
Proof. intros Ha Hc H. dist_order. Qed.

Lemma distLt_irrefl (a : Dist) : finDist a -> distLt a a = false.
Proof. intros Ha. dist_order. Qed.

Lemma Qsquare_nonneg (t : Q) : (0 <= t * t)%Q.
Proof.
  unfold Qle. cbn [Qnum Qden Qmult]. rewrite Z.mul_1_r. cbn [Z.mul].
  apply Z.square_nonneg.
Qed.

Lemma colorDistance_fin (c s : Color) :
  finColor c -> finColor s -> finDist (colorDistance c s).
Proof.
  destruct c as [x1 y1 z1], s as [x2 y2 z2].
  intros (H1 & H2 & H3) (H4 & H5 & H6). cbn [r g b] in *.
  apply isFin_inv in H1, H2, H3, H4, H5, H6.
  destruct H1 as [a1 ->], H2 as [a2 ->], H3 as [a3 ->].
  destruct H4 as [c1 ->], H5 as [c2 ->], H6 as [c3 ->].
  unfold colorDistance, finDist, Math_sqrt. cbn [r g b signedSquare].
  unfold sub, neg, add, mul, ofZ.
  match goal with
  | |- isFin (if lt (Fin ?x) (Fin ?y) then _ else _) =>
      destruct (lt (Fin x) (Fin y)) eqn:E; [|exact I]
  end.
  apply lt_Fin in E. change (inject_Z 0) with 0%Q in E.
  pose proof (Qsquare_nonneg (a1 + - c1)).
  pose proof (Qsquare_nonneg (a2 + - c2)).
  pose proof (Qsquare_nonneg (a3 + - c3)).
  lra.
Qed.

Section LeastDistance.
Variable c : Color.
Hypothesis c_fin : finColor c.

Lemma minDistance_fold (rest : list Color) :
  forall (seen : list Color) (M : Dist),
    Forall finColor seen -> Forall finColor rest ->
    (seen = [] /\ M = mkDist PInf) \/ (finDist M /\ isMinDistance c seen M) ->
    let M' :=
      fold_left
        (fun minDistance sel =>
           let distance := colorDistance c sel in
           if distLt distance minDistance then distance else minDistance)
        rest M in
    (seen ++ rest = [] /\ M' = mkDist PInf)
    \/ (finDist M' /\ isMinDistance c (seen ++ rest) M').
Proof.
  induction rest as [|s rest IH]; intros seen M Hseen Hrest HM.
  - cbn [fold_left]. rewrite app_nil_r. exact HM.
  - inversion Hrest as [|? ? Hs Hrest']; subst.
    cbn [fold_left]. cbv zeta.
    replace (seen ++ s :: rest) with ((seen ++ [s]) ++ rest)
      by (rewrite <- app_assoc; reflexivity).
    assert (Hd : finDist (colorDistance c s)) by (apply colorDistance_fin; assumption).
    apply IH; [apply Forall_app; split; [exact Hseen | constructor; [exact Hs | constructor]]
              | exact Hrest' |].
    right.
    destruct HM as [[-> ->] | [HfM [[s0 [Hs0 HM0]] Hmin]]].
    + replace (distLt (colorDistance c s) (mkDist PInf)) with true.
      * split; [exact Hd|]. split.
        -- exists s. split; [left; reflexivity | reflexivity].
        -- intros s' [<- | []]. apply distLt_irrefl. exact Hd.
      * destruct (@finDist_inv _ Hd) as [q ->]. reflexivity.
    + destruct (distLt (colorDistance c s) M) eqn:E.
      * split; [exact Hd|]. split.
        -- exists s. split; [apply in_or_app; right; left; reflexivity | reflexivity].
        -- intros s' Hin. apply in_app_or in Hin. destruct Hin as [Hin | [<- | []]].
           ++ assert (Hd' : finDist (colorDistance c s')).
              { apply colorDistance_fin; [exact c_fin|].
                rewrite Forall_forall in Hseen. apply Hseen, Hin. }
              specialize (Hmin s' Hin).
              apply distLt_lt_not; [exact Hd | exact Hd' |].
              eapply distLt_lt_le with (c := M); eassumption.
           ++ apply distLt_irrefl. exact Hd.
      * split; [exact HfM|]. split.
        -- exists s0. split; [apply in_or_app; left; exact Hs0 | exact HM0].
        -- intros s' Hin. apply in_app_or in Hin. destruct Hin as [Hin | [<- | []]].
           ++ apply Hmin, Hin.
           ++ exact E.
Qed.

Lemma minDistanceTo_spec (selected : list Color) :
  Forall finColor selected -> selected <> [] ->
  finDist (minDistanceTo c selected)
  /\ isMinDistance c selected (minDistanceTo c selected).
Proof.
  intros Hsel Hne.
  destruct (@minDistance_fold selected [] (mkDist PInf) (Forall_nil _) Hsel)
    as [[E _] | H]; [left; split; reflexivity | | exact H].
  cbn [app] in E. congruence.
Qed.

End LeastDistance.

Lemma isMinDistance_fin (c : Color) (selected : list Color) (m : Dist) :
  finColor c -> Forall finColor selected -> isMinDistance c selected m -> finDist m.
Proof.
  intros Hc Hsel [[s [Hs ->]] _].
  apply colorDistance_fin; [exact Hc|].
  rewrite Forall_forall in Hsel. apply Hsel, Hs.
Qed.

Lemma isMinDistance_same (c : Color) (selected : list Color) (m m' : Dist) :
  isMinDistance c selected m -> isMinDistance c selected m' ->
  distLt m m' = false /\ distLt m' m = false.
Proof.
  intros [[s [Hs ->]] H1] [[s' [Hs' ->]] H2]. split; [apply H2, Hs | apply H1, Hs'].
Qed.

Lemma nth_error_Some_lt (A : Type) (l : list A) (n : nat) (x : A) :
  nth_error l n = Some x -> (n < length l)%nat.
Proof. intros H. apply nth_error_Some. congruence. Qed.

Section FarthestCandidate.
Variable selected : list Color.
Hypothesis selected_fin : Forall finColor selected.
Hypothesis selected_not_empty : selected <> [].

Lemma minDistanceTo_fin (c : Color) : finColor c -> finDist (minDistanceTo c selected).
Proof. intros Hc. apply minDistanceTo_spec; assumption. Qed.

Lemma farthest_scan (rest : list Color) :
  forall (seen : list Color) (acc : option nat) (M : Dist),
    Forall finColor seen -> Forall finColor rest ->
    bestSoFar selected seen acc M ->
    exists M',
      bestSoFar selected (seen ++ rest)
        (farthest rest selected (length seen) acc M) M'.
Proof.
  induction rest as [|c rest IH]; intros seen acc M Hseen Hrest Hbest.
  - cbn [farthest]. rewrite app_nil_r. exists M. exact Hbest.
  - inversion Hrest as [|? ? Hc Hrest']; subst.
    cbn [farthest]. cbv zeta.
    replace (seen ++ c :: rest) with ((seen ++ [c]) ++ rest)
      by (rewrite <- app_assoc; reflexivity).
    replace (S (length seen)) with (length (seen ++ [c]))
      by (rewrite length_app; simpl; lia).
    assert (Hseen' : Forall finColor (seen ++ [c])).
    { apply Forall_app. split; [exact Hseen | constructor; [exact Hc | constructor]]. }
    assert (Hd : finDist (minDistanceTo c selected)) by (apply minDistanceTo_fin; exact Hc).
    assert (Hlast : nth_error (seen ++ [c]) (length seen) = Some c).
    { rewrite nth_error_app2 by lia. rewrite Nat.sub_diag. reflexivity. }
    unfold distGt.
    destruct (distLt M (minDistanceTo c selected)) eqn:E.
    + apply IH; [exact Hseen' | exact Hrest' |].
      cbn [bestSoFar]. exists c. split; [exact Hlast|]. split; [reflexivity|].
      intros j' c' Hj'.
      destruct (Nat.lt_ge_cases j' (length seen)) as [L | G].
      * rewrite nth_error_app1 in Hj' by exact L.
        assert (Hd' : finDist (minDistanceTo c' selected)).
        { apply minDistanceTo_fin. rewrite Forall_forall in Hseen.
          eapply Hseen, nth_error_In, Hj'. }
        destruct acc as [j|]; cbn [bestSoFar] in Hbest.
        -- destruct Hbest as (cj & Hcj & -> & Hall).
           destruct (Hall j' c' Hj') as [Hle _].
           assert (Hlt : distLt (minDistanceTo c' selected) (minDistanceTo c selected) = true).
           { eapply distLt_le_lt with (c := minDistanceTo cj selected);
               try eassumption.
             apply minDistanceTo_fin. rewrite Forall_forall in Hseen.
             eapply Hseen, nth_error_In, Hcj. }
           split; [apply distLt_lt_not; assumption | intros _; exact Hlt].
        -- destruct Hbest as [-> _]. simpl in L. lia.
      * assert (j' = length seen).
        { apply nth_error_Some_lt in Hj'. rewrite length_app in Hj'. simpl in Hj'. lia. }
        subst j'. rewrite Hlast in Hj'. inversion Hj'; subst c'.
        split; [apply distLt_irrefl; exact Hd | lia].
    + apply IH; [exact Hseen' | exact Hrest' |].
      destruct acc as [j|]; cbn [bestSoFar] in *.
      * destruct Hbest as (cj & Hcj & -> & Hall).
        exists cj. split; [rewrite nth_error_app1; [exact Hcj|];
                           apply nth_error_Some_lt in Hcj; exact Hcj|].
        split; [reflexivity|].
        intros j' c' Hj'.
        destruct (Nat.lt_ge_cases j' (length seen)) as [L | G].
        -- rewrite nth_error_app1 in Hj' by exact L. apply Hall, Hj'.
        -- assert (j' = length seen).
           { apply nth_error_Some_lt in Hj'. rewrite length_app in Hj'. simpl in Hj'. lia. }
           subst j'. rewrite Hlast in Hj'. inversion Hj'; subst c'.
           split; [exact E|]. intros Hlt.
           apply nth_error_Some_lt in Hcj. lia.
      * destruct Hbest as [_ ->].
        destruct (@finDist_inv _ Hd) as [q Hq]. rewrite Hq in E. discriminate E.
Qed.

Lemma farthest_spec (remaining : list Color) :
  Forall finColor remaining -> remaining <> [] ->
  exists i c,
    farthest remaining selected 0 None (mkDist NInf) = Some i
    /\ isFarthestFirst selected remaining i c.
Proof.
  intros Hrem Hne.
  destruct (@farthest_scan remaining [] None (mkDist NInf) (Forall_nil _) Hrem)
    as [M HM]; [split; reflexivity|].
  cbn [app length] in HM.
  destruct (farthest remaining selected 0 None (mkDist NInf)) as [i|];
    cbn [bestSoFar] in HM; [|destruct HM; congruence].
  destruct HM as (c & Hc & -> & Hall).
  assert (Hcf : finColor c).
  { rewrite Forall_forall in Hrem. eapply Hrem, nth_error_In, Hc. }
  exists i, c. split; [reflexivity|]. split; [exact Hc|].
  exists (minDistanceTo c selected).
  split; [apply minDistanceTo_spec; assumption|].
  intros j c' m' Hj Hm'.
  assert (Hcf' : finColor c').
  { rewrite Forall_forall in Hrem. eapply Hrem, nth_error_In, Hj. }
  destruct (Hall j c' Hj) as [Hle Hlt].
  destruct (@minDistanceTo_spec c' Hcf' selected selected_fin selected_not_empty)
    as [Hfd' Hmin'].
  destruct (isMinDistance_same Hm' Hmin') as [H1 H2].
  assert (Hfm' : finDist m') by exact (isMinDistance_fin Hcf' selected_fin Hm').
  assert (Hfd : finDist (minDistanceTo c selected)) by (apply minDistanceTo_fin; exact Hcf).
  split.
  - eapply distLt_le_le with (c := minDistanceTo c' selected); assumption.
  - intros L. specialize (Hlt L).
    eapply distLt_le_lt with (c := minDistanceTo c' selected); assumption.
Qed.

End FarthestCandidate.

Lemma removeAt_length (A : Type) (i : nat) (l : list A) :
  (i < length l)%nat -> length (removeAt i l) = (length l - 1)%nat.
Proof.
  intros H. unfold removeAt.
  rewrite length_app, length_firstn, length_skipn. lia.
Qed.

Lemma removeAt_Forall (A : Type) (P : A -> Prop) (i : nat) (l : list A) :
  Forall P l -> Forall P (removeAt i l).
Proof.
  intros H. unfold removeAt. apply Forall_app. split.
  - rewrite Forall_forall in *. intros x Hx. apply H.
    rewrite <- (firstn_skipn i l). apply in_or_app. left. exact Hx.
  - rewrite Forall_forall in *. intros x Hx. apply H.
    rewrite <- (firstn_skipn (S i) l). apply in_or_app. right. exact Hx.
Qed.

Lemma selectLoop_greedy (distinctCount : Z) (fuel : nat) :
  forall selected remaining : list Color,
    (length remaining <= fuel)%nat -> selected <> [] ->
    Forall finColor selected -> Forall finColor remaining ->
    Greedy distinctCount selected remaining
      (selectLoop fuel selected remaining distinctCount).
Proof.
  induction fuel as [|fuel IH]; intros selected remaining Hlen Hne Hsel Hrem.
  - cbn [selectLoop]. apply Greedy_stop. right.
    destruct remaining; [reflexivity | simpl in Hlen; lia].
  - cbn [selectLoop].
    destruct (Z.ltb_spec (Z.of_nat (length selected)) distinctCount) as [L | G];
      [|apply Greedy_stop; left; exact G].
    destruct remaining as [|c0 rest] eqn:Er;
      [apply Greedy_stop; right; reflexivity|].
    rewrite <- Er in *. cbn [andb].
    replace (0 <? length remaining)%nat with true by (rewrite Er; reflexivity).
    destruct (@farthest_spec selected Hsel Hne remaining Hrem) as (i & c & -> & Hf);
      [rewrite Er; discriminate|].
    pose proof Hf as [Hi _]. rewrite Hi.
    assert (Hcf : finColor c).
    { rewrite Forall_forall in Hrem. eapply Hrem, nth_error_In, Hi. }
    apply nth_error_Some_lt in Hi.
    apply Greedy_step with (i := i) (c := c); [exact L | exact Hf |].
    apply IH.
    + rewrite removeAt_length by exact Hi. lia.
    + destruct selected; discriminate.
    + apply Forall_app. split; [exact Hsel | constructor; [exact Hcf | constructor]].
    + apply removeAt_Forall. exact Hrem.
Qed.










(** *** The block variance *)

Lemma fold_left_ext (A B : Type) (f f' : A -> B -> A) (l : list B) :
  (forall s x, f s x = f' s x) -> forall s, fold_left f l s = fold_left f' l s.
Proof.
  intros H. induction l as [|x l IH]; intros s; cbn [fold_left]; [reflexivity|].
  rewrite H. apply IH.
Qed.

Lemma fold_left_map (A B C : Type) (f : A -> C -> A) (g : B -> C) (l : list B) :
  forall s, fold_left f (map g l) s = fold_left (fun s x => f s (g x)) l s.
Proof.
  induction l as [|x l IH]; intros s; cbn [fold_left map]; [reflexivity|].
  apply IH.
Qed.

Lemma fold_left_flat_map (A B C : Type) (f : A -> C -> A) (g : B -> list C)
    (l : list B) :
  forall s,
    fold_left f (flat_map g l) s = fold_left (fun s y => fold_left f (g y) s) l s.
Proof.
  induction l as [|y l IH]; intros s; cbn [fold_left flat_map]; [reflexivity|].
  rewrite fold_left_app. apply IH.
Qed.

Lemma fold_left_filterSome (A B C : Type) (f : B -> option C) (g : A -> C -> A)
    (l : list B) :
  forall s,
    fold_left (fun s x => match f x with Some p => g s p | None => s end) l s
    = fold_left g (filterSome (map f l)) s.
Proof.
  induction l as [|x l IH]; intros s; cbn [fold_left map filterSome];
    [reflexivity|].
  destruct (f x); cbn [fold_left]; apply IH.
Qed.

Lemma fold_left_snoc (A : Type) (l : list A) :
  forall acc, fold_left (fun acc v => acc ++ [v]) l acc = acc ++ l.
Proof.
  induction l as [|x l IH]; intros acc; cbn [fold_left].
  - rewrite app_nil_r. reflexivity.
  - rewrite IH, <- app_assoc. reflexivity.
Qed.

(** The nested loops over a block visit its coordinates row by row. *)
Lemma overBlock_coords (S : Type) (x0 x1 y0 y1 : Z) (body : Z -> Z -> S -> S)
    (s : S) :
  overBlock x0 x1 y0 y1 body s
  = fold_left (fun s xy => body (fst xy) (snd xy) s)
      (flat_map (fun y => map (fun x => (x, y)) (range x0 x1)) (range y0 y1)) s.
Proof.
  unfold overBlock. rewrite fold_left_flat_map.
  apply fold_left_ext. intros s' y. rewrite fold_left_map. reflexivity.
Qed.

Lemma countedPixel_spec (pixels : list Z) (w x y : Z) :
  countedPixel pixels w x y
  = match pixelAt pixels w x y with
    | Some p => if isCounted p then Some p else None
    | None => None
    end.
Proof.
  unfold countedPixel, pixelAt, isCounted.
  destruct (at_ pixels ((y * w + x) * 4)) as [r0|]; [|reflexivity].
  destruct (at_ pixels ((y * w + x) * 4 + 1)) as [g0|]; [|reflexivity].
  destruct (at_ pixels ((y * w + x) * 4 + 2)) as [b0|]; [|reflexivity].
  destruct (r0 =? 0)%Z, (g0 =? 0)%Z, (b0 =? 0)%Z; reflexivity.
Qed.

Lemma totals_fold (ps : list (Z * Z * Z)) :
  forall a c d n : Z,
    fold_left
      (fun (t : Z * Z * Z * Z) (p : Z * Z * Z) =>
         let '(totalR, totalG, totalB, pixelCount) := t in
         let '(r0, g0, b0) := p in
         (totalR + r0, totalG + g0, totalB + b0, pixelCount + 1)%Z)
      ps (a, c, d, n)
    = (fold_left Z.add (map red ps) a, fold_left Z.add (map green ps) c,
       fold_left Z.add (map blue ps) d, (n + Z.of_nat (length ps))%Z).
Proof.
  induction ps as [|[[r0 g0] b0] ps IH]; intros a c d n.
  - cbn [fold_left map length]. rewrite Z.add_0_r. reflexivity.
  - cbn [fold_left map length]. rewrite IH.
    cbn [red green blue fst snd]. f_equal. lia.
Qed.

Lemma squares_fold (mR mG mB : num) (ps : list (Z * Z * Z)) :
  forall a c d : num,
    fold_left
      (fun (t : num * num * num) (p : Z * Z * Z) =>
         let '(varR, varG, varB) := t in
         let '(r0, g0, b0) := p in
         ((varR + (ofZ r0 - mR) * (ofZ r0 - mR))%num,
          (varG + (ofZ g0 - mG) * (ofZ g0 - mG))%num,
          (varB + (ofZ b0 - mB) * (ofZ b0 - mB))%num))
      ps (a, c, d)
    = (fold_left add (map (fun v => (ofZ v - mR) * (ofZ v - mR))%num (map red ps)) a,
       fold_left add (map (fun v => (ofZ v - mG) * (ofZ v - mG))%num (map green ps)) c,
       fold_left add (map (fun v => (ofZ v - mB) * (ofZ v - mB))%num (map blue ps)) d).
Proof.
  induction ps as [|[[r0 g0] b0] ps IH]; intros a c d.
  - reflexivity.
  - cbn [fold_left map]. rewrite IH. reflexivity.
Qed.

Section Passes.
Variable pixels : list Z.
Variable w x0 x1 y0 y1 : Z.

(** The counted pixels among the coordinates of the loops. *)
Let ps : list (Z * Z * Z) :=
  filterSome
    (map (fun xy => match pixelAt pixels w (fst xy) (snd xy) with
                    | Some p => if isCounted p then Some p else None
                    | None => None
                    end)
         (flat_map (fun y => map (fun x => (x, y)) (range x0 x1)) (range y0 y1))).

Lemma firstPass :
  overBlock x0 x1 y0 y1
    (fun x y '(totalR, totalG, totalB, pixelCount) =>
       match countedPixel pixels w x y with
       | None => (totalR, totalG, totalB, pixelCount)
       | Some (r, g, b) =>
           (totalR + r, totalG + g, totalB + b, pixelCount + 1)%Z
       end)
    (0, 0, 0, 0)%Z
  = (sumZ (map red ps), sumZ (map green ps), sumZ (map blue ps),
     Z.of_nat (length ps)).
Proof.
  rewrite overBlock_coords.
  erewrite fold_left_ext.
  - rewrite fold_left_filterSome. fold ps. rewrite totals_fold. reflexivity.
  - intros [[[a c] d] n] xy. cbv beta. rewrite countedPixel_spec.
    destruct (pixelAt pixels w (fst xy) (snd xy)) as [[[r0 g0] b0]|];
      [|reflexivity].
    destruct (isCounted (r0, g0, b0)); reflexivity.
Qed.

Lemma secondPass (meanR meanG meanB : num) :
  overBlock x0 x1 y0 y1
    (fun x y '(varR, varG, varB) =>
       match countedPixel pixels w x y with
       | None => (varR, varG, varB)
       | Some (r, g, b) =>
           let diffR := (ofZ r - meanR)%num in
           let diffG := (ofZ g - meanG)%num in
           let diffB := (ofZ b - meanB)%num in
           ((varR + diffR * diffR)%num, (varG + diffG * diffG)%num,
            (varB + diffB * diffB)%num)
       end)
    (ofZ 0, ofZ 0, ofZ 0)
  = (sumNum (map (fun v => (ofZ v - meanR) * (ofZ v - meanR))%num (map red ps)),
     sumNum (map (fun v => (ofZ v - meanG) * (ofZ v - meanG))%num (map green ps)),
     sumNum (map (fun v => (ofZ v - meanB) * (ofZ v - meanB))%num (map blue ps))).
Proof.
  rewrite overBlock_coords.
  erewrite fold_left_ext.
  - rewrite fold_left_filterSome. fold ps.
    rewrite (squares_fold meanR meanG meanB). reflexivity.
  - intros [[a c] d] xy. cbv beta. rewrite countedPixel_spec.
    destruct (pixelAt pixels w (fst xy) (snd xy)) as [[[r0 g0] b0]|];
      [|reflexivity].
    destruct (isCounted (r0, g0, b0)); reflexivity.
Qed.

End Passes.

Lemma blockVariance_spec (pixels : list Z) (w h tx ty : Z) :
  blockVariance pixels w h tx ty = tileVariance pixels w h (tx, ty).
Proof.
  unfold blockVariance, tileVariance, countedPixels, tileCoords, BLOCK_SIZE.
  cbn [fst snd].
  rewrite firstPass.
  rewrite (Z.mul_comm tx 16), (Z.mul_comm ty 16).
  set (ps := filterSome _).
  destruct ps as [|p ps'] eqn:Eps; [reflexivity|]. rewrite <- Eps.
  replace (Z.of_nat (length ps) =? 0)%Z with false
    by (rewrite Eps; reflexivity).
  rewrite secondPass. fold ps.
  unfold populationVariance, mean. rewrite !length_map. reflexivity.
Qed.

Lemma ceilDiv_16 (a : Z) : ceilDiv a BLOCK_SIZE = ((a + 15) / 16)%Z.
Proof.
  unfold ceilDiv, BLOCK_SIZE.
  pose proof (Z.div_mod (- a) 16 ltac:(lia)).
  pose proof (Z.mod_pos_bound (- a) 16 ltac:(lia)).
  pose proof (Z.div_mod (a + 15) 16 ltac:(lia)).
  pose proof (Z.mod_pos_bound (a + 15) 16 ltac:(lia)).
  lia.
Qed.

(** The loops over the blocks collect the variances of the tiles. *)
Lemma blockVariances_spec (pixels : list Z) (w h : Z) :
  blockVariances pixels w h = tileVariances pixels w h.
Proof.
  unfold blockVariances, tileVariances, tiles.
  rewrite !ceilDiv_16.
  rewrite <- (app_nil_l (filterSome _)).
  rewrite <- fold_left_snoc, <- fold_left_filterSome, fold_left_flat_map.
  apply fold_left_ext. intros acc ty.
  rewrite fold_left_map.
  apply fold_left_ext. intros acc' tx.
  rewrite blockVariance_spec. reflexivity.
Qed.









(** Two pixels in one block: the variances are 25, 0 and 100. *)
Example calculateColorVariance_example :
  calculateColorVariance
    (mkCanvas 2 1 (Some [10; 20; 30; 255; 20; 20; 10; 255]%Z))
  = Some (mkColor (Fin (800 # 32)) (ofZ 0) (Fin (3200 # 32))).
Proof. vm_compute. reflexivity. Qed.

(** *** The palette of a canvas of bytes *)

Lemma allDigits_noComma (s : string) : allDigits s = true -> noComma s = true.
Proof.
  induction s as [|c s IH]; intros H; [reflexivity|].
  cbn [allDigits] in H. destruct (digitOf c) as [d|] eqn:E; [|discriminate].
  destruct (digit_not_special c E) as (_ & _ & _ & Hc).
  cbn [noComma]. rewrite Hc. apply IH. exact H.
Qed.

Lemma split_prefix (s rest : string) :
  noComma s = true ->
  split ","%char (s ++ String ","%char rest) = s :: split ","%char rest.
Proof.
  induction s as [|c s IH]; intros H; cbn [split String.append]; [reflexivity|].
  cbn [noComma] in H. apply andb_true_iff in H. destruct H as [Hc Hs].
  apply negb_true_iff in Hc. rewrite Hc, IH by exact Hs. reflexivity.
Qed.

Lemma split_last (s : string) : noComma s = true -> split ","%char s = [s].
Proof.
  induction s as [|c s IH]; intros H; cbn [split]; [reflexivity|].
  cbn [noComma] in H. apply andb_true_iff in H. destruct H as [Hc Hs].
  apply negb_true_iff in Hc. rewrite Hc, IH by exact Hs. reflexivity.
Qed.

Lemma showElem_parse (v : option Z) :
  byteOrUndefined v ->
  noComma (showElem v) = true /\ parseInt (showElem v) = v.
Proof.
  destruct v as [x|]; cbn [byteOrUndefined showElem]; [|split; reflexivity].
  intros H. destruct (@intToString_nonneg x) as (A & S & P); [lia|].
  split; [apply allDigits_noComma; exact A|].
  rewrite parseInt_digits by exact S. rewrite P. reflexivity.
Qed.

Lemma parts_of_key (x y z : option Z) :
  byteOrUndefined x -> byteOrUndefined y -> byteOrUndefined z ->
  map parseInt
    (split ","%char (showElem x ++ "," ++ showElem y ++ "," ++ showElem z)%string)
  = [x; y; z].
Proof.
  intros Hx Hy Hz.
  destruct (showElem_parse x Hx) as [Nx Px].
  destruct (showElem_parse y Hy) as [Ny Py].
  destruct (showElem_parse z Hz) as [Nz Pz].
  change (showElem x ++ "," ++ showElem y ++ "," ++ showElem z)%string
    with (showElem x ++ String ","%char
            (showElem y ++ String ","%char (showElem z)))%string.
  rewrite !split_prefix, split_last by assumption.
  cbn [map]. rewrite Px, Py, Pz. reflexivity.
Qed.

Lemma maxList_bytes (x y z : Z) :
  maxList [ofZ x; ofZ y; ofZ z] = ofZ (Z.max (Z.max x y) z).
Proof.
  unfold maxList. cbn [fold_left].
  change (max NInf (ofZ x)) with (ofZ x). rewrite !max_ofZ. reflexivity.
Qed.

Lemma minList_bytes (x y z : Z) :
  minList [ofZ x; ofZ y; ofZ z] = ofZ (Z.min (Z.min x y) z).
Proof.
  unfold minList. cbn [fold_left].
  change (min PInf (ofZ x)) with (ofZ x). rewrite !min_ofZ. reflexivity.
Qed.

(** The saturation of a colour of bytes is a finite number, not negative. *)
Lemma getSaturation_bytes (x y z : Z) :
  (0 <= x)%Z -> (0 <= y)%Z -> (0 <= z)%Z ->
  exists s : Q, getSaturation (rgb x y z) = Fin s /\ (0 <= s)%Q.
Proof.
  intros Hx Hy Hz. unfold getSaturation, rgb. cbn [r g b].
  rewrite maxList_bytes, minList_bytes.
  set (mx := Z.max (Z.max x y) z). set (mn := Z.min (Z.min x y) z).
  unfold eq, ofZ.
  destruct (Qeq_bool (inject_Z mx) (inject_Z 0)) eqn:E.
  - exists (inject_Z 0). split; [reflexivity | discriminate].
  - unfold sub, neg, add, div.
    change (Qeq_bool (inject_Z mx) 0) with (Qeq_bool (inject_Z mx) (inject_Z 0)).
    rewrite E. eexists. split; [reflexivity|].
    apply Qeq_bool_false in E. rewrite inject_Z_injective in E.
    assert (Hmx : (0 < mx)%Z) by lia.
    assert (Hmn : (mn <= mx)%Z) by lia.
    apply Qle_shift_div_l.
    + change 0%Q with (inject_Z 0). rewrite <- Zlt_Qlt. exact Hmx.
    + rewrite Qmult_0_l. rewrite <- inject_Z_opp, <- inject_Z_plus.
      change 0%Q with (inject_Z 0). rewrite <- Zle_Qle. lia.
Qed.


Lemma mapGet_In (m : ColorCounts) (key : string) (v : num) :
  mapGet m key = Some v -> exists k, In (k, v) m.
Proof.
  induction m as [|[k w] m IH]; cbn [mapGet]; [discriminate|].
  destruct (String.eqb k key).
  - intros E. inversion E; subst. exists k. left. reflexivity.
  - intros E. destruct (IH E) as [k' Hk']. exists k'. right. exact Hk'.
Qed.

Lemma mapSet_Forall (P : string * num -> Prop) (m : ColorCounts) (key : string)
    (v : num) :
  Forall P m -> P (key, v) -> Forall P (mapSet m key v).
Proof.
  intros Hm Hv. induction Hm as [|[k w] m Hk Hm IH]; cbn [mapSet].
  - constructor; [exact Hv | constructor].
  - destruct (String.eqb k key) eqn:E.
    + apply String.eqb_eq in E. subst k. constructor; assumption.
    + constructor; assumption.
Qed.

Lemma countOf_next (m : ColorCounts) (key : string) :
  Forall countedEntry m ->
  exists q : Q, (countOf m key + ofZ 1)%num = Fin q /\ (1 <= q)%Q.
Proof.
  intros Hm. unfold countOf.
  destruct (mapGet m key) as [v|] eqn:E.
  - destruct (mapGet_In _ _ E) as [k Hk].
    rewrite Forall_forall in Hm. destruct (Hm _ Hk) as [(q & Hq & Hq1) _].
    cbn [snd] in Hq. subst v.
    unfold orElse, truthy.
    destruct (Qeq_bool q 0) eqn:Eq.
    + apply Qeq_bool_iff in Eq. lra.
    + cbn [negb]. unfold add, ofZ. eexists. split; [reflexivity|].
      change (inject_Z 1) with 1%Q. lra.
  - unfold add, ofZ. eexists. split; [reflexivity|]. discriminate.
Qed.

Lemma countColors_entries (pixels : list Z) :
  Forall isByte pixels -> Forall countedEntry (countColors pixels).
Proof.
  intros Hb. unfold countColors.
  assert (Hn : forall i, byteOrUndefined (nth_error pixels i)).
  { intros i. destruct (nth_error pixels i) as [x|] eqn:E; [|exact I].
    rewrite Forall_forall in Hb. apply Hb. eapply nth_error_In, E. }
  generalize (pixelIndices (length pixels)) as indices.
  intros indices.
  generalize (@nil (string * num)) (Forall_nil countedEntry).
  induction indices as [|i rest IH]; intros m Hm; cbn [fold_left]; [exact Hm|].
  apply IH. apply mapSet_Forall; [exact Hm|].
  match goal with
  | |- countedEntry (?k, _) => destruct (@countOf_next m k Hm) as (q & -> & Hq)
  end.
  split; [exists q; split; [reflexivity | exact Hq]|].
  exists (nth_error pixels i), (nth_error pixels (i + 1)), (nth_error pixels (i + 2)).
  repeat split; apply Hn.
Qed.


(** *** Boxes of positive weight *)



Lemma splice1_Forall (A : Type) (P : A -> Prop) (i : nat) (x y : A) (l : list A) :
  Forall P l -> P x -> P y -> Forall P (splice1 i x y l).
Proof.
  intros Hl Hx Hy. unfold splice1. apply Forall_app. split.
  - rewrite Forall_forall in *. intros a Ha. apply Hl.
    rewrite <- (firstn_skipn i l). apply in_or_app. left. exact Ha.
  - constructor; [exact Hx|]. constructor; [exact Hy|].
    rewrite Forall_forall in *. intros a Ha. apply Hl.
    rewrite <- (firstn_skipn (S i) l). apply in_or_app. right. exact Ha.
Qed.








Example selectDistinct_example :
  selectDistinct [rgb 200 200 200; rgb 255 0 0; rgb 0 0 250; rgb 250 10 0] 3
  = [Some (rgb 255 0 0); Some (rgb 0 0 250); Some (rgb 200 200 200)].
Proof. vm_compute. reflexivity. Qed.

(* ===================================================================== *)
(** ** Further properties of the code *)
(* ===================================================================== *)

(** *** The colour map *)

Lemma mapGet_mapSet_same (m : ColorCounts) (key : string) (v : num) :
  mapGet (mapSet m key v) key = Some v.
Proof.
  induction m as [|[k w] m IH]; cbn [mapSet mapGet].
  - rewrite String.eqb_refl. reflexivity.
  - destruct (String.eqb k key) eqn:E; cbn [mapGet]; rewrite E;
      [reflexivity | exact IH].
Qed.

Lemma mapGet_mapSet_other (m : ColorCounts) (key key' : string) (v : num) :
  key' <> key -> mapGet (mapSet m key v) key' = mapGet m key'.
Proof.
  intros Hne. induction m as [|[k w] m IH]; cbn [mapSet mapGet].
  - destruct (String.eqb_spec key key'); [congruence | reflexivity].
  - destruct (String.eqb_spec k key) as [-> | Hk]; cbn [mapGet].
    + destruct (String.eqb_spec key key'); [congruence | reflexivity].
    + rewrite IH. reflexivity.
Qed.

Lemma mapSet_keys (m : ColorCounts) (key : string) (v : num) :
  map fst (mapSet m key v)
  = if existsb (String.eqb key) (map fst m) then map fst m
    else map fst m ++ [key].
Proof.
  induction m as [|[k w] m IH]; cbn [mapSet map fst existsb app]; [reflexivity|].
  rewrite (String.eqb_sym key k).
  destruct (String.eqb k key) eqn:E; cbn [map fst orb]; [reflexivity|].
  rewrite IH. destruct (existsb (String.eqb key) (map fst m)); reflexivity.
Qed.

Lemma mapSet_NoDup (m : ColorCounts) (key : string) (v : num) :
  NoDup (map fst m) -> NoDup (map fst (mapSet m key v)).
Proof.
  intros H. rewrite mapSet_keys.
  destruct (existsb (String.eqb key) (map fst m)) eqn:E; [exact H|].
  apply NoDup_app; [exact H | constructor; [intros [] | constructor] |].
  intros k Hk [Ek | []]. subst k.
  assert (Ht : existsb (String.eqb key) (map fst m) = true).
  { apply existsb_exists. exists key. split; [exact Hk | apply String.eqb_refl]. }
  congruence.
Qed.

Lemma countsOf_step (seen : list string) (m : ColorCounts) (key : string) :
  countsOf seen m ->
  countsOf (seen ++ [key]) (mapSet m key (countOf m key + ofZ 1)%num).
Proof.
  intros [Hnd Hget]. split; [apply mapSet_NoDup; exact Hnd|].
  intros k. rewrite count_occ_app. cbn [count_occ].
  destruct (string_dec key k) as [-> | Hne].
  - rewrite mapGet_mapSet_same. specialize (Hget k). unfold countOf.
    destruct (mapGet m k) as [v|].
    + destruct Hget as [Hv Hpos]. split; [|lia].
      destruct v as [q| | |]; cbn [equiv] in Hv; try contradiction.
      unfold ofNat, ofZ in *. cbn [equiv] in Hv.
      unfold orElse, truthy.
      destruct (Qeq_bool q 0) eqn:Eq; cbn [negb].
      * apply Qeq_bool_iff in Eq.
        assert (Hz : inject_Z (Z.of_nat (count_occ string_dec seen k)) == inject_Z 0)
          by (rewrite <- Hv; exact Eq).
        apply (proj1 (inject_Z_injective _ _)) in Hz. exfalso. lia.
      * unfold add. cbn [equiv]. rewrite Hv, <- inject_Z_plus.
        apply (proj2 (inject_Z_injective _ _)). lia.
    + rewrite Hget. split; [|lia]. reflexivity.
  - rewrite mapGet_mapSet_other by congruence.
    rewrite Nat.add_0_r. apply Hget.
Qed.

Lemma countKeys_counts (keys : list string) :
  forall (seen : list string) (m : ColorCounts),
    countsOf seen m -> countsOf (seen ++ keys) (countKeys keys m).
Proof.
  unfold countKeys.
  induction keys as [|k keys IH]; intros seen m H; cbn [fold_left].
  - rewrite app_nil_r. exact H.
  - replace (seen ++ k :: keys) with ((seen ++ [k]) ++ keys)
      by (rewrite <- app_assoc; reflexivity).
    apply IH, countsOf_step, H.
Qed.

Lemma colorKey_injective (x y z x' y' z' : Z) :
  (0 <= x)%Z -> (0 <= y)%Z -> (0 <= z)%Z ->
  (0 <= x')%Z -> (0 <= y')%Z -> (0 <= z')%Z ->
  colorKey x y z = colorKey x' y' z' -> x = x' /\ y = y' /\ z = z'.
Proof.
  intros Hx Hy Hz Hx' Hy' Hz' E.
  pose proof (parts_of_colorKey Hx Hy Hz) as P.
  rewrite E, (parts_of_colorKey Hx' Hy' Hz') in P.
  inversion P. repeat split; reflexivity.
Qed.

Lemma count_occ_keys (c : Z * Z * Z) (colors : list (Z * Z * Z)) :
  byteEntry (c, ofZ 0) ->
  Forall (fun d => byteEntry (d, ofZ 0)) colors ->
  count_occ string_dec
    (map (fun d => colorKey (fst (fst d)) (snd (fst d)) (snd d)) colors)
    (colorKey (fst (fst c)) (snd (fst c)) (snd c))
  = length (filter (sameColor c) colors).
Proof.
  destruct c as [[x y] z]. intros (Hx & Hy & Hz).
  induction 1 as [|[[x' y'] z'] ds (Hx' & Hy' & Hz') Hds IH];
    cbn [map count_occ filter fst snd] in *; [reflexivity|].
  unfold sameColor at 1. cbn [fst snd].
  destruct (string_dec (colorKey x' y' z') (colorKey x y z)) as [E | Hne].
  - apply colorKey_injective in E; try lia. destruct E as (-> & -> & ->).
    rewrite !Z.eqb_refl. cbn [andb length]. rewrite IH. reflexivity.
  - destruct ((x =? x') && (y =? y') && (z =? z'))%Z eqn:Eb; [|exact IH].
    apply andb_true_iff in Eb. destruct Eb as [Eb Ez].
    apply andb_true_iff in Eb. destruct Eb as [Ex Ey].
    apply Z.eqb_eq in Ex, Ey, Ez. subst. congruence.
Qed.

Section WholeBuffer.
Variable pixels : list Z.
Hypothesis whole : (length pixels mod 4 = 0)%nat.
Hypothesis bytes : Forall isByte pixels.

Lemma nth_error_whole (i : nat) :
  In i (pixelIndices (length pixels)) ->
  nth_error pixels i = Some (nth i pixels 0%Z)
  /\ nth_error pixels (i + 1) = Some (nth (i + 1) pixels 0%Z)
  /\ nth_error pixels (i + 2) = Some (nth (i + 2) pixels 0%Z)
  /\ isByte (nth i pixels 0%Z) /\ isByte (nth (i + 1) pixels 0%Z)
  /\ isByte (nth (i + 2) pixels 0%Z).
Proof.
  intros Hi.
  destruct (pixelIndices_whole (length pixels) whole) as [_ Hall].
  rewrite Forall_forall in Hall. specialize (Hall i Hi).
  assert (Hb : forall j, (j < length pixels)%nat ->
                         nth_error pixels j = Some (nth j pixels 0%Z)
                         /\ isByte (nth j pixels 0%Z)).
  { intros j Hj. split; [apply nth_error_nth'; exact Hj|].
    rewrite Forall_forall in bytes. apply bytes, nth_In, Hj. }
  destruct (Hb i ltac:(lia)) as [E0 B0].
  destruct (Hb (i + 1)%nat ltac:(lia)) as [E1 B1].
  destruct (Hb (i + 2)%nat ltac:(lia)) as [E2 B2].
  exact (conj E0 (conj E1 (conj E2 (conj B0 (conj B1 B2))))).
Qed.

Lemma pixelColors_bytes : Forall (fun d => byteEntry (d, ofZ 0)) (pixelColors pixels).
Proof.
  unfold pixelColors. rewrite Forall_map, Forall_forall. intros i Hi.
  destruct (nth_error_whole i Hi) as (_ & _ & _ & B0 & B1 & B2).
  unfold colorAt, byteEntry. repeat split; first [apply B0 | apply B1 | apply B2].
Qed.

(** The pass of [extractColorPalette] counts the keys of the pixels. *)
Lemma countColors_keys :
  countColors pixels
  = countKeys
      (map (fun d => colorKey (fst (fst d)) (snd (fst d)) (snd d))
           (pixelColors pixels)) [].
Proof.
  unfold countColors, countKeys, pixelColors.
  rewrite map_map, fold_left_map.
  generalize (@nil (string * num)).
  assert (H : forall i, In i (pixelIndices (length pixels)) ->
                        In i (pixelIndices (length pixels))) by auto.
  revert H. generalize (pixelIndices (length pixels)) at 1 3 4 as indices.
  induction indices as [|i rest IH]; intros H m; cbn [fold_left]; [reflexivity|].
  destruct (nth_error_whole i (H i (or_introl eq_refl))) as (E0 & E1 & E2 & _).
  rewrite E0, E1, E2. cbn [showElem colorAt fst snd]. unfold colorKey.
  apply IH. intros j Hj. apply H. right. exact Hj.
Qed.

(** The pass of [analyzeImageColors] builds the same map. *)
Lemma analysis_colorCounts (Math_pow : num -> num -> num) :
  t_colorCounts (fold_left (processPixel Math_pow pixels)
                   (pixelIndices (length pixels)) initialTotals)
  = countColors pixels.
Proof.
  unfold countColors.
  change (@nil (string * num)) with (t_colorCounts initialTotals).
  generalize initialTotals.
  assert (H : forall i, In i (pixelIndices (length pixels)) ->
                        In i (pixelIndices (length pixels))) by auto.
  revert H. generalize (pixelIndices (length pixels)) at 1 3 4 as indices.
  induction indices as [|i rest IH]; intros H t; cbn [fold_left]; [reflexivity|].
  rewrite IH by (intros j Hj; apply H; right; exact Hj).
  f_equal.
  destruct (nth_error_whole i (H i (or_introl eq_refl))) as (E0 & E1 & E2 & _).
  unfold processPixel. rewrite E0, E1, E2. reflexivity.
Qed.

End WholeBuffer.

(** *** The colour map, entry by entry *)

Lemma sameColor_eq (c d : Z * Z * Z) : sameColor c d = true <-> c = d.
Proof.
  destruct c as [[x y] z], d as [[x' y'] z']. unfold sameColor. cbn [fst snd].
  rewrite !andb_true_iff, !Z.eqb_eq. split.
  - intros [[-> ->] ->]. reflexivity.
  - intros E. inversion E. repeat split.
Qed.

Lemma sameColor_refl (c : Z * Z * Z) : sameColor c c = true.
Proof. apply sameColor_eq. reflexivity. Qed.

Lemma sameColor_sym (c d : Z * Z * Z) : sameColor c d = sameColor d c.
Proof.
  destruct (sameColor d c) eqn:E.
  - apply sameColor_eq in E. subst. apply sameColor_refl.
  - apply not_true_iff_false. intros H. apply sameColor_eq in H. subst.
    rewrite sameColor_refl in E. discriminate.
Qed.

Lemma existsb_sameColor (c : Z * Z * Z) (l : list (Z * Z * Z)) :
  existsb (sameColor c) l = true <-> In c l.
Proof.
  rewrite existsb_exists. split.
  - intros (d & Hd & E). apply sameColor_eq in E. subst. exact Hd.
  - intros H. exists c. split; [exact H | apply sameColor_refl].
Qed.

Lemma firstSeen_snoc (colors : list (Z * Z * Z)) (c : Z * Z * Z) :
  firstSeen (colors ++ [c])
  = if existsb (sameColor c) (firstSeen colors) then firstSeen colors
    else firstSeen colors ++ [c].
Proof. unfold firstSeen. rewrite fold_left_app. reflexivity. Qed.

Lemma firstSeen_spec (colors : list (Z * Z * Z)) :
  NoDup (firstSeen colors) /\ forall c, In c (firstSeen colors) <-> In c colors.
Proof.
  induction colors as [|c cs [Hnd Hin]] using rev_ind.
  - split; [constructor | intros c; reflexivity].
  - rewrite firstSeen_snoc.
    destruct (existsb (sameColor c) (firstSeen cs)) eqn:E.
    + apply existsb_sameColor in E. split; [exact Hnd|].
      intros d. rewrite in_app_iff, Hin. cbn [In]. split; [tauto|].
      intros [H | [<- | []]]; [exact H | apply Hin, E].
    + assert (Hn : ~ In c (firstSeen cs)).
      { intros H. apply existsb_sameColor in H. congruence. }
      split.
      * apply NoDup_app; [exact Hnd | repeat constructor; intros [] |].
        intros d Hd [<- | []]. exact (Hn Hd).
      * intros d. rewrite !in_app_iff, Hin. reflexivity.
Qed.

Lemma add_ofNat_1 (n : nat) : (ofNat n + ofZ 1)%num = ofNat (S n).
Proof.
  unfold ofNat, ofZ, add, inject_Z, Qplus. cbn [Qnum Qden Pos.mul].
  do 2 f_equal. lia.
Qed.

Lemma orElse_ofNat (n : nat) : orElse (ofNat (S n)) (ofZ 0) = ofNat (S n).
Proof.
  unfold orElse, truthy, ofNat, ofZ.
  destruct (Qeq_bool (inject_Z (Z.of_nat (S n))) 0) eqn:E; [|reflexivity].
  apply Qeq_bool_iff in E. change 0%Q with (inject_Z 0) in E.
  apply (proj1 (inject_Z_injective _ _)) in E. lia.
Qed.

Section Tally.
Variable v : Z * Z * Z -> num.

Lemma entryOf_key (c c' : Z * Z * Z) (w w' : num) :
  byteEntry (c, w) -> byteEntry (c', w') ->
  String.eqb (fst (entryOf (c', w'))) (fst (entryOf (c, w))) = sameColor c' c.
Proof.
  destruct c as [[x y] z], c' as [[x' y'] z'].
  intros (Hx & Hy & Hz) (Hx' & Hy' & Hz'). cbn [entryOf fst].
  destruct (String.eqb_spec (colorKey x' y' z') (colorKey x y z)) as [E | Hne].
  - apply colorKey_injective in E; try lia. destruct E as (-> & -> & ->).
    symmetry. apply sameColor_refl.
  - symmetry. apply not_true_iff_false. intros H. apply sameColor_eq in H.
    inversion H; subst. apply Hne. reflexivity.
Qed.

Lemma mapGet_tally (l : list (Z * Z * Z)) (c : Z * Z * Z) :
  byteEntry (c, ofZ 0) -> Forall (fun d => byteEntry (d, ofZ 0)) l ->
  mapGet (map (fun d => entryOf (d, v d)) l) (fst (entryOf (c, ofZ 0)))
  = if existsb (sameColor c) l then Some (v c) else None.
Proof.
  intros Hc. induction 1 as [|d ds Hd Hds IH]; cbn [map mapGet existsb];
    [reflexivity|].
  pose proof (@entryOf_key c d (ofZ 0) (v d) Hc Hd) as E.
  destruct (entryOf (d, v d)) as [k w] eqn:Ek. cbn [fst] in E. rewrite E.
  rewrite (sameColor_sym c d).
  destruct (sameColor d c) eqn:Es; cbn [orb]; [|exact IH].
  apply sameColor_eq in Es. subst d.
  destruct c as [[x y] z]. cbn [entryOf] in Ek. inversion Ek. reflexivity.
Qed.

Lemma mapSet_tally_new (l : list (Z * Z * Z)) (c : Z * Z * Z) (w : num) :
  byteEntry (c, ofZ 0) -> Forall (fun d => byteEntry (d, ofZ 0)) l ->
  ~ In c l ->
  mapSet (map (fun d => entryOf (d, v d)) l) (fst (entryOf (c, w))) w
  = map (fun d => entryOf (d, v d)) l ++ [entryOf (c, w)].
Proof.
  intros Hc Hl Hn. induction Hl as [|d ds Hd Hds IH]; cbn [map mapSet app].
  - destruct c as [[x y] z]. reflexivity.
  - pose proof (@entryOf_key c d w (v d) Hc Hd) as E.
    destruct (entryOf (d, v d)) as [k u] eqn:Ek. cbn [fst] in E. rewrite E.
    destruct (sameColor d c) eqn:Es.
    + apply sameColor_eq in Es. subst d. exfalso. apply Hn. left. reflexivity.
    + rewrite IH; [reflexivity|]. intros H. apply Hn. right. exact H.
Qed.

Lemma mapSet_tally_seen (l : list (Z * Z * Z)) (c : Z * Z * Z) (w : num) :
  byteEntry (c, ofZ 0) -> Forall (fun d => byteEntry (d, ofZ 0)) l ->
  NoDup l -> In c l ->
  mapSet (map (fun d => entryOf (d, v d)) l) (fst (entryOf (c, w))) w
  = map (fun d => entryOf (d, if sameColor d c then w else v d)) l.
Proof.
  intros Hc Hl Hnd Hin. induction Hl as [|d ds Hd Hds IH]; [destruct Hin|].
  cbn [map mapSet].
  pose proof (@entryOf_key c d w (v d) Hc Hd) as E.
  destruct (entryOf (d, v d)) as [k u] eqn:Ek. cbn [fst] in E. rewrite E.
  inversion Hnd as [|? ? Hnin Hnd']; subst.
  destruct (sameColor d c) eqn:Es.
  - apply sameColor_eq in Es. subst d. f_equal.
    + destruct c as [[x y] z]. cbn [entryOf] in *. inversion Ek. reflexivity.
    + apply map_ext_in. intros d Hd'.
      destruct (sameColor d c) eqn:Es'; [|reflexivity].
      apply sameColor_eq in Es'. subst d. contradiction.
  - rewrite <- Ek. f_equal. apply IH; [exact Hnd'|].
    destruct Hin as [-> | H]; [|exact H].
    rewrite sameColor_refl in Es. discriminate.
Qed.

End Tally.

Lemma countKeys_tally (colors : list (Z * Z * Z)) :
  Forall (fun d => byteEntry (d, ofZ 0)) colors ->
  countKeys (map (fun d => colorKey (fst (fst d)) (snd (fst d)) (snd d)) colors) []
  = map (fun c => entryOf (c, ofNat (length (filter (sameColor c) colors))))
        (firstSeen colors).
Proof.
  induction colors as [|c cs IH] using rev_ind; intros Hb; [reflexivity|].
  apply Forall_app in Hb. destruct Hb as [Hcs Hc]. inversion Hc as [|? ? Hc' _]; subst.
  specialize (IH Hcs). unfold countKeys in *.
  rewrite map_app, fold_left_app, IH. cbn [map fold_left].
  destruct (firstSeen_spec cs) as [Hnd Hin].
  assert (Hfs : Forall (fun d => byteEntry (d, ofZ 0)) (firstSeen cs)).
  { rewrite Forall_forall in *. intros d Hd. apply Hcs, Hin, Hd. }
  assert (Ek : forall w, colorKey (fst (fst c)) (snd (fst c)) (snd c)
                         = fst (entryOf (c, w))).
  { intros w. destruct c as [[x y] z]. reflexivity. }
  assert (Ekk : forall w w', fst (entryOf (c, w)) = fst (entryOf (c, w'))).
  { intros w w'. destruct c as [[x y] z]. reflexivity. }
  assert (Hcount : forall d, length (filter (sameColor d) (cs ++ [c]))
                             = (length (filter (sameColor d) cs)
                                + if sameColor d c then 1 else 0)%nat).
  { intros d. rewrite filter_app, length_app. cbn [filter].
    destruct (sameColor d c); reflexivity. }
  rewrite firstSeen_snoc. unfold countOf.
  rewrite (Ek (ofZ 0)), mapGet_tally by assumption.
  destruct (existsb (sameColor c) (firstSeen cs)) eqn:E.
  - assert (Hc1 : exists n, length (filter (sameColor c) cs) = S n).
    { apply existsb_sameColor in E. apply Hin in E.
      destruct (filter (sameColor c) cs) eqn:Ef; [|eexists; reflexivity].
      exfalso. assert (Hf : In c (filter (sameColor c) cs))
        by (apply filter_In; split; [exact E | apply sameColor_refl]).
      rewrite Ef in Hf. destruct Hf. }
    destruct Hc1 as [n Hn]. rewrite Hn, orElse_ofNat, add_ofNat_1.
    rewrite (Ekk (ofZ 0) (ofNat (S (S n)))), mapSet_tally_seen;
      try assumption;
      [|apply Hin; apply existsb_sameColor in E; apply Hin, E].
    apply map_ext. intros d. rewrite Hcount.
    destruct (sameColor d c) eqn:Es.
    + apply sameColor_eq in Es. subst d. rewrite Hn.
      do 3 f_equal. lia.
    + rewrite Nat.add_0_r. reflexivity.
  - assert (Hn : ~ In c (firstSeen cs)).
    { intros H. apply existsb_sameColor in H. congruence. }
    assert (Hz : length (filter (sameColor c) cs) = 0%nat).
    { destruct (filter (sameColor c) cs) as [|d ds] eqn:Ef; [reflexivity|].
      exfalso. assert (Hf : In d (filter (sameColor c) cs))
        by (rewrite Ef; left; reflexivity).
      apply filter_In in Hf. destruct Hf as [Hd Es].
      apply sameColor_eq in Es. subst d. apply Hn, Hin, Hd. }
    change (ofZ 0 + ofZ 1)%num with (ofNat 0 + ofZ 1)%num.
    rewrite add_ofNat_1, (Ekk (ofZ 0) (ofNat 1)), mapSet_tally_new
      by assumption.
    rewrite map_app. cbn [map]. rewrite Hcount, Hz, sameColor_refl.
    f_equal. apply map_ext_in. intros d Hd. rewrite Hcount.
    destruct (sameColor d c) eqn:Es; [|rewrite Nat.add_0_r; reflexivity].
    apply sameColor_eq in Es. subst d. contradiction.
Qed.

Lemma countColors_tally (pixels : list Z) :
  (length pixels mod 4 = 0)%nat -> Forall isByte pixels ->
  countColors pixels = map entryOf (colorTally pixels).
Proof.
  intros Hw Hb. rewrite (countColors_keys Hw Hb).
  rewrite countKeys_tally by (apply pixelColors_bytes; assumption).
  unfold colorTally, distinctColors, timesSeen. rewrite map_map. reflexivity.
Qed.

Lemma colorTally_bytes (pixels : list Z) :
  (length pixels mod 4 = 0)%nat -> Forall isByte pixels ->
  Forall byteEntry (colorTally pixels).
Proof.
  intros Hw Hb. unfold colorTally, distinctColors.
  rewrite Forall_map, Forall_forall. intros c Hc.
  apply (firstSeen_spec (pixelColors pixels)) in Hc.
  pose proof (pixelColors_bytes Hw Hb) as H. rewrite Forall_forall in H.
  specialize (H c Hc). destruct c as [[x y] z]. exact H.
Qed.

(** X1.  For a buffer of whole pixels of bytes, the colour map built by the
    pass of [extractColorPalette] has one entry for each distinct colour of
    the pixels, in the order in which the colours first appear, under the
    key ["r,g,b"] and with the number of pixels of that colour as its value.
    So it holds no key twice, looking up the key of a colour gives the number
    of pixels of that colour, and there is no entry for a colour that no
    pixel has.  The pass of [analyzeImageColors] builds the same map. *)
Theorem X1_color_map_counts_pixels :
  forall (Math_pow : num -> num -> num) (pixels : list Z),
    (length pixels mod 4 = 0)%nat ->
    Forall isByte pixels ->
    countColors pixels = map entryOf (colorTally pixels)
    /\ NoDup (map fst (countColors pixels))
    /\ (forall x y z : Z,
          isByte x -> isByte y -> isByte z ->
          match mapGet (countColors pixels) (colorKey x y z) with
          | Some v =>
              (v == ofNat (timesSeen (x, y, z) pixels))%num
              /\ (0 < timesSeen (x, y, z) pixels)%nat
          | None => timesSeen (x, y, z) pixels = 0%nat
          end)
    /\ t_colorCounts (fold_left (processPixel Math_pow pixels)
                        (pixelIndices (length pixels)) initialTotals)
       = countColors pixels.
Proof.
  intros Math_pow pixels Hw Hb.
  split; [apply countColors_tally; assumption|].
  assert (Hc : countsOf
                 (map (fun d => colorKey (fst (fst d)) (snd (fst d)) (snd d))
                      (pixelColors pixels))
                 (countColors pixels)).
  { rewrite (countColors_keys Hw Hb).
    apply (@countKeys_counts _ [] []). split; [constructor | intros k; reflexivity]. }
  destruct Hc as [Hnd Hget].
  split; [exact Hnd|]. split; [|apply analysis_colorCounts; assumption].
  intros x y z Hx Hy Hz. specialize (Hget (colorKey x y z)).
  pose proof (@count_occ_keys (x, y, z) (pixelColors pixels)) as Hocc.
  cbn [fst snd] in Hocc. unfold timesSeen.
  rewrite Hocc in Hget;
    [exact Hget | exact (conj Hx (conj Hy Hz))
    | apply pixelColors_bytes; assumption].
Qed.

Lemma X1_witness :
  let pixels := [255; 0; 0; 255; 0; 64; 255; 255; 255; 0; 0; 9]%Z in
  countColors pixels
  = [("255,0,0"%string, ofZ 2); ("0,64,255"%string, ofZ 1)]
  /\ match mapGet (countColors pixels) (colorKey 255 0 0) with
     | Some v =>
         (v == ofNat (timesSeen (255, 0, 0)%Z pixels))%num
         /\ (0 < timesSeen (255, 0, 0)%Z pixels)%nat
     | None => timesSeen (255, 0, 0)%Z pixels = 0%nat
     end.
Proof.
  intros pixels.
  assert (Hb : Forall isByte pixels).
  { repeat (constructor; [unfold isByte; lia|]). constructor. }
  destruct (@X1_color_map_counts_pixels (fun x _ => x) pixels eq_refl Hb)
    as (Ht & _ & Hget & _).
  split; [rewrite Ht; reflexivity|].
  apply (Hget 255 0 0)%Z; unfold isByte; lia.
Defined.

(** *** The histogram, bin by bin *)

Lemma updateAt_nth_error (A : Type) (f : A -> A) (i : Z) (l : list A) (j : nat) :
  nth_error (updateAt f i l) j
  = if ((0 <=? i)%Z && (Z.to_nat i =? j)%nat)%bool then option_map f (nth_error l j)
    else nth_error l j.
Proof.
  unfold updateAt. destruct (Z.ltb_spec i 0) as [Hi | Hi].
  - destruct (Z.leb_spec 0 i); [lia | reflexivity].
  - destruct (Z.leb_spec 0 i); [|lia]. cbn [andb].
    generalize (Z.to_nat i) as n. clear. intros n. revert n j.
    induction l as [|x xs IH]; intros n j.
    + destruct n, j; cbn; try reflexivity; destruct (_ =? _)%nat; reflexivity.
    + destruct n, j; cbn [nth_error Nat.eqb option_map]; try reflexivity.
      apply IH.
Qed.

Lemma createBins_binsOf (ch : Z * Z * Z -> Z) : binsOf ch [] createBins.
Proof.
  split; [reflexivity|]. intros i Hi. unfold createBins.
  rewrite nth_error_map, nth_error_seq.
  change (Z.to_nat HISTOGRAM_BINS) with 32%nat.
  destruct (Nat.ltb_spec i 32) as [_ | H]; [|lia].
  cbn [option_map Nat.add]. unfold colorsInBin. cbn [filter length Z.of_nat].
  f_equal. f_equal. unfold HISTOGRAM_BINS.
  replace (Z.of_nat i * 256)%Z with ((8 * Z.of_nat i) * 32)%Z by lia.
  apply Z.div_mul. lia.
Qed.

Lemma inBin_getBinIndex (i : nat) (v : Z) :
  isByte v -> inBin i v = (Z.to_nat (getBinIndex v) =? i)%nat.
Proof.
  intros Hv. pose proof (getBinIndex_range Hv) as Hr.
  unfold getBinIndex, HISTOGRAM_BINS in *.
  assert (E : (v * 32 / 256 = v / 8)%Z).
  { replace 256%Z with (32 * 8)%Z by reflexivity.
    rewrite Z.mul_comm. apply Z.div_mul_cancel_l; lia. }
  rewrite E in *. unfold inBin.
  pose proof (Z.div_mod v 8 ltac:(lia)) as Hd.
  pose proof (Z.mod_pos_bound v 8 ltac:(lia)) as Hm.
  destruct (Nat.eqb_spec (Z.to_nat (v / 8)) i) as [<- | Hne].
  - rewrite Z2Nat.id by lia.
    apply andb_true_iff. split; [apply Z.leb_le | apply Z.ltb_lt]; lia.
  - apply andb_false_iff.
    destruct (Z.leb_spec (8 * Z.of_nat i) v); [|left; reflexivity].
    destruct (Z.ltb_spec v (8 * Z.of_nat i + 8)); [|right; reflexivity].
    exfalso. apply Hne.
    lia.
Qed.

Lemma updateAt_binsOf (ch : Z * Z * Z -> Z) (colors : list (Z * Z * Z))
    (bins : list HistogramBin) (c : Z * Z * Z) :
  isByte (ch c) -> binsOf ch colors bins ->
  binsOf ch (colors ++ [c]) (updateAt incr (getBinIndex (ch c)) bins).
Proof.
  intros Hc [Hl Hb]. split; [rewrite updateAt_length; exact Hl|].
  intros i Hi. rewrite updateAt_nth_error, (Hb i Hi).
  pose proof (getBinIndex_range Hc) as Hr.
  destruct (Z.leb_spec 0 (getBinIndex (ch c))); [|lia]. cbn [andb].
  unfold colorsInBin. rewrite filter_app, length_app. cbn [filter].
  rewrite (inBin_getBinIndex i Hc).
  destruct (Z.to_nat (getBinIndex (ch c)) =? i)%nat;
    cbn [option_map length]; unfold incr; cbn [bin_count bin_value];
    do 2 f_equal; lia.
Qed.

Lemma updateHistogram_binsOf (h : Histogram) (colors : list (Z * Z * Z))
    (x y z : Z) :
  isByte x -> isByte y -> isByte z ->
  binsOf red colors (hist_r h) /\ binsOf green colors (hist_g h)
  /\ binsOf blue colors (hist_b h) ->
  let h' := updateHistogram h x y z in
  binsOf red (colors ++ [(x, y, z)]) (hist_r h')
  /\ binsOf green (colors ++ [(x, y, z)]) (hist_g h')
  /\ binsOf blue (colors ++ [(x, y, z)]) (hist_b h').
Proof.
  intros Hx Hy Hz (Hr & Hg & Hb) h'. subst h'. unfold updateHistogram.
  pose proof (getBinIndex_range Hx). pose proof (getBinIndex_range Hy).
  pose proof (getBinIndex_range Hz).
  destruct (@at_Some _ (hist_r h) (getBinIndex x)) as [? ->];
    [rewrite (proj1 Hr); lia|].
  destruct (@at_Some _ (hist_g h) (getBinIndex y)) as [? ->];
    [rewrite (proj1 Hg); lia|].
  destruct (@at_Some _ (hist_b h) (getBinIndex z)) as [? ->];
    [rewrite (proj1 Hb); lia|].
  cbn [hist_r hist_g hist_b].
  split; [|split].
  - apply (@updateAt_binsOf red colors (hist_r h) (x, y, z)); assumption.
  - apply (@updateAt_binsOf green colors (hist_g h) (x, y, z)); assumption.
  - apply (@updateAt_binsOf blue colors (hist_b h) (x, y, z)); assumption.
Qed.

Section HistogramLoop.
Variable Math_pow : num -> num -> num.
Variable pixels : list Z.
Hypothesis whole : (length pixels mod 4 = 0)%nat.
Hypothesis bytes : Forall isByte pixels.

Lemma pixelLoop_binsOf (indices : list nat) :
  forall (t : Totals) (colors : list (Z * Z * Z)),
    (forall i, In i indices -> In i (pixelIndices (length pixels))) ->
    binsOf red colors (hist_r (t_histogram t))
    /\ binsOf green colors (hist_g (t_histogram t))
    /\ binsOf blue colors (hist_b (t_histogram t)) ->
    let t' := fold_left (processPixel Math_pow pixels) indices t in
    binsOf red (colors ++ map (colorAt pixels) indices) (hist_r (t_histogram t'))
    /\ binsOf green (colors ++ map (colorAt pixels) indices) (hist_g (t_histogram t'))
    /\ binsOf blue (colors ++ map (colorAt pixels) indices) (hist_b (t_histogram t')).
Proof.
  induction indices as [|i rest IH]; intros t colors Hin H; cbn [fold_left map].
  - rewrite app_nil_r. exact H.
  - replace (colors ++ colorAt pixels i :: map (colorAt pixels) rest)
      with ((colors ++ [colorAt pixels i]) ++ map (colorAt pixels) rest)
      by (rewrite <- app_assoc; reflexivity).
    apply IH; [intros j Hj; apply Hin; right; exact Hj|].
    destruct (nth_error_whole whole bytes i (Hin i (or_introl Logic.eq_refl)))
      as (E0 & E1 & E2 & B0 & B1 & B2).
    unfold processPixel. rewrite E0, E1, E2. cbn [t_histogram].
    apply updateHistogram_binsOf; assumption.
Qed.

End HistogramLoop.

(** X2.  For a buffer of whole pixels of bytes, the histogram of
    [analyzeImageColors] is exact bin by bin: for each channel, the bin of
    index [i] (of 32) has the value [8 * i] and its count is the number of
    pixels whose channel lies in [[8 * i, 8 * i + 7]]. *)
Theorem X2_histogram_bins_count_pixels :
  forall (Math_pow : num -> num -> num) (random : nat -> num)
         (DOMINANT_COLORS_COUNT PALETTE_COLORS_COUNT w h : Z)
         (pixels : list Z) (n : nat),
    validRandom random ->
    (length pixels mod 4 = 0)%nat ->
    Forall isByte pixels ->
    exists md n',
      analyzeImageColors Math_pow random DOMINANT_COLORS_COUNT
        PALETTE_COLORS_COUNT (mkCanvas w h (Some pixels)) n = Some (md, n')
      /\ forall i : nat, (i < 32)%nat ->
           nth_error (hist_r (histogram md)) i
           = Some (mkBin (pixelsInBin red i pixels) (8 * Z.of_nat i))
           /\ nth_error (hist_g (histogram md)) i
              = Some (mkBin (pixelsInBin green i pixels) (8 * Z.of_nat i))
           /\ nth_error (hist_b (histogram md)) i
              = Some (mkBin (pixelsInBin blue i pixels) (8 * Z.of_nat i)).
Proof.
  intros Math_pow random D P w h pixels n Hr Hlen Hb.
  destruct (@analyzeImageColors_returns Math_pow random D P
              (mkCanvas w h (Some pixels)) pixels n Hr Logic.eq_refl)
    as (dom & n' & rep & cands & var & _ & _ & _ & _ & E).
  eexists _, n'. split; [exact E|].
  cbn [histogram hist_r hist_g hist_b].
  destruct (@pixelLoop_binsOf Math_pow pixels Hlen Hb
              (pixelIndices (length pixels)) initialTotals []
              (fun i H => H)
              (conj (createBins_binsOf red)
                 (conj (createBins_binsOf green) (createBins_binsOf blue))))
    as ((_ & Hred) & (_ & Hgreen) & (_ & Hblue)).
  intros i Hi. cbn [app] in *. unfold pixelsInBin, pixelColors.
  split; [apply Hred, Hi | split; [apply Hgreen, Hi | apply Hblue, Hi]].
Qed.

Lemma X2_witness :
  let pixels := [255; 0; 0; 255; 0; 64; 255; 255; 255; 0; 0; 9]%Z in
  exists md n',
    analyzeImageColors (fun x _ => x) (fun _ => Fin (1 # 2)) 2 2
      (mkCanvas 3 1 (Some pixels)) 0%nat = Some (md, n')
    /\ nth_error (hist_r (histogram md)) 31
       = Some (mkBin (pixelsInBin red 31 pixels) 248)
    /\ nth_error (hist_g (histogram md)) 8
       = Some (mkBin (pixelsInBin green 8 pixels) 64)
    /\ nth_error (hist_b (histogram md)) 0
       = Some (mkBin (pixelsInBin blue 0 pixels) 0).
Proof.
  intros pixels.
  assert (Hb : Forall isByte pixels).
  { repeat (constructor; [unfold isByte; lia|]). constructor. }
  assert (Hr : validRandom (fun _ => Fin (1 # 2))).
  { intros i. exists (1 # 2). split; [reflexivity|].
    split; [discriminate | reflexivity]. }
  destruct (@X2_histogram_bins_count_pixels (fun x _ => x) (fun _ => Fin (1 # 2))
              2 2 3 1 pixels 0%nat Hr Logic.eq_refl Hb) as (md & n' & E & H).
  exists md, n'. split; [exact E|].
  split; [apply (H 31%nat); lia|].
  split; [apply (H 8%nat); lia | apply (H 0%nat); lia].
Defined.

(** *** The average colour *)

Lemma Qfloor_roundDiv (q : Q) (s n : Z) :
  (0 < n)%Z -> q == inject_Z s / inject_Z n ->
  Qfloor (q + (1 # 2)) = roundDiv s n.
Proof.
  intros Hn Hq. unfold roundDiv.
  transitivity (Qfloor ((2 * s + n) # Z.to_pos (2 * n))).
  - apply Qfloor_comp. rewrite Hq, (Qmake_Qdiv (2 * s + n)).
    rewrite Z2Pos.id by lia.
    rewrite inject_Z_plus, !inject_Z_mult.
    assert (Hne : ~ inject_Z n == 0).
    { change 0 with (inject_Z 0). rewrite inject_Z_injective. lia. }
    change (inject_Z 2) with 2. field. exact Hne.
  - cbn [Qfloor]. rewrite Z2Pos.id by lia. reflexivity.
Qed.

Lemma roundDiv_bounds (s n lo hi : Z) :
  (0 < n)%Z -> (lo * n <= s <= hi * n)%Z -> (lo <= roundDiv s n <= hi)%Z.
Proof.
  intros Hn Hs. unfold roundDiv. split.
  - apply Z.div_le_lower_bound; nia.
  - apply Z.lt_succ_r. apply Z.div_lt_upper_bound; nia.
Qed.

Lemma sumZ_snoc (vs : list Z) (v : Z) : sumZ (vs ++ [v]) = (sumZ vs + v)%Z.
Proof. unfold sumZ. rewrite fold_left_app. reflexivity. Qed.

Lemma sumZ_bounds (vs : list Z) (lo hi : Z) :
  Forall (fun v => (lo <= v <= hi)%Z) vs ->
  (lo * Z.of_nat (length vs) <= sumZ vs <= hi * Z.of_nat (length vs))%Z.
Proof.
  induction vs as [|v vs IH] using rev_ind; intros H.
  - cbn. lia.
  - apply Forall_app in H. destruct H as [H Hv]. inversion Hv; subst.
    rewrite sumZ_snoc, length_app. cbn [length]. specialize (IH H). nia.
Qed.

Lemma add_ofZ (v : num) (s x : Z) :
  (v == ofZ s)%num -> (v + ofZ x == ofZ (s + x))%num.
Proof.
  destruct v as [q| | |]; cbn [equiv]; unfold ofZ; try contradiction.
  intros H. unfold add. cbn [equiv]. rewrite H, inject_Z_plus. reflexivity.
Qed.

Section TotalsLoop.
Variable Math_pow : num -> num -> num.
Variable pixels : list Z.
Hypothesis whole : (length pixels mod 4 = 0)%nat.
Hypothesis bytes : Forall isByte pixels.

Lemma pixelLoop_totals (indices : list nat) :
  forall (t : Totals) (colors : list (Z * Z * Z)),
    (forall i, In i indices -> In i (pixelIndices (length pixels))) ->
    (totalR t == ofZ (sumZ (map red colors)))%num
    /\ (totalG t == ofZ (sumZ (map green colors)))%num
    /\ (totalB t == ofZ (sumZ (map blue colors)))%num ->
    let t' := fold_left (processPixel Math_pow pixels) indices t in
    let colors' := colors ++ map (colorAt pixels) indices in
    (totalR t' == ofZ (sumZ (map red colors')))%num
    /\ (totalG t' == ofZ (sumZ (map green colors')))%num
    /\ (totalB t' == ofZ (sumZ (map blue colors')))%num.
Proof.
  induction indices as [|i rest IH]; intros t colors Hin H; cbn [fold_left map].
  - rewrite app_nil_r. exact H.
  - replace (colors ++ colorAt pixels i :: map (colorAt pixels) rest)
      with ((colors ++ [colorAt pixels i]) ++ map (colorAt pixels) rest)
      by (rewrite <- app_assoc; reflexivity).
    apply IH; [intros j Hj; apply Hin; right; exact Hj|].
    destruct (nth_error_whole whole bytes i (Hin i (or_introl Logic.eq_refl)))
      as (E0 & E1 & E2 & _).
    destruct H as (Hr & Hg & Hb).
    unfold processPixel. rewrite E0, E1, E2. cbn [totalR totalG totalB].
    rewrite !map_app. cbn [map]. rewrite !sumZ_snoc.
    unfold colorAt, red, green, blue. cbn [fst snd].
    repeat split; apply add_ofZ; assumption.
Qed.

Lemma pixelColors_length : length (pixelColors pixels) = (length pixels / 4)%nat.
Proof.
  unfold pixelColors. rewrite length_map.
  apply (pixelIndices_whole (length pixels) whole).
Qed.

End TotalsLoop.

Lemma round_mean (v : num) (s : Z) (len : nat) :
  (len mod 4 = 0)%nat -> (0 < len)%nat -> (v == ofZ s)%num ->
  round (v / (ofNat len / ofZ 4))%num = ofZ (roundDiv s (Z.of_nat (len / 4))).
Proof.
  intros Hw Hpos Hv.
  destruct v as [q| | |]; cbn [equiv] in Hv; unfold ofZ in Hv; try contradiction.
  pose proof (Nat.div_mod_eq len 4) as Hd.
  unfold ofNat, ofZ, div.
  change (Qeq_bool (inject_Z 4) 0) with false. cbv iota.
  assert (Hn : inject_Z (Z.of_nat len) / inject_Z 4 == inject_Z (Z.of_nat (len / 4))).
  { replace (Z.of_nat len) with (Z.of_nat (len / 4) * 4)%Z by lia.
    rewrite inject_Z_mult. field. }
  assert (Hne : ~ inject_Z (Z.of_nat (len / 4)) == 0).
  { change 0 with (inject_Z 0). rewrite inject_Z_injective. lia. }
  destruct (Qeq_bool (inject_Z (Z.of_nat len) / inject_Z 4) 0) eqn:E.
  - apply Qeq_bool_iff in E. rewrite Hn in E. contradiction.
  - unfold round, ofZ. do 2 f_equal.
    apply Qfloor_roundDiv; [lia|]. rewrite Hv, Hn. reflexivity.
Qed.

(** X3.  For a non-empty buffer of whole pixels of bytes, each channel of
    the average colour of [analyzeImageColors] is the sum of that channel
    over the pixels divided by the number of pixels, rounded to the nearest
    integer (a half upwards); it is an integer in [[0, 255]]. *)
Theorem X3_average_color_is_rounded_mean :
  forall (Math_pow : num -> num -> num) (random : nat -> num)
         (DOMINANT_COLORS_COUNT PALETTE_COLORS_COUNT w h : Z)
         (pixels : list Z) (n : nat),
    validRandom random ->
    (length pixels mod 4 = 0)%nat ->
    Forall isByte pixels ->
    pixels <> [] ->
    let count := Z.of_nat (length pixels / 4) in
    exists md n',
      analyzeImageColors Math_pow random DOMINANT_COLORS_COUNT
        PALETTE_COLORS_COUNT (mkCanvas w h (Some pixels)) n = Some (md, n')
      /\ averageColor md
         = rgb (roundDiv (channelSum red pixels) count)
               (roundDiv (channelSum green pixels) count)
               (roundDiv (channelSum blue pixels) count)
      /\ isByte (roundDiv (channelSum red pixels) count)
      /\ isByte (roundDiv (channelSum green pixels) count)
      /\ isByte (roundDiv (channelSum blue pixels) count).
Proof.
  intros Math_pow random D P w h pixels n Hr Hlen Hb Hne count.
  destruct (@analyzeImageColors_returns Math_pow random D P
              (mkCanvas w h (Some pixels)) pixels n Hr Logic.eq_refl)
    as (dom & n' & rep & cands & var & _ & _ & _ & _ & E).
  eexists _, n'. split; [exact E|]. cbn [averageColor].
  assert (Hpos : (0 < length pixels)%nat).
  { destruct pixels; [congruence | cbn [length]; lia]. }
  destruct (@pixelLoop_totals Math_pow pixels Hlen Hb
              (pixelIndices (length pixels)) initialTotals [] (fun i H => H))
    as (Tr & Tg & Tb).
  { cbn. repeat split; reflexivity. }
  cbn [app] in Tr, Tg, Tb. fold (pixelColors pixels) in Tr, Tg, Tb.
  split.
  - unfold rgb, channelSum, count.
    rewrite (@round_mean _ _ _ Hlen Hpos Tr), (@round_mean _ _ _ Hlen Hpos Tg),
      (@round_mean _ _ _ Hlen Hpos Tb). reflexivity.
  - pose proof (pixelColors_bytes Hlen Hb) as Hc.
    pose proof (@pixelColors_length pixels Hlen) as Hl.
    pose proof (Nat.div_mod_eq (length pixels) 4) as Hd.
    assert (Hcount : (0 < count)%Z) by (unfold count; lia).
    assert (Hbyte : forall ch : Z * Z * Z -> Z,
               (forall c, byteEntry (c, ofZ 0) -> isByte (ch c)) ->
               isByte (roundDiv (channelSum ch pixels) count)).
    { intros ch Hch. unfold isByte, channelSum.
      apply roundDiv_bounds; [exact Hcount|].
      unfold count. rewrite <- Hl, <- (length_map ch (pixelColors pixels)).
      apply sumZ_bounds. rewrite Forall_map.
      eapply Forall_impl; [|exact Hc]. intros c Hbc. apply Hch, Hbc. }
    repeat apply conj; apply Hbyte; intros [[x y] z] (Hx & Hy & Hz);
      assumption.
Qed.

Lemma X3_witness :
  let pixels := [255; 0; 0; 255; 0; 64; 255; 255; 255; 0; 0; 9]%Z in
  exists md n',
    analyzeImageColors (fun x _ => x) (fun _ => Fin (1 # 2)) 2 2
      (mkCanvas 3 1 (Some pixels)) 0%nat = Some (md, n')
    /\ averageColor md = rgb 170 21 85.
Proof.
  intros pixels.
  assert (Hb : Forall isByte pixels).
  { repeat (constructor; [unfold isByte; lia|]). constructor. }
  assert (Hr : validRandom (fun _ => Fin (1 # 2))).
  { intros i. exists (1 # 2). split; [reflexivity|].
    split; [discriminate | reflexivity]. }
  destruct (@X3_average_color_is_rounded_mean (fun x _ => x)
              (fun _ => Fin (1 # 2)) 2 2 3 1 pixels 0%nat Hr Logic.eq_refl Hb)
    as (md & n' & E & Ha & _).
  - discriminate.
  - exists md, n'. split; [exact E | rewrite Ha; reflexivity].
Defined.

(** *** The only exception *)

(** X4.  With a random source that draws from [[0, 1)], [analyzeImageColors]
    throws exactly when the canvas gives no 2d context, whatever the pixel
    data: the clustering, the palettes and the variance never throw on
    their own.  The same holds of [extractColorPalette],
    [extractDistinctColorPalette] and [calculateColorVariance]. *)
Theorem X4_throws_exactly_without_context :
  forall (Math_pow : num -> num -> num) (random : nat -> num)
         (DOMINANT_COLORS_COUNT PALETTE_COLORS_COUNT : Z)
         (canvas : Canvas) (n : nat),
    validRandom random ->
    (analyzeImageColors Math_pow random DOMINANT_COLORS_COUNT
       PALETTE_COLORS_COUNT canvas n = None
     <-> context2d canvas = None)
    /\ (forall paletteSize : Z,
          extractColorPalette canvas paletteSize = None
          <-> context2d canvas = None)
    /\ (forall (distinctCount : Z) (candidateSizeFactor : option Z),
          extractDistinctColorPalette canvas distinctCount candidateSizeFactor
          = None
          <-> context2d canvas = None)
    /\ (calculateColorVariance canvas = None <-> context2d canvas = None).
Proof.
  intros Math_pow random D P canvas n Hr.
  destruct (context2d canvas) as [pixels|] eqn:Hc.
  - destruct (@analyzeImageColors_returns Math_pow random D P canvas pixels n
                Hr Hc) as (? & ? & ? & ? & ? & _ & _ & _ & Ev & E).
    rewrite E, Ev. split; [split; discriminate|].
    split; [|split; [|split; discriminate]].
    + intros p. destruct (@extractColorPalette_returns canvas pixels p Hc)
        as (? & ->). split; discriminate.
    + intros d f. unfold extractDistinctColorPalette.
      destruct (@extractColorPalette_returns canvas pixels
                  (d * match f with Some f => f | None => 2 end) Hc)
        as (? & ->). split; discriminate.
  - split; [|split; [|split]].
    + unfold analyzeImageColors. rewrite Hc. split; reflexivity.
    + intros p. unfold extractColorPalette. rewrite Hc. split; reflexivity.
    + intros d f. unfold extractDistinctColorPalette, extractColorPalette.
      rewrite Hc. split; reflexivity.
    + unfold calculateColorVariance. rewrite Hc. split; reflexivity.
Qed.

Lemma X4_witness :
  analyzeImageColors (fun x _ => x) (fun _ => Fin (1 # 2)) 2 2
    (mkCanvas 3 1 None) 0%nat = None
  /\ analyzeImageColors (fun x _ => x) (fun _ => Fin (1 # 2)) 2 2
       (mkCanvas 1 1 (Some [7; 30; 1; 255]%Z)) 0%nat <> None.
Proof.
  assert (Hr : validRandom (fun _ => Fin (1 # 2))).
  { intros i. exists (1 # 2). split; [reflexivity|].
    split; [discriminate | reflexivity]. }
  split.
  - apply (@X4_throws_exactly_without_context (fun x _ => x)
             (fun _ => Fin (1 # 2)) 2 2 (mkCanvas 3 1 None) 0%nat Hr).
    reflexivity.
  - intros H.
    apply (@X4_throws_exactly_without_context (fun x _ => x)
             (fun _ => Fin (1 # 2)) 2 2 (mkCanvas 1 1 (Some [7; 30; 1; 255]%Z))
             0%nat Hr) in H.
    discriminate H.
Defined.

(** *** The comparators are antisymmetric *)

Lemma sub_antisym (x y : num) : (y - x == neg (x - y))%num.
Proof.
  destruct x as [p| | |], y as [q| | |]; unfold sub, add, neg; cbn [equiv];
    try exact I.
  ring.
Qed.

Lemma neg_ofZ (z : Z) : (ofZ (- z) == neg (ofZ z))%num.
Proof. unfold ofZ, neg. cbn [equiv]. rewrite inject_Z_opp. reflexivity. Qed.

(** X5.  On every pair of images, each of the four guarded comparators
    returns for [(b, a)] the negation of what it returns for [(a, b)]: the
    order it gives to [Array.prototype.sort] does not depend on the side
    from which two images are compared. *)
Theorem X5_comparators_antisymmetric :
  forall (Math_pow : num -> num -> num) (a b : Sorting.VisualMetadata),
    (Sorting.compareByLuminance Math_pow b a
     == neg (Sorting.compareByLuminance Math_pow a b))%num
    /\ (Sorting.compareByHue Math_pow b a
        == neg (Sorting.compareByHue Math_pow a b))%num
    /\ (Sorting.compareBySaturation Math_pow b a
        == neg (Sorting.compareBySaturation Math_pow a b))%num
    /\ (Sorting.compareByColorTemperature b a
        == neg (Sorting.compareByColorTemperature a b))%num.
Proof.
  intros Math_pow a b.
  assert (Hl : (Sorting.compareByLuminance Math_pow b a
                == neg (Sorting.compareByLuminance Math_pow a b))%num).
  { unfold Sorting.compareByLuminance, Sorting.compareByLuminanceWith.
    destruct (Sorting.dominantColors a), (Sorting.dominantColors b);
      first [apply sub_antisym | apply (neg_ofZ 0)]. }
  split; [exact Hl|]. split; [|split].
  - unfold Sorting.compareByHue.
    destruct (Sorting.dominantColors a) eqn:Ea,
             (Sorting.dominantColors b) eqn:Eb;
      try apply (neg_ofZ 0).
    destruct (getWeightedHue (Sorting.colorsOrAverage a) =? ofZ (-1))%num,
             (getWeightedHue (Sorting.colorsOrAverage b) =? ofZ (-1))%num;
      cbn [andb].
    + exact Hl.
    + apply (neg_ofZ 1).
    + apply (neg_ofZ (-1)).
    + apply sub_antisym.
  - unfold Sorting.compareBySaturation.
    destruct (Sorting.dominantColors a) eqn:Ea,
             (Sorting.dominantColors b) eqn:Eb;
      try apply (neg_ofZ 0).
    destruct (snd (Sorting.getWeightedSaturation (Sorting.colorsOrAverage a))),
             (snd (Sorting.getWeightedSaturation (Sorting.colorsOrAverage b)));
      cbn [andb negb].
    + exact Hl.
    + apply (neg_ofZ 1).
    + apply (neg_ofZ (-1)).
    + apply sub_antisym.
  - unfold Sorting.compareByColorTemperature.
    destruct (Sorting.dominantColors a), (Sorting.dominantColors b);
      first [apply sub_antisym | apply (neg_ofZ 0)].
Qed.

(** *** The bounds of a box *)

Lemma atMost_refl (q : Q) : atMost (Fin q) (Fin q).
Proof. exists q, q. repeat split; apply Qle_refl. Qed.

Lemma atMost_Fin (p q : Q) : atMost (Fin p) (Fin q) <-> (p <= q)%Q.
Proof.
  split.
  - intros (a & c & Ea & Ec & H). inversion Ea; inversion Ec; subst. exact H.
  - intros H. exists q, p. repeat split; assumption.
Qed.

Lemma atMost_trans (u v w : num) : atMost u v -> atMost v w -> atMost u w.
Proof. unfold atMost. intros H1 H2. exact (heavier_trans H2 H1). Qed.

Lemma atMost_fin (u v : num) : atMost u v -> isFin u /\ isFin v.
Proof. intros (a & c & -> & -> & _). split; exact I. Qed.

Section Bounds.
Variable A : Type.
Variable f : A -> num.

Lemma least_fold (points : list A) :
  Forall (fun p => isFin (f p)) points ->
  forall m0 : num, m0 = PInf \/ isFin m0 ->
    let m := fold_left (fun m p => if (f p <? m)%num then f p else m) points m0 in
    (m = m0 \/ exists p, In p points /\ f p = m)
    /\ Forall (fun p => atMost m (f p)) points
    /\ (isFin m0 -> atMost m m0).
Proof.
  induction 1 as [|p ps Hp Hps IH]; intros m0 H0; cbn [fold_left].
  - split; [left; reflexivity|]. split; [constructor|].
    intros H. apply isFin_inv in H. destruct H as [q ->]. apply atMost_refl.
  - apply isFin_inv in Hp. destruct Hp as [q Hq].
    assert (Hstep : let m1 := if (f p <? m0)%num then f p else m0 in
                    isFin m1 /\ atMost m1 (f p) /\ (isFin m0 -> atMost m1 m0)
                    /\ (m1 = m0 \/ m1 = f p)).
    { rewrite Hq. destruct H0 as [-> | H0].
      - cbn. split; [exact I|]. split; [apply atMost_refl|].
        split; [intros []|]. right. reflexivity.
      - apply isFin_inv in H0. destruct H0 as [a ->].
        destruct (Fin q <? Fin a)%num eqn:E; cbv zeta.
        + apply lt_Fin in E. split; [exact I|]. split; [apply atMost_refl|].
          split; [intros _; apply atMost_Fin; lra | right; reflexivity].
        + apply lt_Fin_false in E. split; [exact I|].
          split; [apply atMost_Fin; exact E|].
          split; [intros _; apply atMost_refl | left; reflexivity]. }
    cbv zeta in Hstep. destruct Hstep as (F1 & A1 & A0 & Hor).
    destruct (IH _ (or_intror F1)) as (Hat & Hall & Hle).
    specialize (Hle F1). split; [|split].
    + destruct Hat as [-> | (p' & Hin & E)].
      * destruct Hor as [-> | ->]; [left; reflexivity|].
        right. exists p. split; [left; reflexivity | reflexivity].
      * right. exists p'. split; [right; exact Hin | exact E].
    + constructor; [exact (atMost_trans Hle A1) | exact Hall].
    + intros H. exact (atMost_trans Hle (A0 H)).
Qed.

Lemma greatest_fold (points : list A) :
  Forall (fun p => isFin (f p)) points ->
  forall m0 : num, m0 = NInf \/ isFin m0 ->
    let m := fold_left (fun m p => if (f p >? m)%num then f p else m) points m0 in
    (m = m0 \/ exists p, In p points /\ f p = m)
    /\ Forall (fun p => atMost (f p) m) points
    /\ (isFin m0 -> atMost m0 m).
Proof.
  induction 1 as [|p ps Hp Hps IH]; intros m0 H0; cbn [fold_left].
  - split; [left; reflexivity|]. split; [constructor|].
    intros H. apply isFin_inv in H. destruct H as [q ->]. apply atMost_refl.
  - apply isFin_inv in Hp. destruct Hp as [q Hq].
    assert (Hstep : let m1 := if (f p >? m0)%num then f p else m0 in
                    isFin m1 /\ atMost (f p) m1 /\ (isFin m0 -> atMost m0 m1)
                    /\ (m1 = m0 \/ m1 = f p)).
    { rewrite Hq. unfold gt. destruct H0 as [-> | H0].
      - cbn. split; [exact I|]. split; [apply atMost_refl|].
        split; [intros []|]. right. reflexivity.
      - apply isFin_inv in H0. destruct H0 as [a ->].
        destruct (Fin a <? Fin q)%num eqn:E; cbv zeta.
        + apply lt_Fin in E. split; [exact I|]. split; [apply atMost_refl|].
          split; [intros _; apply atMost_Fin; lra | right; reflexivity].
        + apply lt_Fin_false in E. split; [exact I|].
          split; [apply atMost_Fin; exact E|].
          split; [intros _; apply atMost_refl | left; reflexivity]. }
    cbv zeta in Hstep. destruct Hstep as (F1 & A1 & A0 & Hor).
    destruct (IH _ (or_intror F1)) as (Hat & Hall & Hle).
    specialize (Hle F1). split; [|split].
    + destruct Hat as [-> | (p' & Hin & E)].
      * destruct Hor as [-> | ->]; [left; reflexivity|].
        right. exists p. split; [left; reflexivity | reflexivity].
      * right. exists p'. split; [right; exact Hin | exact E].
    + constructor; [exact (atMost_trans A1 Hle) | exact Hall].
    + intros H. exact (atMost_trans (A0 H) Hle).
Qed.

Lemma least_fold_spec (points : list A) :
  points <> [] -> Forall (fun p => isFin (f p)) points ->
  isLeast f points
    (fold_left (fun m p => if (f p <? m)%num then f p else m) points PInf).
Proof.
  intros Hne Hf.
  destruct (least_fold Hf (or_introl Logic.eq_refl)) as (Hat & Hall & _).
  split; [|exact Hall].
  destruct Hat as [E | Hex]; [|exact Hex].
  destruct points as [|p ps]; [congruence|].
  inversion Hall as [|? ? Hp _]; subst. apply atMost_fin in Hp.
  rewrite E in Hp. destruct Hp as [[] _].
Qed.

Lemma greatest_fold_spec (points : list A) :
  points <> [] -> Forall (fun p => isFin (f p)) points ->
  isGreatest f points
    (fold_left (fun m p => if (f p >? m)%num then f p else m) points NInf).
Proof.
  intros Hne Hf.
  destruct (greatest_fold Hf (or_introl Logic.eq_refl)) as (Hat & Hall & _).
  split; [|exact Hall].
  destruct Hat as [E | Hex]; [|exact Hex].
  destruct points as [|p ps]; [congruence|].
  inversion Hall as [|? ? Hp _]; subst. apply atMost_fin in Hp.
  rewrite E in Hp. destruct Hp as [_ []].
Qed.

End Bounds.

(** The six bounds of [createColorBox] are six separate scans. *)
Lemma createColorBox_fold (l points : list DataPoint) :
  forall a1 a2 a3 a4 a5 a6 : num,
    let least f := fold_left (fun m p => if (f p <? m)%num then f p else m) points in
    let greatest f := fold_left (fun m p => if (f p >? m)%num then f p else m) points in
    fold_left
      (fun box (p : DataPoint) =>
         mkBox l
           (if (r p <? rMin box)%num then r p else rMin box)
           (if (r p >? rMax box)%num then r p else rMax box)
           (if (g p <? gMin box)%num then g p else gMin box)
           (if (g p >? gMax box)%num then g p else gMax box)
           (if (b p <? bMin box)%num then b p else bMin box)
           (if (b p >? bMax box)%num then b p else bMax box))
      points (mkBox l a1 a2 a3 a4 a5 a6)
    = mkBox l (least (channel chR) a1) (greatest (channel chR) a2)
        (least (channel chG) a3) (greatest (channel chG) a4)
        (least (channel chB) a5) (greatest (channel chB) a6).
Proof.
  cbv zeta.
  induction points as [|p ps IH]; intros a1 a2 a3 a4 a5 a6;
    cbn [fold_left]; [reflexivity|].
  cbn [rMin rMax gMin gMax bMin bMax]. rewrite IH. reflexivity.
Qed.

Lemma createColorBox_bounds (points : list DataPoint) :
  let least f := fold_left (fun m p => if (f p <? m)%num then f p else m) points PInf in
  let greatest f := fold_left (fun m p => if (f p >? m)%num then f p else m) points NInf in
  createColorBox points
  = mkBox points (least (channel chR)) (greatest (channel chR))
      (least (channel chG)) (greatest (channel chG))
      (least (channel chB)) (greatest (channel chB)).
Proof. apply createColorBox_fold. Qed.

Lemma createColorBox_tight (points : list DataPoint) :
  points <> [] -> Forall (fun p : DataPoint => finColor p) points ->
  tightBox (createColorBox points).
Proof.
  intros Hne Hf. rewrite createColorBox_bounds. unfold tightBox.
  cbn [data rMin rMax gMin gMax bMin bMax].
  assert (Hch : forall ch, Forall (fun p => isFin (channel ch p)) points).
  { intros ch. eapply Forall_impl; [|exact Hf].
    intros p (Hr & Hg & Hb). destruct ch; assumption. }
  repeat apply conj;
    first [apply least_fold_spec | apply greatest_fold_spec];
    first [exact Hne | apply Hch].
Qed.

(** X6.  [createColorBox] keeps the points it is given.  When they are
    finite and there is one at least, each bound of the box is attained: it
    is the channel of one of the points, and a bound of the channel of all
    of them.  Without points the lower bounds are [Infinity] and the upper
    bounds [-Infinity]. *)
Theorem X6_box_bounds_are_tight :
  forall points : list DataPoint,
    data (createColorBox points) = points
    /\ (points = [] ->
        createColorBox points = mkBox [] PInf NInf PInf NInf PInf NInf)
    /\ (points <> [] -> Forall (fun p : DataPoint => finColor p) points ->
        tightBox (createColorBox points)).
Proof.
  intros points. split; [apply createColorBox_data|]. split.
  - intros ->. reflexivity.
  - apply createColorBox_tight.
Qed.

Lemma X6_witness :
  let points := [mkPoint (rgb 10 200 30) (ofZ 2); mkPoint (rgb 40 20 90) (ofZ 1)] in
  tightBox (createColorBox points).
Proof.
  intros points.
  apply (X6_box_bounds_are_tight points).
  - discriminate.
  - repeat constructor.
Defined.

(** *** The split of a box *)

Lemma sorted_halves (A : Type) (R : A -> A -> Prop) (l : list A) :
  StronglySorted R l ->
  forall (m : nat) (p q : A),
    In p (firstn m l) -> In q (skipn m l) -> R p q.
Proof.
  induction 1 as [|x xs Hs IH Hall]; intros m p q Hp Hq.
  - rewrite firstn_nil in Hp. destruct Hp.
  - destruct m as [|m]; [destruct Hp|].
    cbn [firstn skipn] in Hp, Hq. destruct Hp as [<- | Hp].
    + rewrite Forall_forall in Hall. apply Hall.
      rewrite <- (firstn_skipn m xs). apply in_or_app. right. exact Hq.
    + exact (IH m p q Hp Hq).
Qed.

Lemma byChannel_gt (ch : Channel) (x y : DataPoint) :
  isFin (channel ch x) -> isFin (channel ch y) ->
  (channel ch x - channel ch y >? ofZ 0)%num = true ->
  atMost (channel ch y) (channel ch x).
Proof.
  intros Hx Hy. apply isFin_inv in Hx, Hy.
  destruct Hx as [p ->], Hy as [q ->].
  unfold sub, neg, add, gt, ofZ. intros H. apply lt_Fin in H.
  apply atMost_Fin. change (inject_Z 0) with 0%Q in H. lra.
Qed.

Lemma byChannel_le (ch : Channel) (x y : DataPoint) :
  isFin (channel ch x) -> isFin (channel ch y) ->
  (channel ch x - channel ch y >? ofZ 0)%num = false ->
  atMost (channel ch x) (channel ch y).
Proof.
  intros Hx Hy. apply isFin_inv in Hx, Hy.
  destruct Hx as [p ->], Hy as [q ->].
  unfold sub, neg, add, gt, ofZ. intros H. apply lt_Fin_false in H.
  apply atMost_Fin. change (inject_Z 0) with 0%Q in H. lra.
Qed.

Lemma splitBox_perm (box : ColorBox) :
  Permutation (data (fst (splitBox box)) ++ data (snd (splitBox box)))
              (data box).
Proof.
  unfold splitBox. cbn [fst snd]. rewrite !createColorBox_data.
  unfold sliceTo, sliceFrom. rewrite firstn_skipn. apply sort_perm.
Qed.

Lemma sub_Fin (p q : Q) : (Fin p - Fin q)%num = Fin (p + - q).
Proof. reflexivity. Qed.

Lemma ge_Fin (a c : Q) : (Fin a >=? Fin c)%num = true <-> (c <= a)%Q.
Proof. unfold ge. apply le_Fin. Qed.

Lemma ge_Fin_false (a c : Q) : (Fin a >=? Fin c)%num = false <-> (a < c)%Q.
Proof.
  rewrite <- not_true_iff_false, ge_Fin. split.
  - apply Qnot_le_lt.
  - apply Qlt_not_le.
Qed.

Lemma longestChannel_spec (box : ColorBox) (ch : Channel) :
  (forall c, isFin (extent c box)) ->
  atMost (extent ch box) (extent (longestChannel box) box).
Proof.
  intros Hf.
  pose proof (Hf chR) as Hr. pose proof (Hf chG) as Hg. pose proof (Hf chB) as Hb.
  apply isFin_inv in Hr, Hg, Hb.
  destruct Hr as [er Er], Hg as [eg Eg], Hb as [eb Eb].
  unfold longestChannel. cbn [extent] in Er, Eg, Eb.
  rewrite Er, Eg, Eb.
  destruct (Fin eg >=? Fin er)%num eqn:E1;
    destruct (Fin eg >=? Fin eb)%num eqn:E2;
    destruct (Fin eb >=? Fin er)%num eqn:E3;
    destruct (Fin eb >=? Fin eg)%num eqn:E4;
    cbn [andb];
    repeat match goal with
           | H : (_ >=? _)%num = true |- _ => apply ge_Fin in H
           | H : (_ >=? _)%num = false |- _ => apply ge_Fin_false in H
           end;
    destruct ch; cbn [extent]; rewrite ?Er, ?Eg, ?Eb; apply atMost_Fin; lra.
Qed.

(** X7.  [splitBox] divides the points of a box between its two halves:
    together the halves hold the points of the box, each as often as the
    box does.  When the points are finite, every point of the first half is
    at most every point of the second on the channel of the split, and when
    the extents of the box are finite that channel is one along which the
    box is longest. *)
Theorem X7_split_divides_points_in_order :
  forall box : ColorBox,
    let ch := longestChannel box in
    Permutation (data (fst (splitBox box)) ++ data (snd (splitBox box)))
                (data box)
    /\ (Forall (fun p : DataPoint => finColor p) (data box) ->
        forall p q : DataPoint,
          In p (data (fst (splitBox box))) ->
          In q (data (snd (splitBox box))) ->
          atMost (channel ch p) (channel ch q))
    /\ ((forall c, isFin (extent c box)) ->
        forall c, atMost (extent c box) (extent ch box)).
Proof.
  intros box ch. split; [apply splitBox_perm|]. split.
  - intros Hf p q. unfold splitBox. cbn [fst snd].
    rewrite !createColorBox_data. unfold sliceTo, sliceFrom. fold ch.
    intros Hp Hq.
    refine (@sorted_halves _ (fun x y => atMost (channel ch x) (channel ch y))
              _ _ _ p q Hp Hq).
    apply sort_sorted with (ok := fun p => isFin (channel ch p)).
    + intros x y z. apply atMost_trans.
    + intros x y. apply byChannel_gt.
    + intros x y. apply byChannel_le.
    + eapply Forall_impl; [|exact Hf].
      intros d (Hr & Hg & Hb). destruct ch; assumption.
  - intros Hf c. apply longestChannel_spec, Hf.
Qed.

Lemma X7_witness :
  let box := createColorBox
               [mkPoint (rgb 10 200 30) (ofZ 2); mkPoint (rgb 40 20 90) (ofZ 1);
                mkPoint (rgb 250 100 60) (ofZ 5)] in
  (forall p q : DataPoint,
     In p (data (fst (splitBox box))) -> In q (data (snd (splitBox box))) ->
     atMost (channel (longestChannel box) p) (channel (longestChannel box) q))
  /\ forall c, atMost (extent c box) (extent (longestChannel box) box).
Proof.
  intros box.
  destruct (X7_split_divides_points_in_order box) as (_ & H1 & H2).
  split.
  - apply H1. repeat constructor.
  - apply H2. intros []; exact I.
Defined.

(** *** The boxes divide the points *)

Lemma splice1_split (A : Type) (i : nat) (x y a : A) (l : list A) :
  nth_error l i = Some a ->
  exists l1 l2, l = l1 ++ a :: l2 /\ splice1 i x y l = l1 ++ x :: y :: l2.
Proof.
  intros H. destruct (nth_error_split l i H) as (l1 & l2 & -> & <-).
  exists l1, l2. split; [reflexivity|]. unfold splice1.
  rewrite firstn_app, firstn_all, Nat.sub_diag. cbn [firstn].
  rewrite app_nil_r.
  replace (S (length l1)) with (length l1 + 1)%nat by lia.
  rewrite skipn_app, skipn_all2 by lia.
  replace (length l1 + 1 - length l1)%nat with 1%nat by lia.
  reflexivity.
Qed.

Lemma cutStep_perm (boxes boxes' : list ColorBox) :
  cutStep boxes = Some boxes' ->
  Permutation (flat_map data boxes') (flat_map data boxes)
  /\ (Forall (fun box => data box <> []) boxes ->
      Forall (fun box => data box <> []) boxes').
Proof.
  intros E. destruct (cutStep_splits _ E) as (i & box & Hi & Hlen & ->).
  destruct (splitBox_halves box Hlen) as (H1 & H2 & _).
  destruct (@splice1_split _ i (fst (splitBox box)) (snd (splitBox box)) box
              boxes Hi) as (l1 & l2 & -> & ->).
  split.
  - rewrite !flat_map_app. cbn [flat_map].
    apply Permutation_app_head. rewrite app_assoc.
    apply Permutation_app_tail. apply splitBox_perm.
  - intros Hb. apply Forall_app in Hb. destruct Hb as [Hb1 Hb2].
    inversion Hb2; subst. apply Forall_app. split; [assumption|].
    constructor; [intros E0; rewrite E0 in H1; cbn in H1; lia|].
    constructor; [intros E0; rewrite E0 in H2; cbn in H2; lia | assumption].
Qed.

Lemma cutLoop_perm (fuel : nat) :
  forall (boxes : list ColorBox) (paletteSize : Z),
    Permutation (flat_map data (cutLoop fuel boxes paletteSize))
                (flat_map data boxes)
    /\ (Forall (fun box => data box <> []) boxes ->
        Forall (fun box => data box <> []) (cutLoop fuel boxes paletteSize)).
Proof.
  induction fuel as [|fuel IH]; intros boxes paletteSize; cbn [cutLoop];
    [split; [apply Permutation_refl | auto]|].
  destruct (Z.of_nat (length boxes) <? paletteSize)%Z;
    [|split; [apply Permutation_refl | auto]].
  destruct (cutStep boxes) as [boxes'|] eqn:E;
    [|split; [apply Permutation_refl | auto]].
  destruct (cutStep_perm _ E) as [P1 N1].
  destruct (IH boxes' paletteSize) as [P2 N2].
  split; [exact (perm_trans P2 P1) | auto].
Qed.

(** X8.  The palette of [medianCutQuantize] is made of the weighted
    averages of groups of the points: the groups are not empty and together
    they hold every point, each as often as the input does, so every point
    counts in one colour of the palette and in one only. *)
Theorem X8_palette_averages_a_division_of_the_points :
  forall (points : list DataPoint) (paletteSize : Z),
    exists groups : list (list DataPoint),
      medianCutQuantize points paletteSize = map computeAverageColor groups
      /\ Permutation (concat groups) points
      /\ Forall (fun group => group <> []) groups.
Proof.
  intros points paletteSize. unfold medianCutQuantize.
  destruct points as [|p ps] eqn:Ep.
  - exists []. repeat split; constructor.
  - rewrite <- Ep. replace (length points =? 0)%nat with false
      by (rewrite Ep; reflexivity).
    destruct (cutLoop_perm (Z.to_nat paletteSize) [createColorBox points]
                paletteSize) as [P N].
    exists (map data (cutLoop (Z.to_nat paletteSize) [createColorBox points]
                        paletteSize)).
    split; [rewrite map_map; reflexivity|]. split.
    + rewrite <- flat_map_concat_map.
      eapply perm_trans; [exact P|].
      cbn [flat_map]. rewrite app_nil_r, createColorBox_data.
      apply Permutation_refl.
    + rewrite Forall_map. apply N. constructor; [|constructor].
      rewrite createColorBox_data, Ep. discriminate.
Qed.

(** *** The palette of a canvas of bytes *)

Lemma parseBoosted_bytePoint (x y z : option Z) (q : Q) (d : DataPoint) :
  byteOrUndefined x -> byteOrUndefined y -> byteOrUndefined z ->
  (1 <= q)%Q ->
  parseBoosted ((showElem x ++ "," ++ showElem y ++ "," ++ showElem z)%string, Fin q)
  = Some d ->
  bytePoint d.
Proof.
  intros Hx Hy Hz Hq. unfold parseBoosted.
  rewrite parts_of_key by assumption.
  destruct x as [x|], y as [y|], z as [z|]; try discriminate.
  cbn [byteOrUndefined] in *.
  destruct (@getSaturation_bytes x y z) as (s & -> & Hs); try lia.
  intros E. inversion E; subst. split.
  - exists x, y, z. split; [exact Hx|]. split; [exact Hy|].
    split; [exact Hz | reflexivity].
  - cbn [count]. unfold saturationFactor, ofZ, mul, add.
    eexists. split; [reflexivity|].
    change (inject_Z 1) with 1%Q. nra.
Qed.

Lemma boosted_bytePoints (colorCounts : ColorCounts) :
  Forall countedEntry colorCounts ->
  Forall bytePoint (filterSome (map parseBoosted colorCounts)).
Proof.
  induction 1 as [|[key v] es He Hes IH]; cbn [map filterSome]; [constructor|].
  destruct (parseBoosted (key, v)) as [d|] eqn:E; [|exact IH].
  constructor; [|exact IH].
  destruct He as [(q & Hq & Hq1) (x & y & z & Hx & Hy & Hz & Hk)].
  cbn [fst snd] in *. subst key v.
  exact (@parseBoosted_bytePoint x y z q d Hx Hy Hz Hq1 E).
Qed.

Lemma average_fold_bytes (points : list DataPoint) :
  Forall bytePoint points ->
  forall a c d t : Q,
    (0 <= t)%Q -> (0 <= a <= 255 * t)%Q -> (0 <= c <= 255 * t)%Q ->
    (0 <= d <= 255 * t)%Q ->
    exists a' c' d' t' : Q,
      fold_left
        (fun '(sumR, sumG, sumB, total) (p : DataPoint) =>
           ((sumR + r p * count p)%num, (sumG + g p * count p)%num,
            (sumB + b p * count p)%num, (total + count p)%num))
        points (Fin a, Fin c, Fin d, Fin t)
      = (Fin a', Fin c', Fin d', Fin t')
      /\ (t <= t')%Q /\ (points <> [] -> (t < t')%Q)
      /\ (0 <= a' <= 255 * t')%Q /\ (0 <= c' <= 255 * t')%Q
      /\ (0 <= d' <= 255 * t')%Q.
Proof.
  induction 1 as [|p ps Hp Hps IH]; intros a c d t Ht Ha Hc Hd.
  - exists a, c, d, t. split; [reflexivity|]. split; [lra|].
    split; [congruence|]. repeat split; lra.
  - cbn [fold_left].
    destruct Hp as [(x & y & z & Hx & Hy & Hz & Ep) (q & Hq & Hq0)].
    rewrite Ep, Hq. unfold rgb. cbn [r g b]. unfold ofZ, mul, add.
    unfold isByte in Hx, Hy, Hz.
    assert (Bx : (0 <= inject_Z x <= 255)%Q).
    { change 0%Q with (inject_Z 0). change 255%Q with (inject_Z 255).
      rewrite <- !Zle_Qle. exact Hx. }
    assert (By : (0 <= inject_Z y <= 255)%Q).
    { change 0%Q with (inject_Z 0). change 255%Q with (inject_Z 255).
      rewrite <- !Zle_Qle. exact Hy. }
    assert (Bz : (0 <= inject_Z z <= 255)%Q).
    { change 0%Q with (inject_Z 0). change 255%Q with (inject_Z 255).
      rewrite <- !Zle_Qle. exact Hz. }
    destruct (IH (a + inject_Z x * q)%Q (c + inject_Z y * q)%Q
                 (d + inject_Z z * q)%Q (t + q)%Q)
      as (a' & c' & d' & t' & E & Hle & _ & Ha' & Hc' & Hd');
      try nra.
    exists a', c', d', t'. split; [exact E|].
    split; [lra|]. split; [intros _; lra|]. repeat split; lra.
Qed.

Lemma round_mean_byte (a t : Q) :
  (0 < t)%Q -> (0 <= a <= 255 * t)%Q ->
  exists x : Z, isByte x /\ round (Fin a / Fin t)%num = ofZ x.
Proof.
  intros Ht Ha. unfold div.
  destruct (Qeq_bool t 0) eqn:E; [apply Qeq_bool_iff in E; lra|].
  unfold round. eexists. split; [|reflexivity].
  assert (Hq : (0 <= a / t <= 255)%Q).
  { split.
    - apply Qle_shift_div_l; [exact Ht | lra].
    - apply Qle_shift_div_r; [exact Ht | lra]. }
  unfold isByte. split.
  - rewrite <- (Qfloor_Z 0). apply Qfloor_resp_le.
    change (inject_Z 0) with 0%Q. lra.
  - rewrite <- (Qfloor_half 255). apply Qfloor_resp_le.
    change (inject_Z 255) with 255%Q. lra.
Qed.

Lemma computeAverageColor_bytes (points : list DataPoint) :
  points <> [] -> Forall bytePoint points ->
  byteColor (computeAverageColor points).
Proof.
  intros Hne Hp. unfold computeAverageColor.
  destruct (@average_fold_bytes points Hp 0 0 0 0)
    as (a & c & d & t & E & _ & Ht & Ha & Hc & Hd); try lra.
  specialize (Ht Hne).
  change (ofZ 0) with (Fin 0). rewrite E.
  destruct (round_mean_byte Ht Ha) as (x & Hx & ->).
  destruct (round_mean_byte Ht Hc) as (y & Hy & ->).
  destruct (round_mean_byte Ht Hd) as (z & Hz & ->).
  exists x, y, z. split; [exact Hx|]. split; [exact Hy|].
    split; [exact Hz | reflexivity].
Qed.

Lemma medianCutQuantize_bytes (points : list DataPoint) (paletteSize : Z) :
  Forall bytePoint points ->
  Forall byteColor (medianCutQuantize points paletteSize).
Proof.
  intros Hp. unfold medianCutQuantize.
  destruct points as [|p ps] eqn:Ep; [constructor|]. rewrite <- Ep in *.
  replace (length points =? 0)%nat with false by (rewrite Ep; reflexivity).
  destruct (cutLoop_perm (Z.to_nat paletteSize) [createColorBox points]
              paletteSize) as [P N].
  cbn [flat_map] in P. rewrite app_nil_r, createColorBox_data in P.
  rewrite Forall_map, Forall_forall. intros box Hbox.
  apply computeAverageColor_bytes.
  - assert (Hn : Forall (fun box => data box <> []) [createColorBox points]).
    { constructor; [|constructor]. rewrite createColorBox_data, Ep. discriminate. }
    apply N in Hn. rewrite Forall_forall in Hn. apply Hn, Hbox.
  - rewrite Forall_forall. intros d Hd.
    rewrite Forall_forall in Hp. apply Hp.
    apply (Permutation_in _ P). apply in_flat_map. exists box. split; assumption.
Qed.

Lemma extractColorPalette_bytes :
  forall (canvas : Canvas) (pixels : list Z) (paletteSize : Z),
    context2d canvas = Some pixels -> Forall isByte pixels ->
    exists colors : list Color,
      extractColorPalette canvas paletteSize = Some colors
      /\ Forall byteColor colors.
Proof.
  intros canvas pixels paletteSize Hc Hb. unfold extractColorPalette.
  rewrite Hc. destruct (length _ =? 0)%nat.
  - exists []. split; [reflexivity | constructor].
  - eexists. split; [reflexivity|].
    apply medianCutQuantize_bytes, boosted_bytePoints, countColors_entries, Hb.
Qed.

(** X9.  For a canvas whose pixel data are bytes, every colour of the
    palette of [extractColorPalette] has integer channels in [[0, 255]]:
    the weighted averages are rounded, and an average of bytes of positive
    weights stays within the bytes. *)
Theorem X9_palette_colors_are_bytes :
  forall (canvas : Canvas) (pixels : list Z) (paletteSize : Z),
    context2d canvas = Some pixels -> Forall isByte pixels ->
    exists colors : list Color,
      extractColorPalette canvas paletteSize = Some colors
      /\ Forall byteColor colors.
Proof. apply extractColorPalette_bytes. Qed.

Lemma X9_witness :
  exists colors : list Color,
    extractColorPalette
      (mkCanvas 3 1 (Some [255; 0; 0; 255; 0; 64; 255; 255; 255; 0; 0; 9]%Z)) 2
    = Some colors
    /\ Forall byteColor colors.
Proof.
  apply (@X9_palette_colors_are_bytes
           (mkCanvas 3 1 (Some [255; 0; 0; 255; 0; 64; 255; 255; 255; 0; 0; 9]%Z))
           [255; 0; 0; 255; 0; 64; 255; 255; 255; 0; 0; 9]%Z 2 Logic.eq_refl).
  repeat (constructor; [unfold isByte; lia|]). constructor.
Defined.

(** *** The size of the palette *)

Lemma maxList3_Fin (a c d : Q) :
  exists m : Q, maxList [Fin a; Fin c; Fin d] = Fin m
                /\ (a <= m)%Q /\ (c <= m)%Q /\ (d <= m)%Q
                /\ (m == a \/ m == c \/ m == d)%Q.
Proof.
  unfold maxList. cbn [fold_left]. change (max NInf (Fin a)) with (Fin a).
  unfold max. cbn [isNaN orb].
  destruct (Fin a <? Fin c)%num eqn:E1.
  - apply lt_Fin in E1. destruct (Fin c <? Fin d)%num eqn:E2.
    + apply lt_Fin in E2. exists d. split; [reflexivity|].
      repeat split; lra.
    + apply lt_Fin_false in E2. exists c. split; [reflexivity|].
      repeat split; lra.
  - apply lt_Fin_false in E1. destruct (Fin a <? Fin d)%num eqn:E2.
    + apply lt_Fin in E2. exists d. split; [reflexivity|].
      repeat split; lra.
    + apply lt_Fin_false in E2. exists a. split; [reflexivity|].
      repeat split; lra.
Qed.

Lemma extent_tight (box : ColorBox) (ch : Channel) (lo hi : num) :
  data box <> [] ->
  isLeast (channel ch) (data box) lo -> isGreatest (channel ch) (data box) hi ->
  exists a c : Q, lo = Fin a /\ hi = Fin c /\ (a <= c)%Q
    /\ (forall p, In p (data box) ->
          exists q, channel ch p = Fin q /\ (a <= q <= c)%Q)
    /\ (forall p, data box = [p] -> (a == c)%Q).
Proof.
  intros Hne [(pl & Hpl & El) Hl] [(ph & Hph & Eh) Hh].
  rewrite Forall_forall in Hl, Hh.
  destruct (data box) as [|p0 ps] eqn:Ed; [congruence|].
  destruct (atMost_fin (Hl p0 (or_introl Logic.eq_refl))) as [Fl _].
  destruct (atMost_fin (Hh p0 (or_introl Logic.eq_refl))) as [_ Fh].
  apply isFin_inv in Fl, Fh. destruct Fl as [a ->], Fh as [c ->].
  assert (Hin : forall p, In p (p0 :: ps) ->
                  exists q, channel ch p = Fin q /\ (a <= q <= c)%Q).
  { intros p Hp. pose proof (Hl p Hp) as H1. pose proof (Hh p Hp) as H2.
    destruct (atMost_fin H1) as [_ Fp]. apply isFin_inv in Fp.
    destruct Fp as [q Eq]. rewrite Eq in H1, H2.
    apply atMost_Fin in H1, H2. exists q. split; [exact Eq | lra]. }
  exists a, c. split; [reflexivity|]. split; [reflexivity|].
  destruct (Hin p0 (or_introl Logic.eq_refl)) as (q0 & _ & H0).
  split; [lra|]. split; [exact Hin|].
  intros p Ep. inversion Ep; subst.
  destruct Hpl as [<- | []]. destruct Hph as [<- | []].
  rewrite El in Eh. inversion Eh. reflexivity.
Qed.

(** A box made by [createColorBox] of points of integer colours. *)
Lemma boxRange_spec (points : list DataPoint) :
  points <> [] -> Forall (fun p : DataPoint => byteColor p) points ->
  exists m : Q,
    boxRange (createColorBox points) = Fin m /\ (0 <= m)%Q
    /\ (forall p, points = [p] -> (m == 0)%Q)
    /\ (forall p q, In p points -> In q points -> point p <> point q -> (0 < m)%Q).
Proof.
  intros Hne Hb.
  assert (Hf : Forall (fun p : DataPoint => finColor p) points).
  { eapply Forall_impl; [|exact Hb].
    intros d (x & y & z & _ & _ & _ & ->). repeat split. }
  destruct (createColorBox_tight Hne Hf) as (Lr & Gr & Lg & Gg & Lb & Gb).
  set (box := createColorBox points) in *.
  assert (Hd : data box = points) by apply createColorBox_data.
  assert (Hne' : data box <> []) by (rewrite Hd; exact Hne).
  destruct (@extent_tight box chR _ _ Hne' Lr Gr) as (r0 & r1 & Er0 & Er1 & Hr & Hrin & Hr1).
  destruct (@extent_tight box chG _ _ Hne' Lg Gg) as (g0 & g1 & Eg0 & Eg1 & Hg & Hgin & Hg1).
  destruct (@extent_tight box chB _ _ Hne' Lb Gb) as (b0 & b1 & Eb0 & Eb1 & Hbb & Hbin & Hb1).
  unfold boxRange. rewrite Er0, Er1, Eg0, Eg1, Eb0, Eb1, !sub_Fin.
  destruct (maxList3_Fin (r1 + - r0) (g1 + - g0) (b1 + - b0))
    as (m & -> & M1 & M2 & M3 & Hm).
  exists m. split; [reflexivity|]. split; [lra|]. split.
  - intros p Ep. rewrite <- Hd in Ep.
    specialize (Hr1 p Ep). specialize (Hg1 p Ep). specialize (Hb1 p Ep).
    destruct Hm as [-> | [-> | ->]]; lra.
  - intros p q Hp Hq Hpq. rewrite <- Hd in Hp, Hq.
    rewrite Forall_forall in Hb.
    destruct (Hb p ltac:(rewrite <- Hd; exact Hp))
      as (x & y & z & _ & _ & _ & Ep).
    destruct (Hb q ltac:(rewrite <- Hd; exact Hq))
      as (x' & y' & z' & _ & _ & _ & Eq).
    destruct (Hrin p Hp) as (pr & Epr & Hpr).
    destruct (Hrin q Hq) as (qr & Eqr & Hqr).
    destruct (Hgin p Hp) as (pg & Epg & Hpg).
    destruct (Hgin q Hq) as (qg & Eqg & Hqg).
    destruct (Hbin p Hp) as (pb & Epb & Hpb).
    destruct (Hbin q Hq) as (qb & Eqb & Hqb).
    cbn [channel] in *. rewrite Ep in Epr, Epg, Epb. rewrite Eq in Eqr, Eqg, Eqb.
    unfold rgb, ofZ in *. cbn [r g b] in *.
    injection Epr as <-. injection Epg as <-. injection Epb as <-.
    injection Eqr as <-. injection Eqg as <-. injection Eqb as <-.
    destruct (Z.eq_dec x x') as [-> | Nx];
      [destruct (Z.eq_dec y y') as [-> | Ny];
         [destruct (Z.eq_dec z z') as [-> | Nz]|]|].
    + exfalso. apply Hpq. rewrite Ep, Eq. reflexivity.
    + assert (~ inject_Z z == inject_Z z') by (rewrite inject_Z_injective; exact Nz).
      destruct (Qlt_le_dec (inject_Z z) (inject_Z z'));
        [lra | destruct (Qlt_le_dec (inject_Z z') (inject_Z z)); [lra|]].
      exfalso. apply H. apply Qle_antisym; assumption.
    + assert (~ inject_Z y == inject_Z y') by (rewrite inject_Z_injective; exact Ny).
      destruct (Qlt_le_dec (inject_Z y) (inject_Z y'));
        [lra | destruct (Qlt_le_dec (inject_Z y') (inject_Z y)); [lra|]].
      exfalso. apply H. apply Qle_antisym; assumption.
    + assert (~ inject_Z x == inject_Z x') by (rewrite inject_Z_injective; exact Nx).
      destruct (Qlt_le_dec (inject_Z x) (inject_Z x'));
        [lra | destruct (Qlt_le_dec (inject_Z x') (inject_Z x)); [lra|]].
      exfalso. apply H. apply Qle_antisym; assumption.
Qed.

Lemma distinctBox_range (box : ColorBox) :
  distinctBox box ->
  exists m : Q,
    boxRange box = Fin m /\ (0 <= m)%Q
    /\ ((length (data box) <= 1)%nat -> (m == 0)%Q)
    /\ ((2 <= length (data box))%nat -> (0 < m)%Q).
Proof.
  intros (Hne & Ebox & Hb & Hnd).
  destruct (boxRange_spec Hne Hb) as (m & Em & Hm & H1 & H2).
  rewrite <- Ebox in Em. exists m. split; [exact Em|]. split; [exact Hm|].
  split.
  - intros Hl. destruct (data box) as [|p [|q ps]] eqn:Ed;
      [congruence | apply (H1 p); reflexivity | cbn in Hl; lia].
  - intros Hl. destruct (data box) as [|p [|q ps]] eqn:Ed;
      [cbn in Hl; lia | cbn in Hl; lia|].
    apply (H2 p q); [left; reflexivity | right; left; reflexivity|].
    cbn [map] in Hnd. inversion Hnd as [|? ? Hnin _]; subst.
    intros E. apply Hnin. left. symmetry. exact E.
Qed.

(** The scan of [selectBox] returns a box of largest range. *)
Lemma selectBox_scan (boxes : list ColorBox) :
  Forall (fun box => isFin (boxRange box)) boxes ->
  forall (seen : list ColorBox) (acc : option nat) (m : num),
    (acc = None /\ m = NInf /\ seen = [])
    \/ (exists j box, acc = Some j /\ nth_error seen j = Some box
                      /\ m = boxRange box /\ isFin m
                      /\ Forall (fun box' => atMost (boxRange box') m) seen) ->
    seen ++ boxes <> [] ->
    exists j box,
      selectBox boxes (length seen) acc m = Some j
      /\ nth_error (seen ++ boxes) j = Some box
      /\ Forall (fun box' => atMost (boxRange box') (boxRange box)) (seen ++ boxes).
Proof.
  induction 1 as [|box rest Hbox Hrest IH]; intros seen acc m Hacc Hne;
    cbn [selectBox].
  - rewrite app_nil_r in *.
    destruct Hacc as [(_ & _ & ->) | (j & box & -> & Hj & -> & _ & Hall)];
      [congruence|].
    exists j, box. repeat split; assumption.
  - apply isFin_inv in Hbox. destruct Hbox as [q Eq].
    replace (seen ++ box :: rest) with ((seen ++ [box]) ++ rest)
      by (rewrite <- app_assoc; reflexivity).
    replace (S (length seen)) with (length (seen ++ [box]))
      by (rewrite length_app; cbn; lia).
    assert (Hnth : nth_error (seen ++ [box]) (length seen) = Some box)
      by (rewrite nth_error_app2, Nat.sub_diag by lia; reflexivity).
    assert (Hself : atMost (boxRange box) (boxRange box))
      by (rewrite Eq; apply atMost_refl).
    assert (Hfin : isFin (boxRange box)) by (rewrite Eq; exact I).
    destruct Hacc as [(-> & -> & ->) | (j & box0 & -> & Hj & -> & Fm & Hall)].
    + replace (boxRange box >? NInf)%num with true by (rewrite Eq; reflexivity).
      apply IH; [|destruct rest; discriminate].
      right. exists 0%nat, box. split; [reflexivity|].
      split; [exact Hnth|]. split; [reflexivity|]. split; [exact Hfin|].
      constructor; [exact Hself | constructor].
    + pose proof Fm as Fm'. apply isFin_inv in Fm'. destruct Fm' as [m Em].
      destruct (boxRange box >? boxRange box0)%num eqn:E.
      * apply IH; [|destruct seen; discriminate].
        right. exists (length seen), box. split; [reflexivity|].
        split; [exact Hnth|]. split; [reflexivity|]. split; [exact Hfin|].
        rewrite Eq, Em in E. apply lt_Fin in E.
        apply Forall_app. split; [|constructor; [exact Hself | constructor]].
        eapply Forall_impl; [|exact Hall]. intros b' Hb'.
        eapply atMost_trans; [exact Hb'|]. rewrite Eq, Em.
        apply atMost_Fin. lra.
      * apply IH; [|destruct seen; discriminate].
        right. exists j, box0. split; [reflexivity|].
        split; [rewrite nth_error_app1; [exact Hj|];
                apply nth_error_Some; congruence|].
        split; [reflexivity|]. split; [exact Fm|].
        rewrite Eq, Em in E. apply lt_Fin_false in E.
        apply Forall_app. split; [exact Hall|].
        constructor; [|constructor]. rewrite Eq, Em. apply atMost_Fin. exact E.
Qed.

Lemma distinctBox_split (box : ColorBox) :
  distinctBox box -> (2 <= length (data box))%nat ->
  distinctBox (fst (splitBox box)) /\ distinctBox (snd (splitBox box)).
Proof.
  intros (Hne & Ebox & Hb & Hnd) Hlen.
  destruct (splitBox_halves box Hlen) as (H1 & H2 & _).
  pose proof (splitBox_perm box) as P.
  assert (Hall : Forall (fun p : DataPoint => byteColor p)
                   (data (fst (splitBox box)) ++ data (snd (splitBox box)))).
  { apply Permutation_Forall with (1 := Permutation_sym P). exact Hb. }
  apply Forall_app in Hall. destruct Hall as [Hb1 Hb2].
  assert (Hnd' : NoDup (map point (data (fst (splitBox box)))
                        ++ map point (data (snd (splitBox box))))).
  { rewrite <- map_app.
    apply Permutation_NoDup with (1 := Permutation_sym (Permutation_map point P)).
    exact Hnd. }
  split.
  - split; [intros E; rewrite E in H1; cbn in H1; lia|].
    split; [unfold splitBox; cbn [fst]; rewrite createColorBox_data; reflexivity|].
    split; [exact Hb1 | exact (NoDup_app_remove_r _ _ Hnd')].
  - split; [intros E; rewrite E in H2; cbn in H2; lia|].
    split; [unfold splitBox; cbn [snd]; rewrite createColorBox_data; reflexivity|].
    split; [exact Hb2 | exact (NoDup_app_remove_l _ _ Hnd')].
Qed.

Lemma cutStep_distinct (boxes boxes' : list ColorBox) :
  Forall distinctBox boxes -> cutStep boxes = Some boxes' ->
  Forall distinctBox boxes'.
Proof.
  intros Hb E. destruct (cutStep_splits _ E) as (i & box & Hi & Hlen & ->).
  assert (Hbox : distinctBox box).
  { rewrite Forall_forall in Hb. eapply Hb, nth_error_In, Hi. }
  destruct (distinctBox_split Hbox Hlen) as [H1 H2].
  apply splice1_Forall; assumption.
Qed.

Lemma cutLoop_distinct (fuel : nat) :
  forall (boxes : list ColorBox) (paletteSize : Z),
    Forall distinctBox boxes -> Forall distinctBox (cutLoop fuel boxes paletteSize).
Proof.
  induction fuel as [|fuel IH]; intros boxes paletteSize Hb; cbn [cutLoop];
    [exact Hb|].
  destruct (Z.of_nat (length boxes) <? paletteSize)%Z; [|exact Hb].
  destruct (cutStep boxes) as [boxes'|] eqn:E; [|exact Hb].
  apply IH. eapply cutStep_distinct; eassumption.
Qed.

(** The loop leaves by [break] only when every box holds one point. *)
Lemma cutStep_none (boxes : list ColorBox) :
  boxes <> [] -> Forall distinctBox boxes -> cutStep boxes = None ->
  Forall (fun box => length (data box) = 1%nat) boxes.
Proof.
  intros Hne Hb. unfold cutStep.
  assert (Hf : Forall (fun box => isFin (boxRange box)) boxes).
  { eapply Forall_impl; [|exact Hb]. intros box Hbox.
    destruct (distinctBox_range Hbox) as (m & -> & _). exact I. }
  destruct (@selectBox_scan boxes Hf [] None NInf)
    as (j & box & Es & Hj & Hall);
    [left; repeat split | exact Hne|].
  cbn [app length] in Es, Hj, Hall. rewrite Es, Hj.
  destruct (Nat.leb_spec (length (data box)) 1) as [Hl | Hl];
    [|rewrite (surjective_pairing (splitBox box)); discriminate].
  intros _.
  assert (Hbox : distinctBox box).
  { rewrite Forall_forall in Hb. eapply Hb, nth_error_In, Hj. }
  destruct (distinctBox_range Hbox) as (m & Em & _ & Hm0 & _).
  specialize (Hm0 Hl). rewrite Em in Hall.
  rewrite Forall_forall in *. intros box' Hin.
  destruct (distinctBox_range (Hb box' Hin)) as (m' & Em' & _ & _ & Hpos).
  pose proof (Hall box' Hin) as Hle. rewrite Em' in Hle.
  apply atMost_Fin in Hle.
  destruct (Hb box' Hin) as (Hne' & _).
  destruct (data box') as [|p [|q ps]]; [congruence | reflexivity|].
  cbn [length] in Hpos. specialize (Hpos ltac:(lia)). lra.
Qed.

Lemma flat_map_singletons (boxes : list ColorBox) :
  Forall (fun box => length (data box) = 1%nat) boxes ->
  length (flat_map data boxes) = length boxes.
Proof.
  induction 1 as [|box rest H _ IH]; cbn [flat_map length]; [reflexivity|].
  rewrite length_app, H, IH. reflexivity.
Qed.

Lemma flat_map_nonempty (boxes : list ColorBox) :
  Forall (fun box => data box <> []) boxes ->
  (length boxes <= length (flat_map data boxes))%nat.
Proof.
  induction 1 as [|box rest H _ IH]; cbn [flat_map length]; [lia|].
  rewrite length_app. destruct (data box); [congruence | cbn [length]; lia].
Qed.

Lemma medianCutQuantize_size (points : list DataPoint) (paletteSize : Z) :
  Forall (fun p : DataPoint => byteColor p) points ->
  NoDup (map point points) ->
  Z.of_nat (length (medianCutQuantize points paletteSize))
  = Z.min (Z.max 1 paletteSize) (Z.of_nat (length points)).
Proof.
  intros Hb Hnd. unfold medianCutQuantize.
  destruct points as [|p ps] eqn:Ep; [cbn; lia|]. rewrite <- Ep in *.
  replace (length points =? 0)%nat with false by (rewrite Ep; reflexivity).
  rewrite length_map.
  set (boxes := cutLoop (Z.to_nat paletteSize) [createColorBox points] paletteSize).
  assert (H0 : Forall distinctBox [createColorBox points]).
  { constructor; [|constructor]. unfold distinctBox.
    rewrite createColorBox_data. repeat apply conj; try assumption.
    - rewrite Ep. discriminate.
    - reflexivity. }
  pose proof (cutLoop_distinct (Z.to_nat paletteSize) paletteSize H0) as Hd.
  destruct (cutLoop_perm (Z.to_nat paletteSize) [createColorBox points]
              paletteSize) as [P N].
  fold boxes in Hd, P, N.
  cbn [flat_map] in P. rewrite app_nil_r, createColorBox_data in P.
  assert (Hn : Forall (fun box => data box <> []) boxes).
  { eapply Forall_impl; [|exact Hd]. intros box (H & _). exact H. }
  pose proof (flat_map_nonempty Hn) as Hle.
  rewrite (Permutation_length P) in Hle.
  pose proof (cutLoop_length (Z.to_nat paletteSize) [createColorBox points]
                paletteSize) as Hmax.
  fold boxes in Hmax. cbn [length] in Hmax.
  assert (Hpos : (0 < length points)%nat) by (rewrite Ep; cbn; lia).
  assert (Hbne : boxes <> []).
  { intros E. rewrite E in P. cbn in P.
    apply Permutation_nil in P. rewrite P in Hpos. cbn in Hpos. lia. }
  destruct (@cutLoop_complete (Z.to_nat paletteSize) [createColorBox points]
              paletteSize) as [Hfull | Hstop]; [cbn [length]; lia | |].
  - fold boxes in Hfull.
    assert (1 <= length boxes)%nat by (destruct boxes; [congruence | cbn; lia]).
    lia.
  - fold boxes in Hstop.
    pose proof (flat_map_singletons (cutStep_none Hbne Hd Hstop)) as Hs.
    rewrite (Permutation_length P) in Hs. lia.
Qed.

(** X10.  For points of pairwise distinct colours with integer channels
    in [[0, 255]], [medianCutQuantize] returns exactly [paletteSize] colours
    when there are that many points, one colour when [paletteSize] is below
    one, and otherwise as many colours as there are points: the loop goes on
    splitting until the palette is full or every box holds a single
    point. *)
Theorem X10_median_cut_exact_size :
  forall (points : list DataPoint) (paletteSize : Z),
    Forall (fun p : DataPoint => byteColor p) points ->
    NoDup (map point points) ->
    Z.of_nat (length (medianCutQuantize points paletteSize))
    = Z.min (Z.max 1 paletteSize) (Z.of_nat (length points)).
Proof. apply medianCutQuantize_size. Qed.

Lemma X10_witness :
  let points := [mkPoint (rgb 10 200 30) (ofZ 2); mkPoint (rgb 40 20 90) (ofZ 1);
                 mkPoint (rgb 250 100 60) (ofZ 5)] in
  Z.of_nat (length (medianCutQuantize points 2)) = 2%Z
  /\ Z.of_nat (length (medianCutQuantize points 7)) = 3%Z
  /\ Z.of_nat (length (medianCutQuantize points (-4))) = 1%Z.
Proof.
  intros points.
  assert (Hb : Forall (fun p : DataPoint => byteColor p) points).
  { repeat constructor.
    - exists 10%Z, 200%Z, 30%Z. unfold isByte. repeat split; lia.
    - exists 40%Z, 20%Z, 90%Z. unfold isByte. repeat split; lia.
    - exists 250%Z, 100%Z, 60%Z. unfold isByte. repeat split; lia. }
  assert (Hnd : NoDup (map point points)).
  { repeat constructor; cbn; intros H;
      repeat (destruct H as [H | H]; [discriminate H|]); exact H. }
  split; [|split].
  - exact (X10_median_cut_exact_size 2 Hb Hnd).
  - exact (X10_median_cut_exact_size 7 Hb Hnd).
  - exact (X10_median_cut_exact_size (-4) Hb Hnd).
Defined.

Lemma filterSome_boosted (entries : list (Z * Z * Z * num)) :
  Forall byteEntry entries ->
  filterSome (map parseBoosted (map entryOf entries))
  = map (fun e => let '(x, y, z, c) := e in
                  mkPoint (rgb x y z)
                    (c * (ofZ 1 + saturationFactor * getSaturation (rgb x y z)))%num)
        entries.
Proof.
  induction 1 as [|[[[x y] z] c] es H Hes IH]; [reflexivity|].
  cbn [map entryOf]. destruct H as (Hx & Hy & Hz).
  unfold parseBoosted at 1. rewrite parts_of_colorKey by lia.
  cbn [filterSome]. rewrite IH. reflexivity.
Qed.

Lemma rgb_injective (x y z x' y' z' : Z) :
  rgb x y z = rgb x' y' z' -> (x, y, z) = (x', y', z').
Proof. unfold rgb, ofZ, inject_Z. intros H. inversion H. reflexivity. Qed.

Lemma distinctColors_points (pixels : list Z) :
  (length pixels mod 4 = 0)%nat -> Forall isByte pixels ->
  let points := filterSome (map parseBoosted (countColors pixels)) in
  map point points
  = map (fun c : Z * Z * Z => rgb (fst (fst c)) (snd (fst c)) (snd c))
        (distinctColors pixels)
  /\ Forall (fun p : DataPoint => byteColor p) points
  /\ NoDup (map point points).
Proof.
  intros Hw Hb points. subst points.
  rewrite (countColors_tally Hw Hb),
    (filterSome_boosted (colorTally_bytes Hw Hb)).
  assert (E : map point
                (map (fun e : Z * Z * Z * num =>
                        let '(x, y, z, c) := e in
                        mkPoint (rgb x y z)
                          (c * (ofZ 1 + saturationFactor
                                        * getSaturation (rgb x y z)))%num)
                     (colorTally pixels))
              = map (fun c : Z * Z * Z => rgb (fst (fst c)) (snd (fst c)) (snd c))
                    (distinctColors pixels)).
  { unfold colorTally. rewrite !map_map. apply map_ext.
    intros [[x y] z]. reflexivity. }
  split; [exact E|]. split.
  - rewrite Forall_map. pose proof (colorTally_bytes Hw Hb) as H.
    eapply Forall_impl; [|exact H].
    intros [[[x y] z] c] (Hx & Hy & Hz). cbn [point].
    exists x, y, z. split; [exact Hx|]. split; [exact Hy|].
    split; [exact Hz | reflexivity].
  - rewrite E. apply NoDup_map_NoDup_ForallPairs; [|apply firstSeen_spec].
    intros [[x y] z] [[x' y'] z'] _ _ H. cbn [fst snd] in H.
    apply rgb_injective, H.
Qed.

Lemma extractColorPalette_size :
  forall (canvas : Canvas) (pixels : list Z) (paletteSize : Z),
    context2d canvas = Some pixels ->
    (length pixels mod 4 = 0)%nat ->
    Forall isByte pixels ->
    exists colors : list Color,
      extractColorPalette canvas paletteSize = Some colors
      /\ Z.of_nat (length colors)
         = Z.min (Z.max 1 paletteSize)
                 (Z.of_nat (length (distinctColors pixels))).
Proof.
  intros canvas pixels paletteSize Hc Hw Hb.
  destruct (distinctColors_points Hw Hb) as (E & Hbc & Hnd).
  assert (Hl : length (filterSome (map parseBoosted (countColors pixels)))
               = length (distinctColors pixels)).
  { rewrite <- (length_map point), E, length_map. reflexivity. }
  unfold extractColorPalette. rewrite Hc.
  destruct (Nat.eqb_spec
              (length (filterSome (map parseBoosted (countColors pixels)))) 0)
    as [E0 | _].
  - exists []. split; [reflexivity|]. rewrite <- Hl, E0. cbn. lia.
  - eexists. split; [reflexivity|]. rewrite <- Hl.
    apply medianCutQuantize_size; assumption.
Qed.

(** X11.  For a canvas whose buffer is made of whole pixels of bytes,
    [extractColorPalette] returns exactly as many colours as asked for when
    the image has that many distinct colours, one colour when fewer than one
    is asked for (and the image is not empty), and otherwise one colour for
    each distinct colour of the image. *)
Theorem X11_palette_exact_size :
  forall (canvas : Canvas) (pixels : list Z) (paletteSize : Z),
    context2d canvas = Some pixels ->
    (length pixels mod 4 = 0)%nat ->
    Forall isByte pixels ->
    exists colors : list Color,
      extractColorPalette canvas paletteSize = Some colors
      /\ Z.of_nat (length colors)
         = Z.min (Z.max 1 paletteSize)
                 (Z.of_nat (length (distinctColors pixels))).
Proof. apply extractColorPalette_size. Qed.

Lemma X11_witness :
  let pixels := [255; 0; 0; 255; 0; 64; 255; 255; 255; 0; 0; 9]%Z in
  exists colors : list Color,
    extractColorPalette (mkCanvas 3 1 (Some pixels)) 5 = Some colors
    /\ Z.of_nat (length colors) = 2%Z.
Proof.
  intros pixels.
  assert (Hb : Forall isByte pixels).
  { repeat (constructor; [unfold isByte; lia|]). constructor. }
  exact (@X11_palette_exact_size (mkCanvas 3 1 (Some pixels)) pixels 5
           Logic.eq_refl Logic.eq_refl Hb).
Defined.

(** *** The size of the distinct palette *)

Lemma removeAt_perm (A : Type) (i : nat) (c : A) (l : list A) :
  nth_error l i = Some c -> Permutation (c :: removeAt i l) l.
Proof.
  intros H. destruct (nth_error_split l i H) as (l1 & l2 & -> & <-).
  unfold removeAt. rewrite firstn_app, firstn_all, Nat.sub_diag.
  cbn [firstn]. rewrite app_nil_r.
  replace (S (length l1)) with (length l1 + 1)%nat by lia.
  rewrite skipn_app, skipn_all2 by lia.
  replace (length l1 + 1 - length l1)%nat with 1%nat by lia.
  cbn [skipn app]. apply Permutation_middle.
Qed.

(** The selection takes its colours from the candidates, none twice. *)
Lemma selectLoop_perm (distinctCount : Z) (fuel : nat) :
  forall selected remaining : list Color,
    exists left : list Color,
      Permutation (selectLoop fuel selected remaining distinctCount ++ left)
                  (selected ++ remaining).
Proof.
  induction fuel as [|fuel IH]; intros selected remaining; cbn [selectLoop];
    [exists remaining; apply Permutation_refl|].
  destruct ((Z.of_nat (length selected) <? distinctCount)%Z
            && (0 <? length remaining)%nat);
    [|exists remaining; apply Permutation_refl].
  destruct (farthest remaining selected 0 None (mkDist NInf)) as [i|];
    [|exists remaining; apply Permutation_refl].
  destruct (nth_error remaining i) as [c|] eqn:E;
    [|exists remaining; apply Permutation_refl].
  destruct (IH (selected ++ [c]) (removeAt i remaining)) as [left P].
  exists left. eapply perm_trans; [exact P|].
  rewrite <- app_assoc. cbn [app]. apply Permutation_app_head.
  apply removeAt_perm, E.
Qed.

Lemma Greedy_length (distinctCount : Z) (selected remaining result : list Color) :
  Greedy distinctCount selected remaining result ->
  Z.of_nat (length result)
  = Z.max (Z.of_nat (length selected))
          (Z.min distinctCount
                 (Z.of_nat (length selected) + Z.of_nat (length remaining))).
Proof.
  induction 1 as [selected remaining [H | ->]
                 | selected remaining i c result L [Hi _] _ IH].
  - lia.
  - cbn [length]. lia.
  - rewrite IH, length_app. cbn [length].
    apply nth_error_Some_lt in Hi. rewrite removeAt_length by exact Hi. lia.
Qed.

Lemma selectDistinct_size (candidatePalette : list Color) (distinctCount : Z) :
  candidatePalette <> [] ->
  exists selected left : list Color,
    selectDistinct candidatePalette distinctCount = map Some selected
    /\ Permutation (selected ++ left) candidatePalette
    /\ (Forall finColor candidatePalette ->
        Z.of_nat (length selected)
        = Z.min (Z.max 1 distinctCount) (Z.of_nat (length candidatePalette))).
Proof.
  intros Hne. unfold selectDistinct.
  destruct (Z.leb_spec (Z.of_nat (length candidatePalette)) distinctCount)
    as [Hle | Hgt].
  - exists candidatePalette, []. split; [reflexivity|].
    split; [rewrite app_nil_r; apply Permutation_refl|]. intros _.
    destruct candidatePalette; [congruence | cbn [length] in *; lia].
  - pose proof (sort_perm bySaturationDesc candidatePalette) as P.
    destruct (sort bySaturationDesc candidatePalette) as [|first rest] eqn:Es.
    + apply Permutation_nil in P. congruence.
    + destruct (selectLoop_perm distinctCount (length rest) [first] rest)
        as [left Pl].
      exists (selectLoop (length rest) [first] rest distinctCount), left.
      split; [reflexivity|]. split; [exact (perm_trans Pl P)|].
      intros Hf.
      assert (Hfs : Forall finColor (first :: rest))
        by (apply Permutation_Forall with (1 := Permutation_sym P); exact Hf).
      inversion Hfs as [|? ? Hf1 Hfr]; subst.
      rewrite (Greedy_length
                 (@selectLoop_greedy distinctCount (length rest) [first] rest
                    (le_n _) ltac:(discriminate)
                    (Forall_cons _ Hf1 (Forall_nil _)) Hfr)).
      rewrite <- (Permutation_length P). cbn [length]. lia.
Qed.

(** X12.  The distinct selection among candidates, of which there is one
    at least, takes its colours from the candidates, none more often than
    the candidates hold it.  When the candidates are finite it returns
    exactly [distinctCount] colours if there are that many candidates, one
    colour if [distinctCount] is below one, and all the candidates
    otherwise. *)
Theorem X12_distinct_selection_size :
  forall (candidatePalette : list Color) (distinctCount : Z),
    candidatePalette <> [] ->
    exists selected left : list Color,
      selectDistinct candidatePalette distinctCount = map Some selected
      /\ Permutation (selected ++ left) candidatePalette
      /\ (Forall finColor candidatePalette ->
          Z.of_nat (length selected)
          = Z.min (Z.max 1 distinctCount) (Z.of_nat (length candidatePalette))).
Proof. apply selectDistinct_size. Qed.

Lemma X12_witness :
  let candidates := [rgb 200 10 10; rgb 10 200 10; rgb 10 10 200; rgb 128 128 128] in
  exists selected left : list Color,
    selectDistinct candidates 2 = map Some selected
    /\ Permutation (selected ++ left) candidates
    /\ Z.of_nat (length selected) = 2%Z.
Proof.
  intros candidates.
  destruct (@X12_distinct_selection_size candidates 2 ltac:(discriminate))
    as (selected & left & E & P & L).
  exists selected, left. split; [exact E|]. split; [exact P|].
  rewrite L; [reflexivity | repeat constructor].
Defined.

Lemma distinctColors_nonempty (pixels : list Z) :
  (length pixels mod 4 = 0)%nat -> pixels <> [] ->
  (1 <= length (distinctColors pixels))%nat.
Proof.
  intros Hw Hne. unfold distinctColors.
  pose proof (@pixelColors_length pixels Hw) as Hl.
  pose proof (Nat.div_mod_eq (length pixels) 4) as Hd.
  assert (Hpos : (0 < length pixels)%nat)
    by (destruct pixels; [congruence | cbn; lia]).
  destruct (pixelColors pixels) as [|c cs] eqn:E; [cbn [length] in Hl; lia|].
  destruct (firstSeen_spec (c :: cs)) as [_ Hin].
  destruct (firstSeen (c :: cs)) as [|d ds]; [|cbn; lia].
  exfalso. apply (Hin c). left. reflexivity.
Qed.

Lemma byteColor_fin (c : Color) : byteColor c -> finColor c.
Proof. intros (x & y & z & _ & _ & _ & ->). repeat split. Qed.

(** X13.  For a non-empty canvas whose buffer is made of whole pixels of
    bytes, and a candidate factor of one or more (or the default),
    [extractDistinctColorPalette] returns exactly [distinctCount] colours
    when the image has that many distinct colours, one colour when
    [distinctCount] is below one, and otherwise one colour for each distinct
    colour of the image.  Each colour returned has integer channels in
    [[0, 255]], and none is [undefined]. *)
Theorem X13_distinct_palette_exact_size :
  forall (canvas : Canvas) (pixels : list Z) (distinctCount : Z)
         (candidateSizeFactor : option Z),
    context2d canvas = Some pixels ->
    (length pixels mod 4 = 0)%nat ->
    Forall isByte pixels ->
    pixels <> [] ->
    match candidateSizeFactor with Some f => (1 <= f)%Z | None => True end ->
    exists selected : list Color,
      extractDistinctColorPalette canvas distinctCount candidateSizeFactor
      = Some (map Some selected)
      /\ Z.of_nat (length selected)
         = Z.min (Z.max 1 distinctCount)
                 (Z.of_nat (length (distinctColors pixels)))
      /\ Forall byteColor selected.
Proof.
  intros canvas pixels d f Hc Hw Hb Hne Hf.
  unfold extractDistinctColorPalette.
  set (factor := match f with Some f => f | None => 2%Z end).
  assert (Hfac : (1 <= factor)%Z) by (subst factor; destruct f; lia).
  destruct (@extractColorPalette_size canvas pixels (d * factor) Hc Hw Hb)
    as (cands & Ec & Hl).
  destruct (@extractColorPalette_bytes canvas pixels (d * factor) Hc Hb)
    as (cands' & Ec' & Hbytes).
  rewrite Ec in Ec'. inversion Ec'; subst cands'. rewrite Ec.
  pose proof (distinctColors_nonempty Hw Hne) as Hn.
  assert (Hcne : cands <> []).
  { intros E. rewrite E in Hl. cbn [length] in Hl. lia. }
  destruct (selectDistinct_size d Hcne) as (selected & left & Es & P & Hlen).
  exists selected. split; [rewrite Es; reflexivity|]. split.
  - rewrite Hlen, Hl.
    + nia.
    + eapply Forall_impl; [|exact Hbytes]. apply byteColor_fin.
  - assert (Hall : Forall byteColor (selected ++ left))
      by (apply Permutation_Forall with (1 := Permutation_sym P); exact Hbytes).
    apply Forall_app in Hall. apply Hall.
Qed.

Lemma X13_witness :
  let pixels := [255; 0; 0; 255; 0; 64; 255; 255; 255; 0; 0; 9;
                 20; 20; 20; 255]%Z in
  exists selected : list Color,
    extractDistinctColorPalette (mkCanvas 4 1 (Some pixels)) 2 (Some 12%Z)
    = Some (map Some selected)
    /\ Z.of_nat (length selected) = 2%Z
    /\ Forall byteColor selected.
Proof.
  intros pixels.
  assert (Hb : Forall isByte pixels).
  { repeat (constructor; [unfold isByte; lia|]). constructor. }
  destruct (@X13_distinct_palette_exact_size (mkCanvas 4 1 (Some pixels)) pixels
              2 (Some 12%Z) Logic.eq_refl Logic.eq_refl Hb)
    as (selected & E & L & B); [discriminate | cbn; lia|].
  exists selected. split; [exact E|]. split; [rewrite L; reflexivity | exact B].
Defined.

(** *** The dominant colours of an image *)

Lemma tally_points (pixels : list Z) :
  (length pixels mod 4 = 0)%nat -> Forall isByte pixels ->
  let points := filterSome (map parseEntry (countColors pixels)) in
  length points = length (distinctColors pixels)
  /\ map (fun d : DataPoint => mkColor (r d) (g d) (b d)) points
     = map (fun c : Z * Z * Z => rgb (fst (fst c)) (snd (fst c)) (snd c))
           (distinctColors pixels).
Proof.
  intros Hw Hb points. subst points.
  rewrite (countColors_tally Hw Hb),
    (filterSome_entries (colorTally_bytes Hw Hb)).
  unfold colorTally. rewrite !map_map, length_map. split; [reflexivity|].
  apply map_ext. intros [[x y] z]. reflexivity.
Qed.

(** X14.  For a buffer of whole pixels of bytes, [analyzeImageColors]
    returns exactly [DOMINANT_COLORS_COUNT] dominant colours when the image
    has more distinct colours than that, one when the count is below one
    (and the image is not empty), and otherwise, without clustering and
    whatever the random source, the distinct colours of the image
    themselves, in the order in which they first appear among the
    pixels.  In each case the dominant colours have integer channels in
    [[0, 255]]. *)
Theorem X14_dominant_colors_of_an_image :
  forall (Math_pow : num -> num -> num) (random : nat -> num)
         (DOMINANT_COLORS_COUNT PALETTE_COLORS_COUNT w h : Z)
         (pixels : list Z) (n : nat),
    validRandom random ->
    (length pixels mod 4 = 0)%nat ->
    Forall isByte pixels ->
    exists md n',
      analyzeImageColors Math_pow random DOMINANT_COLORS_COUNT
        PALETTE_COLORS_COUNT (mkCanvas w h (Some pixels)) n = Some (md, n')
      /\ Z.of_nat (length (dominantColors md))
         = Z.min (Z.max 1 DOMINANT_COLORS_COUNT)
                 (Z.of_nat (length (distinctColors pixels)))
      /\ ((Z.of_nat (length (distinctColors pixels)) <= DOMINANT_COLORS_COUNT)%Z ->
          n' = n
          /\ dominantColors md
             = map (fun c : Z * Z * Z => rgb (fst (fst c)) (snd (fst c)) (snd c))
                   (distinctColors pixels))
      /\ Forall byteColor (dominantColors md).
Proof.
  intros Math_pow random D P w h pixels n Hr Hw Hb.
  destruct (@analyzeImageColors_returns Math_pow random D P
              (mkCanvas w h (Some pixels)) pixels n Hr Logic.eq_refl)
    as (dom & n' & rep & cands & var & Ed & _ & _ & _ & E).
  eexists _, n'. split; [exact E|]. cbn [dominantColors].
  rewrite (analysis_colorCounts Hw Hb Math_pow) in Ed.
  destruct (tally_points Hw Hb) as [Hl Hm].
  assert (Hdb : Forall byteColor
                  (map (fun c : Z * Z * Z => rgb (fst (fst c)) (snd (fst c)) (snd c))
                       (distinctColors pixels))).
  { rewrite Forall_map, Forall_forall. intros c Hc.
    apply (firstSeen_spec (pixelColors pixels)) in Hc.
    pose proof (pixelColors_bytes Hw Hb) as H. rewrite Forall_forall in H.
    specialize (H c Hc). destruct c as [[x y] z]. destruct H as (Hx & Hy & Hz).
    exists x, y, z. split; [exact Hx|]. split; [exact Hy|].
    split; [exact Hz | reflexivity]. }
  pose proof (extractDominantColors_cases (countColors pixels) D n Hr) as H.
  cbv zeta in H.
  destruct H as [(Hnil & E0) | [(Hne & L & E0) | (Hne & G & H)]].
  - rewrite E0 in Ed. inversion Ed; subst dom n'.
    rewrite Hnil in Hl, Hm. cbn [length map] in Hl, Hm. rewrite <- Hl.
    split; [cbn; lia|]. split; [|constructor].
    intros _. split; [reflexivity | exact Hm].
  - rewrite E0 in Ed. inversion Ed; subst dom n'.
    rewrite length_map, Hl in *.
    split; [lia|]. split; [|rewrite Hm; exact Hdb].
    intros _. split; [reflexivity | exact Hm].
  - destruct H as (cs & n0 & fc & ws & n1 & _ & Hfd & E1 & Hfc & _ & E0).
    rewrite E0 in Ed. inversion Ed; subst dom n'.
    rewrite length_map, sort_length, clustersOf_length, Hfc.
    assert (Hpos : (1 <= length (distinctColors pixels))%nat).
    { rewrite <- Hl.
      destruct (filterSome (map parseEntry (countColors pixels)));
        [congruence | cbn [length]; lia]. }
    rewrite Hl in G. split; [lia|]. split; [intros L; lia|].
    set (points := filterSome (map parseEntry (countColors pixels))) in *.
    assert (Hp : Forall finPoint points).
    { apply points_fin. rewrite (countColors_tally Hw Hb).
      unfold colorTally. rewrite map_map, Forall_map, Forall_forall.
      intros [[x y] z] _. exact I. }
    assert (Hcs : Forall finColor cs).
    { eapply Forall_impl; [|exact Hfd].
      intros c (d & Hd & ->). rewrite Forall_forall in Hp. apply Hp, Hd. }
    destruct (@iterate_fin points random 10 cs (repeat (ofZ 0) (length cs))
                n0 n1 fc ws Hp Hcs) as [Hff _];
      [apply repeat_Forall; exact I | exact E1 |].
    rewrite Forall_map, Forall_forall. intros [c wt] Hin. cbn [fst].
    apply (Permutation_in _ (sort_perm byWeightDesc (clustersOf fc ws))) in Hin.
    assert (Hc : finColor c).
    { clear -Hin Hff. revert ws Hin.
      induction Hff as [|c0 fc Hc0 _ IH]; intros ws Hin; [destruct Hin|].
      destruct ws as [|w0 ws]; cbn [clustersOf] in Hin;
        (destruct Hin as [Ein | Hin];
         [inversion Ein; subst; exact Hc0 | exact (IH _ Hin)]). }
    destruct (toColor_fin Hc) as (qr & qg & qb & _ & ->).
    exists (clampRound qr), (clampRound qg), (clampRound qb).
    unfold isByte, clampRound. repeat split; lia.
Qed.

Lemma X14_witness :
  let pixels := [255; 0; 0; 255; 0; 64; 255; 255; 255; 0; 0; 9]%Z in
  exists md n',
    analyzeImageColors (fun x _ => x) (fun _ => Fin (1 # 2)) 5 2
      (mkCanvas 3 1 (Some pixels)) 0%nat = Some (md, n')
    /\ dominantColors md = [rgb 255 0 0; rgb 0 64 255].
Proof.
  intros pixels.
  assert (Hb : Forall isByte pixels).
  { repeat (constructor; [unfold isByte; lia|]). constructor. }
  assert (Hr : validRandom (fun _ => Fin (1 # 2))).
  { intros i. exists (1 # 2). split; [reflexivity|].
    split; [discriminate | reflexivity]. }
  destruct (@X14_dominant_colors_of_an_image (fun x _ => x) (fun _ => Fin (1 # 2))
              5 2 3 1 pixels 0%nat Hr Logic.eq_refl Hb)
    as (md & n' & E & _ & H & _).
  exists md, n'. split; [exact E|].
  destruct H as [_ ->]; [cbn; lia | reflexivity].
Defined.

(** *** The variance is not negative *)

Lemma sumNum_nonneg (l : list num) :
  Forall nonNegative l ->
  nonNegative (sumNum l) /\ (Forall isZero l -> isZero (sumNum l)).
Proof.
  unfold sumNum. intros H.
  assert (G : forall a : Q, (0 <= a)%Q ->
            nonNegative (fold_left add l (Fin a))
            /\ ((a == 0)%Q -> Forall isZero l -> isZero (fold_left add l (Fin a)))).
  { induction H as [|x xs (q & -> & Hq) _ IH]; intros a Ha; cbn [fold_left].
    - split; [exists a; split; [reflexivity | exact Ha]|].
      intros Ea _. exists a. split; [reflexivity | exact Ea].
    - unfold add at 2 4. destruct (IH (a + q)%Q ltac:(lra)) as [IH1 IH2].
      split; [exact IH1|]. intros Ea Hz. inversion Hz as [|? ? (q' & Eq & Hq') Hzs]; subst.
      inversion Eq; subst q'. apply IH2; [lra | exact Hzs]. }
  destruct (G 0%Q ltac:(lra)) as [G1 G2]. split; [exact G1|].
  apply G2. reflexivity.
Qed.

Lemma sumZ_same (v : Z) (vs : list Z) :
  Forall (fun x => x = v) vs -> sumZ vs = (v * Z.of_nat (length vs))%Z.
Proof.
  induction vs as [|x xs IH] using rev_ind; intros H; [cbn; lia|].
  apply Forall_app in H. destruct H as [Hxs Hx]. inversion Hx; subst.
  rewrite sumZ_snoc, length_app, IH by exact Hxs. cbn [length]. lia.
Qed.

Lemma populationVariance_nonneg (vs : list Z) :
  vs <> [] ->
  nonNegative (populationVariance vs)
  /\ (forall v, Forall (fun x => x = v) vs -> isZero (populationVariance vs)).
Proof.
  intros Hne. unfold populationVariance.
  assert (Hl : (0 < Z.of_nat (length vs))%Z)
    by (destruct vs; [congruence | cbn [length]; lia]).
  assert (Hn : (0 < inject_Z (Z.of_nat (length vs)))%Q)
    by (change 0%Q with (inject_Z 0); rewrite <- Zlt_Qlt; exact Hl).
  assert (Hm : exists m, mean vs = Fin m
                         /\ (m == inject_Z (sumZ vs) / inject_Z (Z.of_nat (length vs)))%Q).
  { unfold mean, div, ofZ.
    destruct (Qeq_bool (inject_Z (Z.of_nat (length vs))) 0) eqn:E.
    - apply Qeq_bool_iff in E. lra.
    - eexists. split; reflexivity. }
  destruct Hm as (m & Em & Hm). rewrite Em.
  set (squares := map (fun v => ((ofZ v - Fin m) * (ofZ v - Fin m))%num) vs).
  assert (Hsq : Forall nonNegative squares).
  { subst squares. rewrite Forall_map, Forall_forall. intros v _.
    unfold ofZ, sub, neg, add, mul. eexists. split; [reflexivity|].
    apply Qsquare_nonneg. }
  destruct (sumNum_nonneg Hsq) as [(q & Eq & Hq) Hz].
  assert (Hdiv : forall t : Q, (Fin t / ofZ (Z.of_nat (length vs)))%num
                               = Fin (t / inject_Z (Z.of_nat (length vs)))).
  { intros t. unfold div, ofZ.
    destruct (Qeq_bool (inject_Z (Z.of_nat (length vs))) 0) eqn:E;
      [apply Qeq_bool_iff in E; lra | reflexivity]. }
  split.
  - rewrite Eq, Hdiv. eexists. split; [reflexivity|].
    apply Qle_shift_div_l; [exact Hn | lra].
  - intros v Hv.
    assert (Hzs : Forall isZero squares).
    { subst squares. rewrite Forall_map. eapply Forall_impl; [|exact Hv].
      intros x ->. unfold ofZ, sub, neg, add, mul. eexists. split; [reflexivity|].
      rewrite Hm, (sumZ_same Hv), inject_Z_mult. field. lra. }
    destruct (Hz Hzs) as (q0 & Eq0 & Hq0). rewrite Eq0, Hdiv.
    eexists. split; [reflexivity|]. rewrite Hq0. field. lra.
Qed.

Lemma orElse_nonneg (v : num) :
  nonNegative v ->
  nonNegative (orElse v (ofZ 0)) /\ (isZero v -> orElse v (ofZ 0) = ofZ 0).
Proof.
  intros (q & -> & Hq). unfold orElse, truthy.
  destruct (Qeq_bool q 0) eqn:E; cbn [negb].
  - split; [exists (inject_Z 0); split; [reflexivity | discriminate]|].
    reflexivity.
  - split; [exists q; split; [reflexivity | exact Hq]|].
    intros (q' & Eq & Hq'). inversion Eq; subst q'.
    apply Qeq_bool_false in E. contradiction.
Qed.

Lemma valueAt_nonneg (vs : list num) (i : num) :
  Forall nonNegative vs ->
  nonNegative (valueAt (sort ascending vs) i)
  /\ (Forall isZero vs -> valueAt (sort ascending vs) i = ofZ 0).
Proof.
  intros H.
  assert (Z0 : nonNegative (ofZ 0))
    by (exists (inject_Z 0); split; [reflexivity | discriminate]).
  unfold valueAt. destruct (toIndex i) as [j|]; [|split; [exact Z0 | reflexivity]].
  destruct (nth_error (sort ascending vs) j) as [v|] eqn:E;
    [|split; [exact Z0 | reflexivity]].
  apply nth_error_In in E.
  apply (Permutation_in _ (sort_perm ascending vs)) in E.
  rewrite Forall_forall in H. destruct (orElse_nonneg (H v E)) as [H1 H2].
  split; [exact H1|]. intros Hz. rewrite Forall_forall in Hz. apply H2, Hz, E.
Qed.

Lemma tileVariance_nonneg (pixels : list Z) (w h : Z) (ts : list (Z * Z)) :
  Forall (fun v => nonNegative (r v) /\ nonNegative (g v) /\ nonNegative (b v))
         (filterSome (map (tileVariance pixels w h) ts))
  /\ ((forall t p q,
          In t ts ->
          In p (countedPixels pixels w h (fst t) (snd t)) ->
          In q (countedPixels pixels w h (fst t) (snd t)) -> p = q) ->
      Forall (fun v => isZero (r v) /\ isZero (g v) /\ isZero (b v))
             (filterSome (map (tileVariance pixels w h) ts))).
Proof.
  induction ts as [|t ts [IH1 IH2]]; cbn [map filterSome];
    [split; [constructor | intros _; constructor]|].
  assert (IH2' : (forall t0 p q,
                     In t0 (t :: ts) ->
                     In p (countedPixels pixels w h (fst t0) (snd t0)) ->
                     In q (countedPixels pixels w h (fst t0) (snd t0)) -> p = q) ->
                 Forall (fun v => isZero (r v) /\ isZero (g v) /\ isZero (b v))
                   (filterSome (map (tileVariance pixels w h) ts))).
  { intros H. apply IH2. intros t' p q Ht. apply H. right. exact Ht. }
  destruct (tileVariance pixels w h t) as [v|] eqn:Ev; [|split; assumption].
  unfold tileVariance in Ev.
  destruct (countedPixels pixels w h (fst t) (snd t)) as [|p ps] eqn:E;
    [discriminate|].
  inversion Ev; subst v. clear Ev.
  assert (Hne : forall f : Z * Z * Z -> Z, map f (p :: ps) <> [])
    by (intros f; discriminate).
  split.
  - constructor; [|exact IH1]. cbn [r g b].
    repeat split; apply populationVariance_nonneg, Hne.
  - intros H. constructor; [|apply IH2', H].
    assert (Hsame : forall f : Z * Z * Z -> Z,
               Forall (fun x => x = f p) (map f (p :: ps))).
    { intros f. rewrite Forall_map, Forall_forall. intros q Hq.
      f_equal. symmetry. apply (H t p q); [left; reflexivity | |];
        rewrite E; [left; reflexivity | exact Hq]. }
    cbn [r g b].
    repeat split;
      apply (proj2 (populationVariance_nonneg (Hne _)) _ (Hsame _)).
Qed.

(** X15.  Each channel of the result of [calculateColorVariance] is a
    finite number that is not negative.  It is [0] in the three channels
    when, in each block, the pixels that are counted (those without a zero
    in a channel) are all of one colour: for an image of one colour, and
    for an image in which every pixel has a zero in some channel. *)
Theorem X15_variance_is_not_negative :
  forall (w h : Z) (pixels : list Z),
    exists v : Color,
      calculateColorVariance (mkCanvas w h (Some pixels)) = Some v
      /\ nonNegative (r v) /\ nonNegative (g v) /\ nonNegative (b v)
      /\ ((forall t p q,
              In t (tiles w h) ->
              In p (countedPixels pixels w h (fst t) (snd t)) ->
              In q (countedPixels pixels w h (fst t) (snd t)) -> p = q) ->
          v = rgb 0 0 0).
Proof.
  intros w h pixels. unfold calculateColorVariance.
  cbn [context2d width height]. rewrite blockVariances_spec.
  destruct (tileVariance_nonneg pixels w h (tiles w h)) as [Hn Hz].
  fold (tileVariances pixels w h) in Hn, Hz.
  set (vs := tileVariances pixels w h) in *. cbv zeta.
  eexists. split; [reflexivity|]. cbn [r g b].
  assert (Hr : Forall nonNegative (map r vs))
    by (rewrite Forall_map; eapply Forall_impl; [|exact Hn]; intros c Hc; apply Hc).
  assert (Hg : Forall nonNegative (map g vs))
    by (rewrite Forall_map; eapply Forall_impl; [|exact Hn]; intros c Hc; apply Hc).
  assert (Hb : Forall nonNegative (map b vs))
    by (rewrite Forall_map; eapply Forall_impl; [|exact Hn]; intros c Hc; apply Hc).
  split; [apply valueAt_nonneg, Hr|]. split; [apply valueAt_nonneg, Hg|].
  split; [apply valueAt_nonneg, Hb|].
  intros Hsame. specialize (Hz Hsame). unfold rgb.
  rewrite (proj2 (valueAt_nonneg _ Hr)), (proj2 (valueAt_nonneg _ Hg)),
    (proj2 (valueAt_nonneg _ Hb));
    [reflexivity | ..];
    rewrite Forall_map; (eapply Forall_impl; [|exact Hz]); intros c Hc; apply Hc.
Qed.

Lemma X15_witness :
  calculateColorVariance
    (mkCanvas 2 2 (Some [255; 0; 0; 255; 90; 0; 30; 255;
                         7; 7; 7; 255; 0; 200; 100; 255]%Z))
  = Some (rgb 0 0 0).
Proof.
  destruct (X15_variance_is_not_negative 2 2
              [255; 0; 0; 255; 90; 0; 30; 255;
               7; 7; 7; 255; 0; 200; 100; 255]%Z)
    as (v & E & _ & _ & _ & H).
  rewrite E, H; [reflexivity|].
  intros t p q Ht. cbn in Ht.
  destruct Ht as [<- | []]. cbn.
  intros [<- | []] [<- | []]. reflexivity.
Defined.

(** *** Hue, saturation and lightness *)


Lemma div_Fin (p d : Q) : ~ (d == 0)%Q -> (Fin p / Fin d)%num = Fin (p / d).
Proof.
  intros H. unfold div. destruct (Qeq_bool d 0) eqn:E; [|reflexivity].
  apply Qeq_bool_iff in E. contradiction.
Qed.

Lemma ratio_bounds (x d lo hi : Q) :
  (0 < d)%Q -> (lo * d <= x)%Q -> (x <= hi * d)%Q -> (lo <= x / d <= hi)%Q.
Proof.
  intros Hd H1 H2. split.
  - apply Qle_shift_div_l; assumption.
  - apply Qle_shift_div_r; assumption.
Qed.






(** *** The weighted hue *)


Lemma weight_positive (i : nat) :
  exists w : Q, (ofZ 1 / (ofNat i + ofZ 1))%num = Fin w /\ (0 < w <= 1)%Q.
Proof.
  unfold ofNat, ofZ, add.
  assert (Hpos : (0 < inject_Z (Z.of_nat i) + inject_Z 1)%Q).
  { rewrite <- inject_Z_plus. change 0%Q with (inject_Z 0).
    rewrite <- Zlt_Qlt. lia. }
  assert (Hge : (1 <= inject_Z (Z.of_nat i) + inject_Z 1)%Q).
  { rewrite <- inject_Z_plus. change 1%Q with (inject_Z 1).
    rewrite <- Zle_Qle. lia. }
  rewrite div_Fin by lra. eexists. split; [reflexivity|].
  change (inject_Z 1) with 1%Q in *. split.
  - apply Qlt_shift_div_l; lra.
  - apply Qle_shift_div_r; lra.
Qed.




(** *** The brightness of an image *)

Section BrightnessFacts.
Variable Math_pow : num -> num -> num.
Hypothesis pow_unit : unitPow Math_pow.

Lemma linearize_unit (x : Z) :
  isByte x -> inUnit (linearize Math_pow (ofZ x / ofZ 255)%num).
Proof.
  intros Hx. unfold ofZ. rewrite div_Fin by discriminate.
  assert (Hs : (0 <= inject_Z x / inject_Z 255 <= 1)%Q).
  { unfold isByte in Hx. change (inject_Z 255) with 255%Q.
    apply ratio_bounds; [reflexivity | |].
    - rewrite Qmult_0_l. change 0%Q with (inject_Z 0). rewrite <- Zle_Qle. lia.
    - rewrite Qmult_1_l. change 255%Q with (inject_Z 255).
      rewrite <- Zle_Qle. lia. }
  set (sv := (inject_Z x / inject_Z 255)%Q) in *.
  unfold linearize.
  destruct (Fin sv <=? Fin 0.03928)%num eqn:E.
  - apply le_Fin in E. rewrite div_Fin by discriminate.
    eexists. split; [reflexivity|]. apply ratio_bounds; lra.
  - unfold add. rewrite div_Fin by discriminate. apply pow_unit.
    apply ratio_bounds; lra.
Qed.

Lemma calculatePixelBrightness_unit (x y z : Z) :
  isByte x -> isByte y -> isByte z ->
  inUnit (calculatePixelBrightness Math_pow (ofZ x) (ofZ y) (ofZ z)).
Proof.
  intros Hx Hy Hz. unfold calculatePixelBrightness. cbv zeta.
  destruct (linearize_unit Hx) as (qx & -> & Bx).
  destruct (linearize_unit Hy) as (qy & -> & By).
  destruct (linearize_unit Hz) as (qz & -> & Bz).
  unfold mul, add. eexists. split; [reflexivity|]. lra.
Qed.

Variable pixels : list Z.
Hypothesis whole : (length pixels mod 4 = 0)%nat.
Hypothesis bytes : Forall isByte pixels.


End BrightnessFacts.



(** *** The colour temperature *)

Lemma temperature_folds (colors : list Color) :
  Forall inGamut colors ->
  forall (k : nat) (a d : Q),
    (- d <= a <= d)%Q ->
    exists a' d' : Q,
      fold_left
        (fun sum '(i, color) =>
           let weight := (ofZ 1 / (ofNat i + ofZ 1))%num in
           let warmth := ((r color - b color) / ofZ 255)%num in
           (sum + warmth * weight)%num)
        (combine (seq k (length colors)) colors) (Fin a) = Fin a'
      /\ fold_left (fun sum '(i, _) => (sum + ofZ 1 / (ofNat i + ofZ 1))%num)
           (combine (seq k (length colors)) colors) (Fin d) = Fin d'
      /\ (- d' <= a' <= d')%Q /\ (d <= d')%Q /\ (colors <> [] -> (d < d')%Q).
Proof.
  induction 1 as [|c cs Hc Hcs IH]; intros k a d Had.
  - exists a, d. cbn. repeat split; try lra. congruence.
  - cbn [length seq combine fold_left].
    destruct Hc as (p & q & t & -> & Hp & Hq & Ht). cbn [r b].
    destruct (weight_positive k) as (w & -> & Hw).
    cbv zeta. change (Fin p - Fin t)%num with (Fin (p + - t)).
    unfold ofZ. rewrite div_Fin by discriminate.
    change (Fin ((p + - t) / inject_Z 255) * Fin w)%num
      with (Fin ((p + - t) / inject_Z 255 * w)).
    change (Fin a + Fin ((p + - t) / inject_Z 255 * w))%num
      with (Fin (a + (p + - t) / inject_Z 255 * w)).
    change (Fin d + Fin w)%num with (Fin (d + w)).
    assert (Hwarm : (-1 <= (p + - t) / inject_Z 255 <= 1)%Q).
    { change (inject_Z 255) with 255%Q. apply ratio_bounds; lra. }
    destruct (IH (S k) (a + (p + - t) / inject_Z 255 * w)%Q (d + w)%Q)
      as (a' & d' & E1 & E2 & H1 & H2 & _); [nra|].
    exists a', d'. split; [exact E1|]. split; [exact E2|].
    split; [exact H1|]. split; [lra | intros _; lra].
Qed.

Lemma getColorTemperature_range (colors : list Color) :
  Forall inGamut colors ->
  (colors = [] /\ Sorting.getColorTemperature colors = NaN)
  \/ (colors <> []
      /\ exists q : Q, Sorting.getColorTemperature colors = Fin q
                       /\ (-1 <= q <= 1)%Q).
Proof.
  intros Hc. destruct colors as [|c cs] eqn:Ec; [left; split; reflexivity|].
  right. split; [discriminate|]. rewrite <- Ec in *.
  unfold Sorting.getColorTemperature, indexed.
  destruct (@temperature_folds colors Hc 0%nat 0%Q 0%Q ltac:(lra))
    as (a & d & E1 & E2 & H1 & _ & H3).
  change (ofZ 0) with (Fin 0). cbv zeta in E1. rewrite E1, E2.
  assert (Hd : (0 < d)%Q) by (apply H3; rewrite Ec; discriminate).
  rewrite div_Fin by lra. eexists. split; [reflexivity|].
  apply ratio_bounds; lra.
Qed.

(** X19.  For two images that both have dominant colours, with finite
    channels in [[0, 255]]: [compareByColorTemperature] returns [NaN] when
    the list of dominant colours of one of them is empty, and otherwise a
    finite number in [[-2, 2]], the difference of two temperatures in
    [[-1, 1]]. *)
Theorem X19_color_temperature_range :
  forall (a b : Sorting.VisualMetadata) (ca cb : list Color),
    Sorting.dominantColors a = Some ca ->
    Sorting.dominantColors b = Some cb ->
    Forall inGamut ca -> Forall inGamut cb ->
    ((ca = [] \/ cb = []) /\ Sorting.compareByColorTemperature a b = NaN)
    \/ (ca <> [] /\ cb <> []
        /\ exists ta tb : Q,
             Sorting.getColorTemperature ca = Fin ta
             /\ Sorting.getColorTemperature cb = Fin tb
             /\ (-1 <= ta <= 1)%Q /\ (-1 <= tb <= 1)%Q
             /\ Sorting.compareByColorTemperature a b = Fin (tb + - ta)).
Proof.
  intros a b ca cb Ea Eb Ha Hb.
  unfold Sorting.compareByColorTemperature, Sorting.colorsOrAverage.
  rewrite Ea, Eb. cbv beta iota.
  destruct (getColorTemperature_range Ha) as [[-> Ta] | (Na & ta & Ta & Hta)];
    destruct (getColorTemperature_range Hb) as [[-> Tb] | (Nb & tb & Tb & Htb)];
    rewrite ?Ta, ?Tb.
  - left. split; [left; reflexivity | reflexivity].
  - left. split; [left; reflexivity | reflexivity].
  - left. split; [right; reflexivity | reflexivity].
  - right. split; [exact Na|]. split; [exact Nb|].
    exists ta, tb. repeat split; try apply Hta; try apply Htb.
Qed.

Lemma X19_witness :
  let a := Sorting.mkVisualMetadata None (Some [rgb 200 40 90; rgb 10 10 10])
             None None None None None in
  let b := Sorting.mkVisualMetadata None (Some []) None None None None None in
  Sorting.compareByColorTemperature a b = NaN
  /\ exists q : Q, Sorting.compareByColorTemperature a a = Fin q.
Proof.
  intros a b.
  assert (G : forall x y z : Z, isByte x -> isByte y -> isByte z ->
                inGamut (rgb x y z)).
  { intros x y z Hx Hy Hz. exists (inject_Z x), (inject_Z y), (inject_Z z).
    split; [reflexivity|]. unfold isByte in *.
    change 0%Q with (inject_Z 0). change 255%Q with (inject_Z 255).
    rewrite <- !Zle_Qle. repeat split; lia. }
  assert (Ha : Forall inGamut [rgb 200 40 90; rgb 10 10 10])
    by (repeat constructor; apply G; unfold isByte; lia).
  split.
  - destruct (@X19_color_temperature_range a b _ _ Logic.eq_refl Logic.eq_refl
                Ha (Forall_nil _)) as [[_ E] | (_ & H & _)];
      [exact E | congruence].
  - destruct (@X19_color_temperature_range a a _ _ Logic.eq_refl Logic.eq_refl
                Ha Ha) as [[[H | H] _] | (_ & _ & ta & tb & _ & _ & _ & _ & E)];
      [discriminate H | discriminate H|].
    eexists. exact E.
Defined.

(** *** Colours sorted by hue, saturation and lightness *)







(** *** Channel statistics *)






(** *** The comparators without a guard *)

(** X22.  [compareByColorRange], [compareByDarkColors],
    [compareByBrightColors] and [compareByColorDiversity] are antisymmetric
    as well: on every pair of images, and whatever [getColorScore] and
    [getPerceptualColorDifference] compute, comparing [(b, a)] gives the
    negation of comparing [(a, b)]. *)
Theorem X22_unguarded_comparators_antisymmetric :
  forall (Math_pow : num -> num -> num)
         (getColorScore : list Color -> num -> num -> num -> num)
         (getPerceptualColorDifference : Color -> Color -> num)
         (a b : Sorting.VisualMetadata),
    (Sorting.compareByColorRange Math_pow b a
     == neg (Sorting.compareByColorRange Math_pow a b))%num
    /\ (Sorting.compareByDarkColors getColorScore b a
        == neg (Sorting.compareByDarkColors getColorScore a b))%num
    /\ (Sorting.compareByBrightColors getColorScore b a
        == neg (Sorting.compareByBrightColors getColorScore a b))%num
    /\ (Sorting.compareByColorDiversity getPerceptualColorDifference b a
        == neg (Sorting.compareByColorDiversity getPerceptualColorDifference a b))%num.
Proof.
  intros Math_pow getColorScore getPerceptualColorDifference a b.
  split; [|split; [|split]].
  - unfold Sorting.compareByColorRange, Sorting.getHistogram.
    destruct (Sorting.histogram a), (Sorting.histogram b); apply sub_antisym.
  - unfold Sorting.compareByDarkColors, Sorting.getHistogram.
    destruct (Sorting.histogram a), (Sorting.histogram b); apply sub_antisym.
  - unfold Sorting.compareByBrightColors, Sorting.getHistogram.
    destruct (Sorting.histogram a), (Sorting.histogram b); apply sub_antisym.
  - unfold Sorting.compareByColorDiversity. apply sub_antisym.
Qed.

(** *** The scores of the histogram of an image *)

Lemma analysis_histogram (Math_pow : num -> num -> num) (pixels : list Z) :
  (length pixels mod 4 = 0)%nat -> Forall isByte pixels ->
  let hist := t_histogram (fold_left (processPixel Math_pow pixels)
                             (pixelIndices (length pixels)) initialTotals) in
  histogramOf (Z.of_nat (length pixels / 4)) hist
  /\ binsOf red (pixelColors pixels) (hist_r hist)
  /\ binsOf green (pixelColors pixels) (hist_g hist)
  /\ binsOf blue (pixelColors pixels) (hist_b hist).
Proof.
  intros Hw Hb hist. subst hist.
  destruct (pixelIndices_whole (length pixels) Hw) as [Hl Hi].
  pose proof (@pixelLoop_counts Math_pow pixels Hb (pixelIndices (length pixels))
                initialTotals 0 Hi initializeHistogram_counts) as Hc.
  rewrite Hl in Hc. cbn [Z.add] in Hc. split; [exact Hc|].
  exact (@pixelLoop_binsOf Math_pow pixels Hw Hb
           (pixelIndices (length pixels)) initialTotals []
           (fun i H => H)
           (conj (createBins_binsOf red)
              (conj (createBins_binsOf green) (createBins_binsOf blue)))).
Qed.

Lemma sumCounts_below (N : Z) (bins : list HistogramBin) :
  Forall (fun bin => (200 * bin_count bin < N)%Z) bins ->
  (200 * sumCounts bins <= Z.of_nat (length bins) * N)%Z
  /\ (bins <> [] -> (200 * sumCounts bins < Z.of_nat (length bins) * N)%Z).
Proof.
  induction 1 as [|bin rest Hbin _ [IH _]]; [cbn; split; [lia | congruence]|].
  cbn [sumCounts fold_right length]. fold (sumCounts rest).
  rewrite Nat2Z.inj_succ. split; [|intros _]; lia.
Qed.

(** A bin in 32 holds more than half a percent of the pixels. *)
Lemma significant_bin (N : Z) (bins : list HistogramBin) :
  (0 < N)%Z -> length bins = 32%nat -> sumCounts bins = N ->
  Exists (fun bin => (N <= 200 * bin_count bin)%Z) bins.
Proof.
  intros HN Hl Hs.
  destruct (Forall_Exists_dec (fun bin => (200 * bin_count bin < N)%Z)
              (fun bin => Z_lt_dec (200 * bin_count bin) N) bins) as [Hall | Hex].
  - destruct (sumCounts_below Hall) as [H _]. rewrite Hs, Hl in H. lia.
  - eapply Exists_impl; [|exact Hex]. intros bin H. cbv beta in H. lia.
Qed.

Lemma getChannelRange_bounds (thr : Q) (bins : list HistogramBin) :
  Forall (fun bin => (0 <= bin_value bin <= 248)%Z) bins ->
  Exists (fun bin => (thr <= inject_Z (bin_count bin))%Q) bins ->
  exists q : Q,
    Sorting.getChannelRange (Fin thr) bins = Fin q /\ (0 <= q <= 248)%Q.
Proof.
  intros Hv Hex. unfold Sorting.getChannelRange.
  assert (G : forall (d b : Q),
            (0 <= d)%Q -> (0 <= b <= 248)%Q ->
            (d <= b)%Q
            \/ Exists (fun bin => (thr <= inject_Z (bin_count bin))%Q) bins ->
            exists d' b' : Q,
              fold_left
                (fun '(darkest, brightest) bin =>
                   if (ofZ (bin_count bin) >=? Fin thr)%num
                   then (min darkest (ofZ (bin_value bin)),
                         max brightest (ofZ (bin_value bin)))
                   else (darkest, brightest))
                bins (Fin d, Fin b) = (Fin d', Fin b')
              /\ (0 <= d')%Q /\ (d' <= b')%Q /\ (b' <= 248)%Q).
  { clear Hex. induction Hv as [|bin rest Hbin _ IH]; intros d b Hd Hb Hor.
    - destruct Hor as [Hor | Hor]; [|inversion Hor].
      exists d, b. cbn. repeat split; lra.
    - cbn [fold_left].
      change (ofZ (bin_count bin)) with (Fin (inject_Z (bin_count bin))).
      assert (Bv : (0 <= inject_Z (bin_value bin) <= 248)%Q).
      { change 0%Q with (inject_Z 0). change 248%Q with (inject_Z 248).
        rewrite <- !Zle_Qle. exact Hbin. }
      destruct (Fin (inject_Z (bin_count bin)) >=? Fin thr)%num eqn:E.
      + change (ofZ (bin_value bin)) with (Fin (inject_Z (bin_value bin))).
        change (min (Fin d) (Fin (inject_Z (bin_value bin))))
          with (if (Fin (inject_Z (bin_value bin)) <? Fin d)%num
                then Fin (inject_Z (bin_value bin)) else Fin d).
        change (max (Fin b) (Fin (inject_Z (bin_value bin))))
          with (if (Fin b <? Fin (inject_Z (bin_value bin)))%num
                then Fin (inject_Z (bin_value bin)) else Fin b).
        destruct (Fin (inject_Z (bin_value bin)) <? Fin d)%num eqn:E1;
          destruct (Fin b <? Fin (inject_Z (bin_value bin)))%num eqn:E2;
          repeat match goal with
                 | H : (_ <? _)%num = true |- _ => apply lt_Fin in H
                 | H : (_ <? _)%num = false |- _ => apply lt_Fin_false in H
                 end;
          apply IH; try lra; left; lra.
      + apply ge_Fin_false in E. apply IH; [exact Hd | exact Hb|].
        destruct Hor as [Hor | Hor]; [left; exact Hor|].
        inversion Hor as [? ? H | ? ? H]; subst;
          [exfalso; lra | right; exact H]. }
  destruct (G 255%Q 0%Q ltac:(lra) ltac:(lra) (or_intror Hex))
    as (d' & b' & E & H1 & H2 & H3).
  change (ofZ 255) with (Fin 255). change (ofZ 0) with (Fin 0).
  rewrite E. exists (b' + - d')%Q. split; [reflexivity | lra].
Qed.

Lemma binsOf_values (ch : Z * Z * Z -> Z) (colors : list (Z * Z * Z))
    (bins : list HistogramBin) :
  binsOf ch colors bins ->
  Forall (fun bin => (0 <= bin_value bin <= 248)%Z
                     /\ (0 <= bin_count bin)%Z) bins.
Proof.
  intros [Hl Hb]. rewrite Forall_forall. intros bin Hin.
  apply In_nth_error in Hin. destruct Hin as [i Hi].
  assert (Hlt : (i < 32)%nat) by (rewrite <- Hl; apply nth_error_Some; congruence).
  rewrite (Hb i Hlt) in Hi.
  assert (Eb : bin = mkBin (colorsInBin ch i colors) (8 * Z.of_nat i))
    by congruence.
  rewrite Eb. cbn [bin_value bin_count]. unfold colorsInBin. lia.
Qed.

(** X23.  For a buffer of whole pixels of bytes, the colour range score
    that [compareByColorRange] computes from the histogram of
    [analyzeImageColors] is a finite number in [[0, 248]] when the image is
    not empty: in each channel a bin is significant, so a channel range is
    never [0 - 255].  For an empty image every bin counts as significant and
    the score is [248], the largest there is. *)
Theorem X23_color_range_score_of_an_image :
  forall (Math_pow : num -> num -> num) (random : nat -> num)
         (DOMINANT_COLORS_COUNT PALETTE_COLORS_COUNT w h : Z)
         (pixels : list Z) (n : nat),
    validRandom random ->
    (length pixels mod 4 = 0)%nat ->
    Forall isByte pixels ->
    exists md n',
      analyzeImageColors Math_pow random DOMINANT_COLORS_COUNT
        PALETTE_COLORS_COUNT (mkCanvas w h (Some pixels)) n = Some (md, n')
      /\ (pixels <> [] ->
          exists q : Q,
            Sorting.getColorRangeScore (histogram md) = Fin q
            /\ (0 <= q <= 248)%Q)
      /\ (pixels = [] ->
          (Sorting.getColorRangeScore (histogram md) == ofZ 248)%num).
Proof.
  intros Math_pow random D P w h pixels n Hr Hw Hb.
  destruct (@analyzeImageColors_returns Math_pow random D P
              (mkCanvas w h (Some pixels)) pixels n Hr Logic.eq_refl)
    as (dom & n' & rep & cands & var & _ & _ & _ & _ & E).
  eexists _, n'. split; [exact E|]. cbn [histogram]. split.
  - intros Hne.
    destruct (analysis_histogram Math_pow Hw Hb)
      as ((Lr & Lg & Lb & Sr & Sg & Sb) & Br & Bg & Bb).
    set (hist := t_histogram _) in *.
    pose proof (Nat.div_mod_eq (length pixels) 4) as Hd.
    assert (Hpos : (0 < length pixels)%nat)
      by (destruct pixels; [congruence | cbn [length]; lia]).
    set (N := Z.of_nat (length pixels / 4)) in *.
    assert (HN : (0 < N)%Z) by (subst N; lia).
    unfold Sorting.getColorRangeScore. cbn [totalPixels hist_r hist_g hist_b].
    assert (Htp : exists tp, (ofNat (length pixels) / ofZ 4)%num = Fin tp
                             /\ (tp == inject_Z N)%Q).
    { unfold ofNat, ofZ. rewrite div_Fin by discriminate.
      eexists. split; [reflexivity|]. subst N.
      replace (Z.of_nat (length pixels))
        with (Z.of_nat (length pixels / 4) * 4)%Z by lia.
      rewrite inject_Z_mult. field. }
    destruct Htp as (tp & -> & Htp). cbv zeta.
    change (Fin tp * Fin 0.005)%num with (Fin (tp * 0.005)).
    assert (Hsig : forall bins, length bins = 32%nat -> sumCounts bins = N ->
                     Exists (fun bin => (tp * 0.005 <= inject_Z (bin_count bin))%Q)
                            bins).
    { intros bins Hl Hs. eapply Exists_impl; [|exact (@significant_bin N bins HN Hl Hs)].
      intros bin H. cbv beta in H. rewrite Htp.
      rewrite Zle_Qle, inject_Z_mult in H. change (inject_Z 200) with 200%Q in H.
      lra. }
    assert (Hrange : forall ch bins, length bins = 32%nat ->
                       sumCounts bins = N -> binsOf ch (pixelColors pixels) bins ->
                       exists q : Q,
                         Sorting.getChannelRange (Fin (tp * 0.005)) bins = Fin q
                         /\ (0 <= q <= 248)%Q).
    { intros ch bins Hl Hs Hbins. apply getChannelRange_bounds.
      - eapply Forall_impl; [|exact (binsOf_values Hbins)].
        intros bin [H _]. exact H.
      - apply Hsig; assumption. }
    destruct (Hrange red _ Lr Sr Br) as (qr & -> & Hqr).
    destruct (Hrange green _ Lg Sg Bg) as (qg & -> & Hqg).
    destruct (Hrange blue _ Lb Sb Bb) as (qb & -> & Hqb).
    unfold mul, add. eexists. split; [reflexivity|]. lra.
  - intros ->. vm_compute. reflexivity.
Qed.

Lemma X23_witness :
  let pixels := [255; 0; 0; 255; 0; 64; 255; 255; 255; 0; 0; 9]%Z in
  exists md n' (q : Q),
    analyzeImageColors (fun x _ => x) (fun _ => Fin (1 # 2)) 2 2
      (mkCanvas 3 1 (Some pixels)) 0%nat = Some (md, n')
    /\ Sorting.getColorRangeScore (histogram md) = Fin q
    /\ (0 <= q <= 248)%Q.
Proof.
  intros pixels.
  assert (Hb : Forall isByte pixels).
  { repeat (constructor; [unfold isByte; lia|]). constructor. }
  assert (Hr : validRandom (fun _ => Fin (1 # 2))).
  { intros i. exists (1 # 2). split; [reflexivity|].
    split; [discriminate | reflexivity]. }
  destruct (@X23_color_range_score_of_an_image (fun x _ => x)
              (fun _ => Fin (1 # 2)) 2 2 3 1 pixels 0%nat Hr Logic.eq_refl Hb)
    as (md & n' & E & H & _).
  destruct H as (q & Eq & Hq); [discriminate|].
  exists md, n', q. split; [exact E|]. split; assumption.
Defined.







(** *** The weighted brightness *)

Lemma brightness_folds (Math_pow : num -> num -> num) (colors : list Color) :
  unitPow Math_pow -> Forall byteColor colors ->
  forall (k : nat) (a d : Q),
    (0 <= a <= d)%Q ->
    exists a' d' : Q,
      fold_left
        (fun sum '(index, color) =>
           let weight := (ofZ 1 / (ofNat index + ofZ 1))%num in
           (sum + calculatePixelBrightness Math_pow (r color) (g color) (b color)
                  * weight)%num)
        (combine (seq k (length colors)) colors) (Fin a) = Fin a'
      /\ fold_left (fun sum '(index, _) => (sum + ofZ 1 / (ofNat index + ofZ 1))%num)
           (combine (seq k (length colors)) colors) (Fin d) = Fin d'
      /\ (0 <= a' <= d')%Q /\ (d <= d')%Q /\ (colors <> [] -> (d < d')%Q).
Proof.
  intros Hp. induction 1 as [|c cs Hc Hcs IH]; intros k a d Had.
  - exists a, d. cbn. repeat split; try lra. congruence.
  - cbn [length seq combine fold_left].
    destruct Hc as (x & y & z & Hx & Hy & Hz & ->). unfold rgb. cbn [r g b].
    destruct (calculatePixelBrightness_unit Hp Hx Hy Hz) as (v & -> & Hv).
    destruct (weight_positive k) as (wt & -> & Hw).
    cbv zeta. change (Fin v * Fin wt)%num with (Fin (v * wt)).
    change (Fin a + Fin (v * wt))%num with (Fin (a + v * wt)).
    change (Fin d + Fin wt)%num with (Fin (d + wt)).
    destruct (IH (S k) (a + v * wt)%Q (d + wt)%Q)
      as (a' & d' & E1 & E2 & H1 & H2 & _); [nra|].
    exists a', d'. split; [exact E1|]. split; [exact E2|].
    split; [exact H1|]. split; [lra | intros _; lra].
Qed.

Lemma getWeightedBrightness_unit (Math_pow : num -> num -> num)
    (colors : list Color) :
  unitPow Math_pow -> Forall byteColor colors ->
  exists q : Q,
    getWeightedBrightness Math_pow (Some colors) = Fin q /\ (0 <= q <= 1)%Q
    /\ (colors = [] -> q = inject_Z 0).
Proof.
  intros Hp Hc. unfold getWeightedBrightness.
  destruct colors as [|c cs] eqn:Ec.
  - exists (inject_Z 0). split; [reflexivity|]. split; [|reflexivity].
    change (inject_Z 0) with 0%Q. lra.
  - rewrite <- Ec in *. replace (length colors =? 0)%nat with false
      by (rewrite Ec; reflexivity).
    unfold indexed.
    destruct (@brightness_folds Math_pow colors Hp Hc 0%nat 0%Q 0%Q ltac:(lra))
      as (a & d & E1 & E2 & H1 & _ & H3).
    change (ofZ 0) with (Fin 0). cbv zeta in E1. rewrite E1, E2.
    assert (Hd : (0 < d)%Q) by (apply H3; rewrite Ec; discriminate).
    rewrite div_Fin by lra. eexists. split; [reflexivity|].
    split; [apply ratio_bounds; lra|]. rewrite Ec. discriminate.
Qed.

(** X25.  For two images that both have dominant colours, with integer
    channels in [[0, 255]], and a [Math.pow] that with the exponent [2.4]
    maps [[0, 1]] into [[0, 1]]: the weighted brightness of each is a finite
    number in [[0, 1]], [0] for an empty list, and [compareByLuminance]
    returns their difference, a finite number in [[-1, 1]]. *)
Theorem X25_luminance_comparison_range :
  forall (Math_pow : num -> num -> num) (a b : Sorting.VisualMetadata)
         (ca cb : list Color),
    unitPow Math_pow ->
    Sorting.dominantColors a = Some ca ->
    Sorting.dominantColors b = Some cb ->
    Forall byteColor ca -> Forall byteColor cb ->
    exists la lb : Q,
      getWeightedBrightness Math_pow (Some ca) = Fin la
      /\ getWeightedBrightness Math_pow (Some cb) = Fin lb
      /\ (0 <= la <= 1)%Q /\ (0 <= lb <= 1)%Q
      /\ (ca = [] -> la = inject_Z 0) /\ (cb = [] -> lb = inject_Z 0)
      /\ Sorting.compareByLuminance Math_pow a b = Fin (lb + - la)
      /\ (-1 <= lb + - la <= 1)%Q.
Proof.
  intros Math_pow a b ca cb Hp Ea Eb Ha Hb.
  destruct (getWeightedBrightness_unit Hp Ha) as (la & Ela & Hla & Za).
  destruct (getWeightedBrightness_unit Hp Hb) as (lb & Elb & Hlb & Zb).
  exists la, lb. split; [exact Ela|]. split; [exact Elb|].
  split; [exact Hla|]. split; [exact Hlb|]. split; [exact Za|].
  split; [exact Zb|]. split; [|lra].
  unfold Sorting.compareByLuminance, Sorting.compareByLuminanceWith,
    Sorting.brightnessOr.
  rewrite Ea, Eb. cbv beta iota zeta. rewrite Ela, Elb. reflexivity.
Qed.

Lemma X25_witness :
  let a := Sorting.mkVisualMetadata None (Some [rgb 200 40 90; rgb 10 10 10])
             None None None None None in
  let b := Sorting.mkVisualMetadata None (Some []) None None None None None in
  exists q : Q,
    Sorting.compareByLuminance (fun x _ => x) a b = Fin q /\ (-1 <= q <= 1)%Q.
Proof.
  intros a b.
  assert (Hp : unitPow (fun x _ => x)).
  { intros x Hx. exists x. split; [reflexivity | exact Hx]. }
  assert (Ha : Forall byteColor [rgb 200 40 90; rgb 10 10 10]).
  { repeat constructor.
    - exists 200%Z, 40%Z, 90%Z. unfold isByte. repeat split; lia.
    - exists 10%Z, 10%Z, 10%Z. unfold isByte. repeat split; lia. }
  destruct (@X25_luminance_comparison_range (fun x _ => x) a b _ _ Hp
              Logic.eq_refl Logic.eq_refl Ha (Forall_nil _))
    as (la & lb & _ & _ & _ & _ & _ & _ & E & H).
  exists (lb + - la)%Q. split; assumption.
Defined.

(** *** The weights of the clusters *)









(** *** The seeding of the clusters *)

Lemma pickOrLast_state (weights : list num)
    (points : list DataPoint) (rand : num) (n n' : nat) (c : Centroid) :
  pickOrLast weights points rand n = Some (c, n') -> n' = n.
Proof.
  unfold pickOrLast. destruct (pickWeighted weights points rand);
    [intros E; inversion E; reflexivity|].
  destruct (last (map Some points) None);
    intros E; inversion E; reflexivity.
Qed.

Lemma seedLoop_draws (random : nat -> num) (points : list DataPoint) (k : Z)
    (fuel : nat) :
  forall (centroids centroids' : list Centroid) (n n' : nat),
    seedLoop random fuel points k centroids n = Some (centroids', n') ->
    (Z.to_nat k <= length centroids + fuel)%nat ->
    n' = (n + (Z.to_nat k - length centroids))%nat.
Proof.
  induction fuel as [|fuel IH]; intros centroids centroids' n n' E Hf;
    cbn [seedLoop] in E.
  - inversion E; subst. lia.
  - destruct (Z.ltb_spec (Z.of_nat (length centroids)) k) as [L | G].
    + unfold bind at 1 in E. unfold Math_random in E. unfold bind at 1 in E.
      match type of E with
      | context [pickOrLast ?w points ?x (S n)] =>
          destruct (pickOrLast w points x (S n)) as [[c m]|] eqn:P;
            [|discriminate]
      end.
      apply pickOrLast_state in P. subst m.
      apply IH in E; [|rewrite length_app; simpl; lia].
      rewrite length_app in E. simpl in E. lia.
    + inversion E; subst. lia.
Qed.

(** X27.  [initializeCentroidsKMeansPP] throws on empty data.  On other
    data, and whatever [Math.random] returns, it returns
    [max(1, k)] centroids, each the colour of a data point, and calls
    [Math.random] once for each centroid. *)
Theorem X27_seeds_are_colors_of_the_data :
  forall (random : nat -> num) (data : list DataPoint) (k : Z) (n : nat),
    (data = [] -> initializeCentroidsKMeansPP random data k n = None)
    /\ (data <> [] ->
        exists centroids : list Centroid,
          initializeCentroidsKMeansPP random data k n
          = Some (centroids, (n + Nat.max 1 (Z.to_nat k))%nat)
          /\ length centroids = Nat.max 1 (Z.to_nat k)
          /\ Forall (fromData data) centroids).
Proof.
  intros random data k n. split.
  - intros ->. reflexivity.
  - intros Hd.
    destruct (initializeCentroidsKMeansPP_total random Hd k n)
      as (cs & n' & E & Hl & Hf).
    exists cs. split; [|split; assumption]. rewrite E. f_equal. f_equal.
    unfold initializeCentroidsKMeansPP in E.
    unfold bind at 1 in E. unfold Math_random in E. unfold bind at 1 in E.
    match type of E with
    | context [pickOrLast ?w data ?x (S n)] =>
        destruct (pickOrLast w data x (S n)) as [[c m]|] eqn:P;
          [|discriminate]
    end.
    apply pickOrLast_state in P. subst m.
    apply seedLoop_draws in E; [|simpl; lia]. simpl in E. lia.
Qed.

Lemma X27_witness :
  let data := [mkPoint (rgb 10 200 30) (ofZ 2); mkPoint (rgb 40 20 90) (ofZ 1)] in
  exists centroids : list Centroid,
    initializeCentroidsKMeansPP (fun _ => Fin (1 # 2)) data 3 0%nat
    = Some (centroids, 3%nat)
    /\ length centroids = 3%nat
    /\ Forall (fromData data) centroids.
Proof.
  intros data.
  destruct (proj2 (X27_seeds_are_colors_of_the_data (fun _ => Fin (1 # 2))
                     data 3 0%nat)) as (cs & E & Hl & Hf);
    [discriminate|].
  exists cs. split; [exact E|]. split; [exact Hl | exact Hf].
Defined.

(** *** The weighted saturation *)






